(** * Polyquad: the triangular-prism domain ([src/shapes/pri.hpp])

    A shallow embedding of [PriDomain<T>] and the properties of its orbit
    model and of its orthonormal basis evaluation.

    Conventions of the embedding.
    - The scalar type [T] of the template is the field of real numbers.
    - [int] is [Z]; signed overflow has no defined behaviour in the source.
      Lemma [coefficient_in_int] shows that the product under the square
      root of [eval_orthob_block] is a value of a 32-bit [int] up to degree
      1933, and lemma [count_in_int] that the count of basis functions is
      one up to degree 4684; the statements on the values written and on
      the size of the count are made within these bounds.
    - An Eigen vector is a list of scalars, an Eigen matrix the list of its
      rows.  Indexing outside a buffer has no defined behaviour in the
      source; the embedding stops with [OutOfRange] there, apart from the
      [abort()] of the "Bad orbit" branches, which is [Abort].
    - Code that mutates a buffer is written in a state-and-error monad over
      exactly the buffers the function can reach. *)

From Equations Require Import Equations.
From Stdlib Require Import Reals ZArith List Bool Lia Lra Permutation Sorted.
Import ListNotations.

Local Open Scope Z_scope.

(** ** Outcomes and the state monad *)

Inductive outcome (A : Type) : Type :=
| Ok (a : A)
| Abort
| OutOfRange.

Arguments Ok {A} a.
Arguments Abort {A}.
Arguments OutOfRange {A}.

Definition M (St A : Type) : Type := St -> outcome (A * St).

Definition ret {St A : Type} (a : A) : M St A :=
  fun s => Ok (a, s).

Definition bind {St A B : Type} (c : M St A) (k : A -> M St B) : M St B :=
  fun s =>
    match c s with
    | Ok (a, s') => k a s'
    | Abort => Abort
    | OutOfRange => OutOfRange
    end.

(** [assert(0 && "Bad orbit"), abort()] *)
Definition bad_orbit {St A : Type} : M St A :=
  fun _ => Abort.

Declare Scope monad_scope.
Delimit Scope monad_scope with monad.
Notation "x <- c ;; k" := (bind c (fun x => k))
  (at level 61, c at next level, right associativity) : monad_scope.
Notation "c ;; k" := (bind c (fun _ => k))
  (at level 61, right associativity) : monad_scope.
Local Open Scope monad_scope.

(** ** Scalars, vectors and matrices *)

Definition T : Type := R.
Bind Scope R_scope with T.

Definition VectorXT : Type := list T.

Record Vector3T : Type := mkVector3T { v3_x : T; v3_y : T; v3_z : T }.

Definition MatrixPtsT : Type := list Vector3T.

Definition ArrayT : Type := list T.

Definition in_bounds {A : Type} (l : list A) (k : Z) : bool :=
  (0 <=? k) && (k <? Z.of_nat (length l)).

Definition load {A : Type} (l : list A) (k : Z) : option A :=
  if in_bounds l k then nth_error l (Z.to_nat k) else None.

Fixpoint update {A : Type} (l : list A) (n : nat) (v : A) : list A :=
  match l, n with
  | [], _ => []
  | _ :: l', O => v :: l'
  | x :: l', S n' => x :: update l' n' v
  end.

Definition store {A : Type} (l : list A) (k : Z) (v : A) : option (list A) :=
  if in_bounds l k then Some (update l (Z.to_nat k) v) else None.

(** A C array used as a table. *)
Definition table_at (tbl : list Z) (i : Z) : Z :=
  nth (Z.to_nat i) tbl 0.

(** ** The orbit tables and the validity test *)

(** [Eigen::Matrix<int, 6, 1>]: one count per orbit. *)
Record VectorOrb : Type := mkVectorOrb
  { orb_0 : Z; orb_1 : Z; orb_2 : Z; orb_3 : Z; orb_4 : Z; orb_5 : Z }.

Definition orb_at (orb : VectorOrb) (i : Z) : Z :=
  match i with
  | 0 => orb_0 orb
  | 1 => orb_1 orb
  | 2 => orb_2 orb
  | 3 => orb_3 orb
  | 4 => orb_4 orb
  | _ => orb_5 orb
  end.

Definition validate_orbit (orb : VectorOrb) : bool :=
  orb_at orb 0 <=? 1.

Definition npts_for_orbit : list Z := [1; 2; 3; 6; 6; 12].
Definition narg_for_orbit : list Z := [0; 1; 1; 2; 2; 3].

(** ** Barycentric to Cartesian *)

Definition bary_to_cart (p1 p2 p3 z : T) : Vector3T :=
  mkVector3T (- p1 + p2 - p3)%R (- p1 - p2 + p3)%R z.

(** ** expand_orbit *)

(** What [expand_orbit] can reach: the parameter vector (read only), the
    point matrix, and, as ghost state, the indices of the parameters it has
    read and of the rows it has assigned, in program order. *)
Record expand_mem : Type := mkExpandMem
  { em_args : VectorXT;
    em_pts : MatrixPtsT;
    em_reads : list Z;
    em_writes : list Z }.

(** [args(k)] *)
Definition args_at (k : Z) : M expand_mem T :=
  fun m =>
    match load (em_args m) k with
    | Some x =>
        Ok (x, mkExpandMem (em_args m) (em_pts m)
                 (em_reads m ++ [k]) (em_writes m))
    | None => OutOfRange
    end.

(** [pts.row(k) = v] *)
Definition pts_row_set (k : Z) (v : Vector3T) : M expand_mem unit :=
  fun m =>
    match store (em_pts m) k v with
    | Some pts' =>
        Ok (tt, mkExpandMem (em_args m) pts'
                  (em_reads m) (em_writes m ++ [k]))
    | None => OutOfRange
    end.

Definition expand_orbit (i aoff poff : Z) : M expand_mem unit :=
  match i with
  | 0 =>
      let a := (1 / 3)%R in
      pts_row_set poff (bary_to_cart a a a 0)
  | 1 =>
      let a := (1 / 3)%R in
      b <- args_at aoff ;;
      pts_row_set (poff + 0) (bary_to_cart a a a (- b)) ;;
      pts_row_set (poff + 1) (bary_to_cart a a a b)
  | 2 =>
      a <- args_at aoff ;;
      pts_row_set (poff + 0) (bary_to_cart a a (1 - 2 * a) 0) ;;
      pts_row_set (poff + 1) (bary_to_cart a (1 - 2 * a) a 0) ;;
      pts_row_set (poff + 2) (bary_to_cart (1 - 2 * a) a a 0)
  | 3 =>
      a <- args_at (aoff + 0) ;;
      b <- args_at (aoff + 1) ;;
      pts_row_set (poff + 0) (bary_to_cart a a (1 - 2 * a) (- b)) ;;
      pts_row_set (poff + 1) (bary_to_cart a (1 - 2 * a) a (- b)) ;;
      pts_row_set (poff + 2) (bary_to_cart (1 - 2 * a) a a (- b)) ;;
      pts_row_set (poff + 3) (bary_to_cart a a (1 - 2 * a) b) ;;
      pts_row_set (poff + 4) (bary_to_cart a (1 - 2 * a) a b) ;;
      pts_row_set (poff + 5) (bary_to_cart (1 - 2 * a) a a b)
  | 4 =>
      a <- args_at (aoff + 0) ;;
      b <- args_at (aoff + 1) ;;
      pts_row_set (poff + 0) (bary_to_cart a b (1 - a - b) 0) ;;
      pts_row_set (poff + 1) (bary_to_cart a (1 - a - b) b 0) ;;
      pts_row_set (poff + 2) (bary_to_cart b a (1 - a - b) 0) ;;
      pts_row_set (poff + 3) (bary_to_cart b (1 - a - b) a 0) ;;
      pts_row_set (poff + 4) (bary_to_cart (1 - a - b) a b 0) ;;
      pts_row_set (poff + 5) (bary_to_cart (1 - a - b) b a 0)
  | 5 =>
      a <- args_at (aoff + 0) ;;
      b <- args_at (aoff + 1) ;;
      c <- args_at (aoff + 2) ;;
      pts_row_set (poff + 0) (bary_to_cart a b (1 - a - b) (- c)) ;;
      pts_row_set (poff + 1) (bary_to_cart a (1 - a - b) b (- c)) ;;
      pts_row_set (poff + 2) (bary_to_cart b a (1 - a - b) (- c)) ;;
      pts_row_set (poff + 3) (bary_to_cart b (1 - a - b) a (- c)) ;;
      pts_row_set (poff + 4) (bary_to_cart (1 - a - b) a b (- c)) ;;
      pts_row_set (poff + 5) (bary_to_cart (1 - a - b) b a (- c)) ;;
      pts_row_set (poff + 6) (bary_to_cart a b (1 - a - b) c) ;;
      pts_row_set (poff + 7) (bary_to_cart a (1 - a - b) b c) ;;
      pts_row_set (poff + 8) (bary_to_cart b a (1 - a - b) c) ;;
      pts_row_set (poff + 9) (bary_to_cart b (1 - a - b) a c) ;;
      pts_row_set (poff + 10) (bary_to_cart (1 - a - b) a b c) ;;
      pts_row_set (poff + 11) (bary_to_cart (1 - a - b) b a c)
  | _ => bad_orbit
  end.

(** ** clamp_arg and sort_arg *)

(** [args(k)] and [args(k) = v] on a mutable parameter vector. *)
Definition arg_get (k : Z) : M VectorXT T :=
  fun args =>
    match load args k with
    | Some x => Ok (x, args)
    | None => OutOfRange
    end.

Definition arg_put (k : Z) (v : T) : M VectorXT unit :=
  fun args =>
    match store args k v with
    | Some args' => Ok (tt, args')
    | None => OutOfRange
    end.

(** Modelled from the spec: the three-argument [clamp] called by
    [clamp_arg] is declared outside [pri.hpp]; the spec says out-of-domain
    values are "silently pulled back into range".  This is the reference
    instance of the parameter [clamp] below. *)
Definition clamp_ref (l v h : T) : T :=
  if Rlt_dec v l then l else if Rgt_dec v h then h else v.

(** [std::sort] on a short array; the library only promises the ascending
    arrangement by [operator<], obtained here by insertion. *)
Fixpoint sort_insert (x : T) (l : list T) : list T :=
  match l with
  | [] => [x]
  | y :: l' => if Rlt_dec y x then y :: sort_insert x l' else x :: y :: l'
  end.

Definition std_sort (l : list T) : list T :=
  fold_right sort_insert [] l.

(** [std::copy(first, last, args.data() + dst)] *)
Fixpoint std_copy (src : list T) (dst : Z) : M VectorXT unit :=
  match src with
  | [] => ret tt
  | x :: src' => arg_put dst x ;; std_copy src' (dst + 1)
  end.

Definition sort_arg (i aoff : Z) : M VectorXT unit :=
  if (i =? 4) || (i =? 5) then
    a0 <- arg_get (aoff + 0) ;;
    b0 <- arg_get (aoff + 1) ;;
    a1 <- arg_get (aoff + 0) ;;
    b1 <- arg_get (aoff + 1) ;;
    let baryc := std_sort [a0; b0; (1 - a1 - b1)%R] in
    std_copy (firstn 2 baryc) aoff
  else ret tt.

Section Clamp.

(** The free function [clamp(l, v, h)] of the library, a parameter of the
    development. *)
Variable clamp : T -> T -> T -> T.

Definition clamp_arg (i aoff : Z) : M VectorXT unit :=
  match i with
  | 0 => ret tt
  | 1 =>
      b <- arg_get aoff ;;
      arg_put aoff (clamp 0 b 1)
  | 2 =>
      a <- arg_get aoff ;;
      arg_put aoff (clamp 0 a 0.5)
  | 3 =>
      a <- arg_get (aoff + 0) ;;
      arg_put (aoff + 0) (clamp 0 a 0.5) ;;
      b <- arg_get (aoff + 1) ;;
      arg_put (aoff + 1) (clamp 0 b 1)
  | 4 =>
      a <- arg_get (aoff + 0) ;;
      arg_put (aoff + 0) (clamp 0 a 1) ;;
      b <- arg_get (aoff + 1) ;;
      a' <- arg_get (aoff + 0) ;;
      arg_put (aoff + 1) (clamp 0 b (1 - a'))
  | 5 =>
      a <- arg_get (aoff + 0) ;;
      arg_put (aoff + 0) (clamp 0 a 1) ;;
      b <- arg_get (aoff + 1) ;;
      a' <- arg_get (aoff + 0) ;;
      arg_put (aoff + 1) (clamp 0 b (1 - a')) ;;
      c <- arg_get (aoff + 2) ;;
      arg_put (aoff + 2) (clamp 0 c 1)
  | _ => bad_orbit
  end.

End Clamp.

(** ** seed_orbit *)

Section Seed.

(** The random source of the base class: its state, [this->rand(lo, hi)]
    and [this->rand()]. *)
Variable Rng : Type.
Variable rand_between : T -> T -> Rng -> T * Rng.
Variable rand_unit : Rng -> T * Rng.

Record seed_mem : Type := mkSeedMem { sm_args : VectorXT; sm_rng : Rng }.

Definition draw (f : Rng -> T * Rng) : M seed_mem T :=
  fun m =>
    let (x, g) := f (sm_rng m) in
    Ok (x, mkSeedMem (sm_args m) g).

(** [args(k) = v] *)
Definition seed_put (k : Z) (v : T) : M seed_mem unit :=
  fun m =>
    match store (sm_args m) k v with
    | Some args' => Ok (tt, mkSeedMem args' (sm_rng m))
    | None => OutOfRange
    end.

Definition seeda : M seed_mem T := draw (rand_between 0 0.5).
Definition seedb : M seed_mem T := draw (rand_between 0 (1 / 3)).
Definition seedc : M seed_mem T :=
  x <- draw rand_unit ;; ret (sqrt (1 - x ^ 2)).

Definition seed_orbit (i aoff : Z) : M seed_mem unit :=
  match i with
  | 0 => ret tt
  | 1 =>
      v <- seedc ;; seed_put aoff v
  | 2 =>
      v <- seeda ;; seed_put aoff v
  | 3 =>
      v <- seeda ;; seed_put (aoff + 0) v ;;
      w <- seedc ;; seed_put (aoff + 1) w
  | 4 =>
      v <- seedb ;; seed_put (aoff + 0) v ;;
      w <- seedb ;; seed_put (aoff + 1) w
  | 5 =>
      v <- seedb ;; seed_put (aoff + 0) v ;;
      w <- seedb ;; seed_put (aoff + 1) w ;;
      u <- seedc ;; seed_put (aoff + 2) u
  | _ => bad_orbit
  end.

End Seed.

Arguments mkSeedMem {Rng} sm_args sm_rng.
Arguments sm_args {Rng} s.
Arguments sm_rng {Rng} s.
Arguments seed_orbit {Rng} rand_between rand_unit i aoff.

(** ** Counted loops *)

(** [for (i = i0; i <= hi; i += step) s = body(i, s);] *)
Equations? for_le {St : Type} (step : positive) (hi : Z)
    (body : Z -> St -> St) (i : Z) (s : St) : St
    by wf (Z.to_nat (hi - i + 1)) lt :=
  for_le step hi body i s with Z_le_dec i hi := {
    | left _ => for_le step hi body (i + Z.pos step) (body i s)
    | right _ => s }.
Proof. lia. Qed.

(** The same loop around a body that can fail. *)
Equations? for_leM {St : Type} (step : positive) (hi : Z)
    (body : Z -> M St unit) (i : Z) (s : St) : outcome (unit * St)
    by wf (Z.to_nat (hi - i + 1)) lt :=
  for_leM step hi body i s with Z_le_dec i hi := {
    | left _ with body i s := {
        | Ok (_, s') => for_leM step hi body (i + Z.pos step) s'
        | Abort => Abort
        | OutOfRange => OutOfRange }
    | right _ => Ok (tt, s) }.
Proof. lia. Qed.

(** The values the counter of such a loop takes, in order. *)
Equations? range_le (step : positive) (hi : Z) (i : Z) : list Z
    by wf (Z.to_nat (hi - i + 1)) lt :=
  range_le step hi i with Z_le_dec i hi := {
    | left _ => i :: range_le step hi (i + Z.pos step)
    | right _ => [] }.
Proof. lia. Qed.

(** ** nbfn_for_qdeg *)

Definition nbfn_for_qdeg (qdeg : Z) : Z :=
  for_le 2 qdeg (fun i n =>
    for_le 1 (qdeg - i) (fun j n =>
      for_le 2 (qdeg - i - j) (fun k n => n + 1) 0 n) i n) 0 0.

(** The index triples of the loop nest, in the order it visits them. *)
Definition degree_triples (qdeg : Z) : list (Z * Z * Z) :=
  flat_map (fun i =>
    flat_map (fun j =>
      map (fun k => (i, j, k)) (range_le 2 (qdeg - i - j) 0))
      (range_le 1 (qdeg - i) i))
    (range_le 2 qdeg 0).

(** ** eval_orthob_block *)

(** Coefficient-wise operations of [Eigen::Array]. *)
Fixpoint azip (f : T -> T -> T) (x y : ArrayT) : ArrayT :=
  match x, y with
  | a :: x', b :: y' => f a b :: azip f x' y'
  | _, _ => []
  end.

Definition amul (x y : ArrayT) : ArrayT := azip Rmult x y.
Definition smul (c : T) (x : ArrayT) : ArrayT := map (Rmult c) x.
Definition one_minus (x : ArrayT) : ArrayT := map (fun v => (1 - v)%R) x.
Definition constant (n : nat) (c : T) : ArrayT := repeat c n.

(** [(q != 1).select(2*(1 + p)/(1 - q) - 1, 0)] *)
Definition select_a (p q : ArrayT) : ArrayT :=
  azip (fun pv qv =>
          if Req_dec_T qv 1 then 0%R else (2 * (1 + pv) / (1 - qv) - 1)%R)
       p q.

(** Ghost events of one evaluation: the start of an outer iteration with
    the values the two recurrences hold there, and the assignment of a
    row. *)
Inductive eval_event : Type :=
| EvOuter (i : Z) (pow2ip1 : T) (pow1mqi : ArrayT)
| EvRow (off i j k : Z).

Record eval_mem : Type := mkEvalMem
  { ev_off : Z;
    ev_out : list ArrayT;
    ev_pow2ip1 : T;
    ev_pow1mqi : ArrayT;
    ev_trace : list eval_event }.

Section Basis.

(** The scalar polynomials behind the evaluators of [utils/ortho_poly.hpp]:
    [EvenLegendre n x] and [Jacobi a b n x] are parameters of the
    development. *)
Variable EvenLegendre : Z -> T -> T.
Variable Jacobi : Z -> Z -> Z -> T -> T.

(** Modelled from the spec: the class [EvenLegendreP] of
    [utils/ortho_poly.hpp], which is not among the sources; built on an
    array [x], it gives at [n] the polynomial [EvenLegendre_n] of the spec
    at every coefficient of [x]. *)
Definition EvenLegendreP (x : ArrayT) (n : Z) : ArrayT :=
  map (EvenLegendre n) x.

(** Modelled from the spec: the class [JacobiP] of [utils/ortho_poly.hpp],
    which is not among the sources; built on [(a, b, x)], it gives at [n]
    the polynomial [Jacobi_n^(a,b)] of the spec at every coefficient of
    [x]. *)
Definition JacobiP (a b : Z) (x : ArrayT) (n : Z) : ArrayT :=
  map (Jacobi a b n) x.

Definition note_outer (i : Z) : M eval_mem unit :=
  fun m =>
    Ok (tt, mkEvalMem (ev_off m) (ev_out m) (ev_pow2ip1 m) (ev_pow1mqi m)
              (ev_trace m ++ [EvOuter i (ev_pow2ip1 m) (ev_pow1mqi m)])).

(** The body of the innermost loop followed by its [++off]. *)
Definition emit_row (jpa jpb jpc : Z -> ArrayT) (i j k : Z)
  : M eval_mem unit :=
  fun m =>
    let cijk :=
      (ev_pow2ip1 m * sqrt (IZR ((2 * i + 1) * (2 * k + 1) * (i + j + 1))))%R
    in
    let row :=
      amul (amul (amul (smul cijk (ev_pow1mqi m)) (jpa i)) (jpb j)) (jpc k)
    in
    match store (ev_out m) (ev_off m) row with
    | Some out' =>
        Ok (tt, mkEvalMem (ev_off m + 1) out' (ev_pow2ip1 m) (ev_pow1mqi m)
                  (ev_trace m ++ [EvRow (ev_off m) i j k]))
    | None => OutOfRange
    end.

(** [pow1mqi *= (1 - b)*(1 - b); pow2ip1 /= 4;] *)
Definition step_powers (b : ArrayT) : M eval_mem unit :=
  fun m =>
    Ok (tt, mkEvalMem (ev_off m) (ev_out m)
              (ev_pow2ip1 m / 4)%R
              (amul (ev_pow1mqi m) (amul (one_minus b) (one_minus b)))
              (ev_trace m)).

Definition eval_orthob_block (qdeg : Z) (pqr : list Vector3T)
    (out : list ArrayT) : outcome (unit * eval_mem) :=
  let p := map v3_x pqr in
  let q := map v3_y pqr in
  let r := map v3_z pqr in
  let a := select_a p q in
  let b := q in
  let c := r in
  let jpa := EvenLegendreP a in
  for_leM 2 qdeg (fun i =>
    note_outer i ;;
    let jpb := JacobiP (2 * i + 1) 0 b in
    for_leM 1 (qdeg - i) (fun j =>
      let jpc := EvenLegendreP c in
      for_leM 2 (qdeg - i - j) (fun k => emit_row jpa jpb jpc i j k) 0) i ;;
    step_powers b) 0
    (mkEvalMem 0 out 0.5 (constant (length p) 1) []).

(** The value the spec gives to basis function [(i, j, k)] at a point. *)
Definition C_ijk (i j k : Z) : T :=
  (powerRZ 2 (- i - 1)
   * sqrt (IZR ((2 * i + 1) * (2 * k + 1) * (i + j + 1))))%R.

Definition remap_a (p q : T) : T :=
  if Req_dec_T q 1 then 0%R else (2 * (1 + p) / (1 - q) - 1)%R.

Definition basis_value (i j k : Z) (pt : Vector3T) : T :=
  (C_ijk i j k * powerRZ (1 - v3_y pt) i
   * EvenLegendre i (remap_a (v3_x pt) (v3_y pt))
   * Jacobi (2 * i + 1) 0 j (v3_y pt)
   * EvenLegendre k (v3_z pt))%R.

End Basis.

(** ** The spec's wording of the geometry and of the clamp domains *)

(** The conversion as the spec writes it: three arguments, the third one
    doubling as the axial coordinate. *)
Definition spec_cart (p q r : T) : Vector3T :=
  mkVector3T (- p + q - r)%R (- p - q + r)%R r.

(** The six arrangements of a triple. *)
Definition arrangements (a b c : T) : list (T * T * T) :=
  [(a, b, c); (a, c, b); (b, a, c); (b, c, a); (c, a, b); (c, b, a)].

(** Barycentric coordinates recovered from a Cartesian point. *)
Definition cart_to_bary (v : Vector3T) : list T :=
  [(- (v3_x v + v3_y v) / 2)%R; ((1 + v3_x v) / 2)%R; ((1 + v3_y v) / 2)%R].

(** [n] consecutive entries of a buffer from offset [off]. *)
Definition slice {A : Type} (off n : Z) (l : list A) : list A :=
  firstn (Z.to_nat n) (skipn (Z.to_nat off) l).

(** The domain of the parameters of each orbit (section 4.2 of the spec). *)
Definition orbit_domain (i : Z) (s : list T) : Prop :=
  match i, s with
  | 0, [] => True
  | 1, [b] => (0 <= b <= 1)%R
  | 2, [a] => (0 <= a <= 0.5)%R
  | 3, [a; b] => (0 <= a <= 0.5)%R /\ (0 <= b <= 1)%R
  | 4, [a; b] => (0 <= a <= 1)%R /\ (0 <= b <= 1 - a)%R
  | 5, [a; b; c] =>
      (0 <= a <= 1)%R /\ (0 <= b <= 1 - a)%R /\ (0 <= c <= 1)%R
  | _, _ => False
  end.

(** The offsets of a call lie inside the buffer it addresses. *)
Definition window_ok {A : Type} (off n : Z) (l : list A) : Prop :=
  0 <= off /\ off + n <= Z.of_nat (length l).

(** The buffer [l] with the entries from offset [off] on replaced by [vs]. *)
Definition overwrite {A : Type} (off : Z) (vs : list A) (l : list A) : list A :=
  firstn (Z.to_nat off) l ++ vs ++ skipn (Z.to_nat off + length vs) l.

(** The [n] consecutive indices from [off]. *)
Definition indices (off n : Z) : list Z :=
  map (fun k => off + Z.of_nat k) (seq 0 (Z.to_nat n)).

(** The points of each orbit (the table of section 4.1 of the spec), the
    axial coordinate being the fourth argument of the conversion. *)
Definition orbit_points (i : Z) (s : list T) : list Vector3T :=
  let tri (a z : T) :=
    [bary_to_cart a a (1 - 2 * a) z;
     bary_to_cart a (1 - 2 * a) a z;
     bary_to_cart (1 - 2 * a) a a z] in
  let gen (a b z : T) :=
    map (fun t : T * T * T =>
           let '(p1, p2, p3) := t in bary_to_cart p1 p2 p3 z)
        (arrangements a b (1 - a - b)) in
  match i, s with
  | 0, [] => [bary_to_cart (1 / 3) (1 / 3) (1 / 3) 0]
  | 1, [b] =>
      [bary_to_cart (1 / 3) (1 / 3) (1 / 3) (- b);
       bary_to_cart (1 / 3) (1 / 3) (1 / 3) b]
  | 2, [a] => tri a 0%R
  | 3, [a; b] => tri a (- b)%R ++ tri a b
  | 4, [a; b] => gen a b 0%R
  | 5, [a; b; c] => gen a b (- c)%R ++ gen a b c
  | _, _ => []
  end.

(** A computation that never reaches a "Bad orbit" branch. *)
Definition no_abort {St A : Type} (c : M St A) : Prop :=
  forall s, c s <> Abort.

(** What [clamp_arg], [sort_arg] and [seed_orbit] leave in the slice of the
    parameters they address, as functions of the slice. *)
Definition clamp_slice (clamp : T -> T -> T -> T) (i : Z) (s : list T)
  : list T :=
  match i, s with
  | 1, [b] => [clamp 0 b 1]%R
  | 2, [a] => [clamp 0 a 0.5]%R
  | 3, [a; b] => [clamp 0 a 0.5; clamp 0 b 1]%R
  | 4, [a; b] =>
      let a' := clamp 0%R a 1%R in [a'; clamp 0%R b (1 - a')%R]
  | 5, [a; b; c] =>
      let a' := clamp 0%R a 1%R in
      [a'; clamp 0%R b (1 - a')%R; clamp 0%R c 1%R]
  | _, _ => s
  end.

Definition sort_slice (i : Z) (s : list T) : list T :=
  match s with
  | a :: b :: rest =>
      if (i =? 4) || (i =? 5)
      then firstn 2 (std_sort [a; b; (1 - a - b)%R]) ++ rest
      else s
  | _ => s
  end.

Definition seed_slice {Rng : Type} (rand_between : T -> T -> Rng -> T * Rng)
    (rand_unit : Rng -> T * Rng) (i : Z) (g : Rng) : list T * Rng :=
  let seeda g := rand_between 0%R 0.5%R g in
  let seedb g := rand_between 0%R (1 / 3)%R g in
  let seedc g := let (x, g') := rand_unit g in (sqrt (1 - x ^ 2)%R, g') in
  match i with
  | 1 => let (v, g1) := seedc g in ([v], g1)
  | 2 => let (v, g1) := seeda g in ([v], g1)
  | 3 => let (v, g1) := seeda g in let (w, g2) := seedc g1 in ([v; w], g2)
  | 4 => let (v, g1) := seedb g in let (w, g2) := seedb g1 in ([v; w], g2)
  | 5 =>
      let (v, g1) := seedb g in
      let (w, g2) := seedb g1 in
      let (u, g3) := seedc g2 in ([v; w; u], g3)
  | _ => ([], g)
  end.

(** A loop body run over a list of counter values. *)
Fixpoint each {St : Type} (body : Z -> M St unit) (l : list Z) : M St unit :=
  match l with
  | [] => ret tt
  | i :: l' => body i ;; each body l'
  end.

(** The row assignments recorded in a trace: row index and index triple. *)
Fixpoint trace_rows (tr : list eval_event) : list (Z * (Z * Z * Z)) :=
  match tr with
  | [] => []
  | EvRow off i j k :: tr' => (off, (i, j, k)) :: trace_rows tr'
  | EvOuter _ _ _ :: tr' => trace_rows tr'
  end.

(** A list paired with the positions of its entries, counted from [n]. *)
Fixpoint number_from {A : Type} (n : Z) (l : list A) : list (Z * A) :=
  match l with
  | [] => []
  | x :: l' => (n, x) :: number_from (n + 1) l'
  end.

(** The closed forms of section 4.5 of the spec: the row of basis function
    [(i, j, k)] over a batch of points, and the two quantities the outer
    loop maintains by recurrence. *)
Definition basis_row (EvenLegendre : Z -> T -> T)
    (Jacobi : Z -> Z -> Z -> T -> T) (pqr : list Vector3T)
    (t : Z * Z * Z) : ArrayT :=
  let '(i, j, k) := t in map (basis_value EvenLegendre Jacobi i j k) pqr.

Definition pow2ip1_at (i : Z) : T := powerRZ 2 (- i - 1).

Definition pow1mqi_at (pqr : list Vector3T) (i : Z) : ArrayT :=
  map (fun pt => powerRZ (1 - v3_y pt) i) pqr.

Definition outer_ok (pqr : list Vector3T) (e : eval_event) : Prop :=
  match e with
  | EvOuter i x y => x = pow2ip1_at i /\ y = pow1mqi_at pqr i
  | EvRow _ _ _ _ => True
  end.

(** The state of [eval_orthob_block] once the triples [done] have been
    visited, inside or between outer iterations at counter [i]. *)
Definition eval_ok (EvenLegendre : Z -> T -> T)
    (Jacobi : Z -> Z -> Z -> T -> T) (pqr : list Vector3T)
    (out0 : list ArrayT) (done : list (Z * Z * Z)) (i : Z) (m : eval_mem)
  : Prop :=
  ev_off m = Z.of_nat (length done)
  /\ ev_out m = overwrite 0 (map (basis_row EvenLegendre Jacobi pqr) done) out0
  /\ ev_pow2ip1 m = pow2ip1_at i
  /\ ev_pow1mqi m = pow1mqi_at pqr i
  /\ trace_rows (ev_trace m) = number_from 0 done
  /\ Forall (outer_ok pqr) (ev_trace m).

(** The counters of the outer iterations recorded in a trace. *)
Fixpoint trace_outers (tr : list eval_event) : list Z :=
  match tr with
  | [] => []
  | EvOuter i _ _ :: tr' => i :: trace_outers tr'
  | EvRow _ _ _ _ :: tr' => trace_outers tr'
  end.

(** ** The geometry of the expanded points *)

(** The region every admissible point lies in: the triangle whose corners
    are the images of the barycentric triples [(1,0,0)], [(0,1,0)] and
    [(0,0,1)], times the axial range [[-1, 1]]. *)
Definition in_prism (v : Vector3T) : Prop :=
  (-1 <= v3_x v)%R /\ (-1 <= v3_y v)%R /\ (v3_x v + v3_y v <= 0)%R
  /\ (-1 <= v3_z v <= 1)%R.

(** The maps of Cartesian points induced by [z -> -z], by the exchange of
    the last two barycentric coordinates and by their cyclic shift. *)
Definition reflect_z (v : Vector3T) : Vector3T :=
  mkVector3T (v3_x v) (v3_y v) (- v3_z v)%R.

Definition swap_xy (v : Vector3T) : Vector3T :=
  mkVector3T (v3_y v) (v3_x v) (v3_z v).

Definition rotate (v : Vector3T) : Vector3T :=
  mkVector3T (v3_y v) (- 1 - v3_x v - v3_y v)%R (v3_z v).

(** The sum of one coordinate over a list of points. *)
Definition sum_of (f : Vector3T -> T) (l : list Vector3T) : T :=
  fold_right (fun v acc => (f v + acc)%R) 0%R l.

(** The parameters for which the points of an orbit are pairwise
    distinct. *)
Definition generic (i : Z) (s : list T) : Prop :=
  match i, s with
  | 0, [] => True
  | 1, [b] => b <> 0%R
  | 2, [a] => a <> (1 - 2 * a)%R
  | 3, [a; b] => a <> (1 - 2 * a)%R /\ b <> 0%R
  | 4, [a; b] => a <> b /\ a <> (1 - a - b)%R /\ b <> (1 - a - b)%R
  | 5, [a; b; c] =>
      a <> b /\ a <> (1 - a - b)%R /\ b <> (1 - a - b)%R /\ c <> 0%R
  | _, _ => False
  end.

(** What a successful run of a part of [eval_orthob_block] does to the row
    counter and to the shape of the output: [n] rows further, as many rows
    as before, and a counter that has not passed the last row. *)
Definition advances (n : nat) (m m' : eval_mem) : Prop :=
  ev_off m' = ev_off m + Z.of_nat n
  /\ length (ev_out m') = length (ev_out m)
  /\ (ev_off m <= Z.of_nat (length (ev_out m)) ->
      ev_off m' <= Z.of_nat (length (ev_out m'))).

(** A point moved to the axial coordinate [z]. *)
Definition at_level (z : T) (v : Vector3T) : Vector3T :=
  mkVector3T (v3_x v) (v3_y v) z.

(** The order in which the loop nest visits the index triples: by [i],
    then by [j], then by [k]. *)
Definition visits_before (t t' : Z * Z * Z) : Prop :=
  let '(i, j, k) := t in
  let '(i', j', k') := t' in
  i < i' \/ (i = i' /\ (j < j' \/ (j = j' /\ k < k'))).

(** * Properties *)

(** ** Buffers *)

Lemma overwrite_nil {A : Type} (off : Z) (l : list A) :
  overwrite off [] l = l.
Proof.
  unfold overwrite. cbn. rewrite Nat.add_0_r. apply firstn_skipn.
Qed.

Lemma update_app {A : Type} (pre : list A) (x v : A) (post : list A) :
  update (pre ++ x :: post) (length pre) v = pre ++ v :: post.
Proof.
  induction pre as [|y pre IH]; cbn; [reflexivity|]. now rewrite IH.
Qed.

Lemma skipn_cons_nth {A : Type} (l : list A) (n : nat) :
  (n < length l)%nat ->
  exists x, skipn n l = x :: skipn (S n) l.
Proof.
  revert n. induction l as [|y l IH]; intros n Hn; cbn in Hn; [lia|].
  destruct n as [|n]; [now exists y|].
  destruct (IH n) as [x Hx]; [lia|]. exists x. exact Hx.
Qed.

Lemma in_bounds_true {A : Type} (l : list A) (k : Z) :
  0 <= k < Z.of_nat (length l) -> in_bounds l k = true.
Proof.
  intros H. unfold in_bounds.
  apply andb_true_intro. split; [apply Z.leb_le | apply Z.ltb_lt]; lia.
Qed.

Lemma in_bounds_false {A : Type} (l : list A) (k : Z) :
  k < 0 \/ Z.of_nat (length l) <= k -> in_bounds l k = false.
Proof.
  intros H. unfold in_bounds. apply andb_false_iff.
  destruct H; [left; apply Z.leb_gt | right; apply Z.ltb_ge]; lia.
Qed.

Lemma store_overwrite {A : Type} (l : list A) (off : Z) (vs : list A)
    (v : A) (k : Z) :
  0 <= off ->
  k = off + Z.of_nat (length vs) ->
  k < Z.of_nat (length l) ->
  store (overwrite off vs l) k v = Some (overwrite off (vs ++ [v]) l).
Proof.
  intros Hoff Hk Hlt. unfold store, overwrite.
  assert (Hn : (Z.to_nat off + length vs < length l)%nat) by lia.
  destruct (skipn_cons_nth l _ Hn) as [x Hx].
  assert (Hf : length (firstn (Z.to_nat off) l) = Z.to_nat off).
  { apply firstn_length_le. lia. }
  rewrite in_bounds_true.
  2:{ rewrite !length_app, Hf, Hx. cbn [length]. lia. }
  f_equal. rewrite Hx.
  replace (Z.to_nat k) with (length (firstn (Z.to_nat off) l ++ vs)).
  2:{ rewrite length_app, Hf. lia. }
  rewrite app_assoc, update_app, <- !app_assoc.
  rewrite length_app. cbn [length app].
  now replace (Z.to_nat off + (length vs + 1))%nat
    with (S (Z.to_nat off + length vs)) by lia.
Qed.

Lemma overwrite_length {A : Type} (l : list A) (off : Z) (vs : list A) :
  0 <= off ->
  off + Z.of_nat (length vs) <= Z.of_nat (length l) ->
  length (overwrite off vs l) = length l.
Proof.
  intros H0 H1. unfold overwrite.
  rewrite !length_app, firstn_length_le, length_skipn by lia. lia.
Qed.

Lemma nth_error_slice {A : Type} (l : list A) (off n : Z) (j : nat) (x : A) :
  nth_error (slice off n l) j = Some x ->
  nth_error l (Z.to_nat off + j) = Some x.
Proof.
  unfold slice. intros H.
  rewrite <- nth_error_skipn.
  revert j H. generalize (skipn (Z.to_nat off) l) as r.
  generalize (Z.to_nat n) as c.
  induction c as [|c IH]; intros r j H.
  - destruct j; discriminate H.
  - destruct r as [|y r]; [destruct j; discriminate H|].
    destruct j as [|j]; cbn in *; auto.
Qed.

Lemma load_slice {A : Type} (l : list A) (off n k : Z) (j : nat) (x : A) :
  0 <= off ->
  nth_error (slice off n l) j = Some x ->
  k = off + Z.of_nat j ->
  load l k = Some x.
Proof.
  intros Hoff H ->. apply nth_error_slice in H.
  assert (Hlt : (Z.to_nat off + j < length l)%nat).
  { apply nth_error_Some. rewrite H. discriminate. }
  unfold load. rewrite in_bounds_true by lia.
  now replace (Z.to_nat (off + Z.of_nat j)) with (Z.to_nat off + j)%nat by lia.
Qed.

Lemma slice_length {A : Type} (l : list A) (off n : Z) :
  0 <= n -> window_ok off n l ->
  length (slice off n l) = Z.to_nat n.
Proof.
  intros Hn [H0 H1]. unfold slice.
  rewrite firstn_length_le; [reflexivity|]. rewrite length_skipn. lia.
Qed.

(** ** expand_orbit, step by step *)

Lemma args_at_run (args : VectorXT) (pts : MatrixPtsT) (rs ws : list Z)
    (k : Z) (x : T) :
  load args k = Some x ->
  args_at k (mkExpandMem args pts rs ws)
  = Ok (x, mkExpandMem args pts (rs ++ [k]) ws).
Proof. intros H. unfold args_at. cbn. now rewrite H. Qed.

Lemma pts_row_set_run (args : VectorXT) (pts : MatrixPtsT) (rs ws : list Z)
    (poff : Z) (vs : list Vector3T) (k : Z) (v : Vector3T) :
  0 <= poff ->
  k = poff + Z.of_nat (length vs) ->
  k < Z.of_nat (length pts) ->
  pts_row_set k v (mkExpandMem args (overwrite poff vs pts) rs ws)
  = Ok (tt, mkExpandMem args (overwrite poff (vs ++ [v]) pts) rs (ws ++ [k])).
Proof.
  intros H0 Hk Hlt. unfold pts_row_set. cbn.
  now rewrite (store_overwrite pts poff vs v k H0 Hk Hlt).
Qed.

Ltac explode_slice H :=
  repeat match type of H with
         | length ?s = _ =>
             destruct s; cbn in H; try discriminate H;
             try (apply Nat.succ_inj in H)
         end.

Ltac slice_entry Hs Ha0 :=
  first
    [ eapply (load_slice _ _ _ _ 0%nat);
      [exact Ha0 | rewrite <- Hs; reflexivity | lia]
    | eapply (load_slice _ _ _ _ 1%nat);
      [exact Ha0 | rewrite <- Hs; reflexivity | lia]
    | eapply (load_slice _ _ _ _ 2%nat);
      [exact Ha0 | rewrite <- Hs; reflexivity | lia] ].

Ltac expand_step Hs Ha0 :=
  first
    [ erewrite args_at_run by slice_entry Hs Ha0
    | rewrite pts_row_set_run by (cbn [length app]; lia) ];
  cbv beta iota.

Lemma expand_orbit_run (i aoff poff : Z) (m : expand_mem) :
  0 <= i <= 5 ->
  window_ok aoff (table_at narg_for_orbit i) (em_args m) ->
  window_ok poff (table_at npts_for_orbit i) (em_pts m) ->
  expand_orbit i aoff poff m
  = Ok (tt, mkExpandMem
              (em_args m)
              (overwrite poff
                 (orbit_points i
                    (slice aoff (table_at narg_for_orbit i) (em_args m)))
                 (em_pts m))
              (em_reads m ++ indices aoff (table_at narg_for_orbit i))
              (em_writes m ++ indices poff (table_at npts_for_orbit i))).
Proof.
  intros Hi Ha Hp. destruct m as [args pts rs ws]. cbn [em_args em_pts em_reads em_writes] in *.
  set (na := table_at narg_for_orbit i) in *.
  set (np := table_at npts_for_orbit i) in *.
  assert (Hlen := slice_length args aoff na).
  assert (Hcases : i = 0 \/ i = 1 \/ i = 2 \/ i = 3 \/ i = 4 \/ i = 5) by lia.
  destruct Hcases as [-> | [-> | [-> | [-> | [-> | ->]]]]];
    vm_compute in na, np; subst na np.
  all: specialize (Hlen ltac:(lia) Ha).
  all: destruct Ha as [Ha0 Ha1], Hp as [Hp0 Hp1].
  all: remember (slice aoff _ args) as s eqn:Hs.
  all: explode_slice Hlen.
  all: rewrite <- (overwrite_nil poff pts) at 1.
  all: unfold expand_orbit.
  all: repeat (unfold bind at 1; cbv beta; expand_step Hs Ha0).
  all: try expand_step Hs Ha0.
  all: rewrite <- ?app_assoc.
  all: cbv [indices Z.to_nat Pos.to_nat Pos.iter_op Nat.add seq map Z.of_nat
            Pos.of_succ_nat Pos.succ orbit_points arrangements].
  all: cbn [app].
  all: rewrite ?Z.add_0_r, ?app_nil_r; reflexivity.
Qed.

Lemma load_overwrite_other {A : Type} (l : list A) (off : Z) (vs : list A)
    (k : Z) :
  0 <= off ->
  off + Z.of_nat (length vs) <= Z.of_nat (length l) ->
  k < off \/ off + Z.of_nat (length vs) <= k ->
  load (overwrite off vs l) k = load l k.
Proof.
  intros H0 H1 Hk. unfold load.
  destruct (Z_lt_dec k 0) as [Hneg|Hpos].
  { now rewrite !in_bounds_false by lia. }
  destruct (Z_le_dec (Z.of_nat (length l)) k) as [Hbig|Hsmall].
  { rewrite !in_bounds_false; auto.
    right. rewrite overwrite_length by assumption. exact Hbig. }
  rewrite !in_bounds_true by (rewrite ?overwrite_length by assumption; lia).
  unfold overwrite.
  assert (Hf : length (firstn (Z.to_nat off) l) = Z.to_nat off)
    by (apply firstn_length_le; lia).
  destruct Hk as [Hk|Hk].
  - rewrite nth_error_app1 by lia.
    rewrite nth_error_firstn.
    destruct (Nat.ltb_spec (Z.to_nat k) (Z.to_nat off)); [reflexivity | lia].
  - rewrite nth_error_app2 by lia.
    rewrite nth_error_app2 by lia.
    rewrite nth_error_skipn. f_equal. lia.
Qed.

Lemma slice_overwrite {A : Type} (l : list A) (off n : Z) (vs : list A) :
  0 <= off ->
  off <= Z.of_nat (length l) ->
  n = Z.of_nat (length vs) ->
  slice off n (overwrite off vs l) = vs.
Proof.
  intros H0 Hle ->. unfold slice, overwrite.
  rewrite skipn_app, firstn_length_le by lia.
  rewrite Nat.sub_diag, skipn_all2 by (rewrite firstn_length_le; lia).
  cbn [skipn app]. rewrite Nat2Z.id, firstn_app, Nat.sub_diag.
  cbn [firstn]. rewrite app_nil_r. apply firstn_all.
Qed.

(** ** Unknown orbit ids *)

Lemma no_abort_bind {St A B : Type} (c : M St A) (k : A -> M St B) :
  no_abort c -> (forall a, no_abort (k a)) -> no_abort (bind c k).
Proof.
  intros Hc Hk s. unfold bind.
  destruct (c s) as [[a s']| |] eqn:E.
  - apply Hk.
  - now apply Hc in E.
  - discriminate.
Qed.

Lemma no_abort_ret {St A : Type} (a : A) : no_abort (@ret St A a).
Proof. intros s. discriminate. Qed.

Lemma no_abort_args_at (k : Z) : no_abort (args_at k).
Proof. intros m. unfold args_at. destruct (load _ _); discriminate. Qed.

Lemma no_abort_pts_row_set (k : Z) (v : Vector3T) :
  no_abort (pts_row_set k v).
Proof. intros m. unfold pts_row_set. destruct (store _ _ _); discriminate. Qed.

Lemma no_abort_arg_get (k : Z) : no_abort (arg_get k).
Proof. intros m. unfold arg_get. destruct (load _ _); discriminate. Qed.

Lemma no_abort_arg_put (k : Z) (v : T) : no_abort (arg_put k v).
Proof. intros m. unfold arg_put. destruct (store _ _ _); discriminate. Qed.

Lemma no_abort_draw {Rng : Type} (f : Rng -> T * Rng) :
  no_abort (draw Rng f).
Proof. intros m. unfold draw. destruct (f _). discriminate. Qed.

Lemma no_abort_seed_put {Rng : Type} (k : Z) (v : T) :
  no_abort (seed_put Rng k v).
Proof. intros m. unfold seed_put. destruct (store _ _ _); discriminate. Qed.

Ltac no_abort_tac :=
  repeat first
    [ apply no_abort_ret
    | apply no_abort_args_at
    | apply no_abort_pts_row_set
    | apply no_abort_arg_get
    | apply no_abort_arg_put
    | apply no_abort_draw
    | apply no_abort_seed_put
    | apply no_abort_bind; [|intro] ].

Ltac orbit_cases i H :=
  let C := fresh "C" in
  assert (C : i = 0 \/ i = 1 \/ i = 2 \/ i = 3 \/ i = 4 \/ i = 5) by lia;
  destruct C as [-> | [-> | [-> | [-> | [-> | ->]]]]].

Ltac outside_cases i H :=
  destruct i as [|p|p]; [lia | | reflexivity];
  do 3 (destruct p as [p|p|]; try reflexivity; try lia).

Lemma expand_orbit_outside (i aoff poff : Z) (m : expand_mem) :
  i < 0 \/ 5 < i -> expand_orbit i aoff poff m = Abort.
Proof. intros H. outside_cases i H. Qed.

Lemma expand_orbit_inside (i aoff poff : Z) :
  0 <= i <= 5 -> no_abort (expand_orbit i aoff poff).
Proof.
  intros H. orbit_cases i H; unfold expand_orbit; no_abort_tac.
Qed.

Lemma clamp_arg_outside (clamp : T -> T -> T -> T) (i aoff : Z)
    (args : VectorXT) :
  i < 0 \/ 5 < i -> clamp_arg clamp i aoff args = Abort.
Proof. intros H. outside_cases i H. Qed.

Lemma clamp_arg_inside (clamp : T -> T -> T -> T) (i aoff : Z) :
  0 <= i <= 5 -> no_abort (clamp_arg clamp i aoff).
Proof.
  intros H. orbit_cases i H; unfold clamp_arg; no_abort_tac.
Qed.

Lemma seed_orbit_outside {Rng : Type} (rb : T -> T -> Rng -> T * Rng)
    (ru : Rng -> T * Rng) (i aoff : Z) (m : seed_mem Rng) :
  i < 0 \/ 5 < i -> seed_orbit rb ru i aoff m = Abort.
Proof. intros H. outside_cases i H. Qed.

Lemma seed_orbit_inside {Rng : Type} (rb : T -> T -> Rng -> T * Rng)
    (ru : Rng -> T * Rng) (i aoff : Z) :
  0 <= i <= 5 -> no_abort (seed_orbit rb ru i aoff).
Proof.
  intros H. orbit_cases i H; unfold seed_orbit, seeda, seedb, seedc;
    no_abort_tac.
Qed.

(** ** clamp_arg, sort_arg and seed_orbit as functions of the slice *)

Lemma window_split {A : Type} (l : list A) (off n : Z) :
  0 <= n -> window_ok off n l ->
  exists pre post,
    l = pre ++ slice off n l ++ post /\
    Z.of_nat (length pre) = off /\
    length (slice off n l) = Z.to_nat n.
Proof.
  intros Hn Hw. exists (firstn (Z.to_nat off) l).
  exists (skipn (Z.to_nat n) (skipn (Z.to_nat off) l)).
  destruct Hw as [H0 H1]. repeat split.
  - unfold slice. now rewrite !firstn_skipn.
  - rewrite firstn_length_le; lia.
  - apply slice_length; [exact Hn | now split].
Qed.

Lemma overwrite_app {A : Type} (pre mid mid' post : list A) (off : Z) :
  Z.of_nat (length pre) = off ->
  length mid' = length mid ->
  overwrite off mid' (pre ++ mid ++ post) = pre ++ mid' ++ post.
Proof.
  intros <- Hlen. unfold overwrite. rewrite Nat2Z.id.
  rewrite firstn_app, Nat.sub_diag, firstn_all. cbn [firstn].
  rewrite app_nil_r. f_equal. f_equal.
  rewrite skipn_app, skipn_all2 by lia. cbn [app].
  replace (length pre + length mid' - length pre)%nat with (length mid) by lia.
  rewrite skipn_app, skipn_all, Nat.sub_diag. reflexivity.
Qed.

Lemma load_app {A : Type} (pre l : list A) (k : Z) (j : nat) :
  k = Z.of_nat (length pre) + Z.of_nat j ->
  load (pre ++ l) k = nth_error l j.
Proof.
  intros ->. unfold load.
  destruct (Nat.lt_ge_cases j (length l)) as [Hlt|Hge].
  - rewrite in_bounds_true by (rewrite length_app; lia).
    rewrite nth_error_app2 by lia. f_equal. lia.
  - rewrite in_bounds_false by (rewrite length_app; lia).
    symmetry. now apply nth_error_None.
Qed.

Lemma store_app {A : Type} (pre l : list A) (k : Z) (j : nat) (v : A) :
  k = Z.of_nat (length pre) + Z.of_nat j ->
  (j < length l)%nat ->
  store (pre ++ l) k v = Some (pre ++ update l j v).
Proof.
  intros -> Hlt. unfold store.
  rewrite in_bounds_true by (rewrite length_app; lia).
  f_equal.
  replace (Z.to_nat (Z.of_nat (length pre) + Z.of_nat j))
    with (length pre + j)%nat by lia.
  clear Hlt. induction pre as [|y pre IH]; cbn; [reflexivity|].
  now rewrite IH.
Qed.

Lemma arg_get_run (pre l : list T) (k : Z) (j : nat) (x : T) :
  k = Z.of_nat (length pre) + Z.of_nat j ->
  nth_error l j = Some x ->
  arg_get k (pre ++ l) = Ok (x, pre ++ l).
Proof.
  intros Hk Hx. unfold arg_get. now rewrite (load_app pre l k j Hk), Hx.
Qed.

Lemma arg_put_run (pre l : list T) (k : Z) (j : nat) (v : T) :
  k = Z.of_nat (length pre) + Z.of_nat j ->
  (j < length l)%nat ->
  arg_put k v (pre ++ l) = Ok (tt, pre ++ update l j v).
Proof.
  intros Hk Hlt. unfold arg_put. now rewrite (store_app pre l k j v Hk Hlt).
Qed.

Ltac slot_side := first [ lia | reflexivity | cbn [length]; lia ].

Ltac arg_step :=
  first
    [ erewrite (arg_get_run _ _ _ 0%nat) by slot_side
    | erewrite (arg_get_run _ _ _ 1%nat) by slot_side
    | erewrite (arg_get_run _ _ _ 2%nat) by slot_side
    | erewrite (arg_put_run _ _ _ 0%nat) by slot_side
    | erewrite (arg_put_run _ _ _ 1%nat) by slot_side
    | erewrite (arg_put_run _ _ _ 2%nat) by slot_side ];
  cbv beta iota; cbn [update].

Lemma clamp_arg_run (clamp : T -> T -> T -> T) (i aoff : Z)
    (args : VectorXT) :
  0 <= i <= 5 ->
  window_ok aoff (table_at narg_for_orbit i) args ->
  clamp_arg clamp i aoff args
  = Ok (tt, overwrite aoff
              (clamp_slice clamp i
                 (slice aoff (table_at narg_for_orbit i) args))
              args).
Proof.
  intros Hi Hw.
  set (na := table_at narg_for_orbit i) in *.
  assert (Hna : 0 <= na) by (orbit_cases i Hi; vm_compute; discriminate).
  destruct (window_split args aoff na Hna Hw) as (pre & post & Hargs & Hpre & Hlen).
  remember (slice aoff na args) as s eqn:Hs.
  rewrite Hargs. clear Hargs Hs Hw.
  orbit_cases i Hi; vm_compute in na; subst na; explode_slice Hlen.
  all: rewrite overwrite_app with (mid' := clamp_slice _ _ _)
         by (exact Hpre || reflexivity).
  all: unfold clamp_arg, clamp_slice; cbn [app].
  all: repeat (unfold bind at 1; cbv beta; arg_step).
  all: try arg_step.
  all: reflexivity.
Qed.

Lemma sort_insert_length (x : T) (l : list T) :
  length (sort_insert x l) = S (length l).
Proof.
  induction l as [|y l IH]; cbn; [reflexivity|].
  destruct (Rlt_dec y x); cbn; [now rewrite IH | reflexivity].
Qed.

Lemma std_sort_length (l : list T) : length (std_sort l) = length l.
Proof.
  induction l as [|x l IH]; [reflexivity|].
  change (std_sort (x :: l)) with (sort_insert x (std_sort l)).
  rewrite sort_insert_length, IH. reflexivity.
Qed.

Lemma sort_slice_length (i : Z) (s : list T) :
  length (sort_slice i s) = length s.
Proof.
  unfold sort_slice. destruct s as [|a [|b rest]]; try reflexivity.
  destruct ((i =? 4) || (i =? 5)); [|reflexivity].
  assert (H := std_sort_length [a; b; (1 - a - b)%R]).
  destruct (std_sort _) as [|x [|y [|z l]]]; try discriminate H.
  reflexivity.
Qed.

Lemma sort_arg_other (i aoff : Z) (args : VectorXT) :
  i <> 4 -> i <> 5 -> sort_arg i aoff args = Ok (tt, args).
Proof.
  intros H4 H5. unfold sort_arg.
  apply Z.eqb_neq in H4, H5. now rewrite H4, H5.
Qed.

Lemma sort_arg_run (i aoff : Z) (args : VectorXT) :
  i = 4 \/ i = 5 ->
  window_ok aoff (table_at narg_for_orbit i) args ->
  sort_arg i aoff args
  = Ok (tt, overwrite aoff
              (sort_slice i (slice aoff (table_at narg_for_orbit i) args))
              args).
Proof.
  intros Hi Hw.
  set (na := table_at narg_for_orbit i) in *.
  assert (Hna : 0 <= na) by (destruct Hi as [-> | ->]; vm_compute; discriminate).
  destruct (window_split args aoff na Hna Hw)
    as (pre & post & Hargs & Hpre & Hlen).
  remember (slice aoff na args) as s eqn:Hs.
  rewrite Hargs. clear Hargs Hs Hw.
  destruct Hi as [-> | ->]; vm_compute in na; subst na; explode_slice Hlen.
  all: rewrite overwrite_app by (exact Hpre || apply sort_slice_length).
  all: unfold sort_arg, sort_slice; cbn [Z.eqb Pos.eqb orb].
  all: cbn [app]; do 4 (unfold bind at 1; cbv beta; arg_step); cbv zeta.
  all: match goal with
       | |- context [std_sort ?l] =>
           let H := fresh "H" in
           assert (H := std_sort_length l);
           remember (std_sort l) as srt eqn:Hsrt;
           cbn [length] in H; clear Hsrt; explode_slice H
       end.
  all: cbn [firstn app std_copy].
  all: repeat (unfold bind at 1; cbv beta; arg_step).
  all: reflexivity.
Qed.

Lemma seed_put_run {Rng : Type} (pre l : list T) (g : Rng) (k : Z) (j : nat)
    (v : T) :
  k = Z.of_nat (length pre) + Z.of_nat j ->
  (j < length l)%nat ->
  seed_put Rng k v (mkSeedMem (pre ++ l) g)
  = Ok (tt, mkSeedMem (pre ++ update l j v) g).
Proof.
  intros Hk Hlt. unfold seed_put. cbn [sm_args sm_rng].
  now rewrite (store_app pre l k j v Hk Hlt).
Qed.

Ltac seed_step :=
  first
    [ erewrite (seed_put_run _ _ _ _ 0%nat) by slot_side
    | erewrite (seed_put_run _ _ _ _ 1%nat) by slot_side
    | erewrite (seed_put_run _ _ _ _ 2%nat) by slot_side ];
  cbv beta iota; cbn [update].

Lemma seed_orbit_run {Rng : Type} (rb : T -> T -> Rng -> T * Rng)
    (ru : Rng -> T * Rng) (i aoff : Z) (args : VectorXT) (g : Rng) :
  0 <= i <= 5 ->
  window_ok aoff (table_at narg_for_orbit i) args ->
  seed_orbit rb ru i aoff (mkSeedMem args g)
  = Ok (tt, mkSeedMem (overwrite aoff (fst (seed_slice rb ru i g)) args)
              (snd (seed_slice rb ru i g))).
Proof.
  intros Hi Hw.
  set (na := table_at narg_for_orbit i) in *.
  assert (Hna : 0 <= na) by (orbit_cases i Hi; vm_compute; discriminate).
  destruct (window_split args aoff na Hna Hw)
    as (pre & post & Hargs & Hpre & Hlen).
  remember (slice aoff na args) as s eqn:Hs.
  rewrite Hargs. clear Hargs Hs Hw.
  orbit_cases i Hi; vm_compute in na; subst na; explode_slice Hlen.
  all: unfold seed_orbit, seed_slice, seeda, seedb, seedc.
  all: rewrite overwrite_app with (mid' := fst _)
         by (exact Hpre
             || (repeat match goal with
                   | |- context [match ?e with pair _ _ => _ end] => destruct e
                   end; reflexivity)).
  all: unfold bind, draw, ret; cbn [app].
  all: repeat first
         [ progress cbn [sm_args sm_rng fst snd]
         | seed_step
         | match goal with
           | |- context [match ?e with pair _ _ => _ end] => destruct e
           end ].
  all: reflexivity.
Qed.

(** ** The clamp domains *)

Lemma clamp_ref_range (l v h : T) :
  (l <= h)%R -> (l <= clamp_ref l v h <= h)%R.
Proof.
  intros H. unfold clamp_ref.
  destruct (Rlt_dec v l); [lra|]. destruct (Rgt_dec v h); lra.
Qed.

Lemma clamp_ref_fix (l v h : T) :
  (l <= v <= h)%R -> clamp_ref l v h = v.
Proof.
  intros H. unfold clamp_ref.
  destruct (Rlt_dec v l); [lra|]. destruct (Rgt_dec v h); [lra|reflexivity].
Qed.

Section ClampFacts.

Variable clamp : T -> T -> T -> T.
Hypothesis clamp_range :
  forall l v h : T, (l <= h)%R -> (l <= clamp l v h <= h)%R.
Hypothesis clamp_fix :
  forall l v h : T, (l <= v <= h)%R -> clamp l v h = v.

Lemma clamp_slice_length (i : Z) (s : list T) :
  length (clamp_slice clamp i s) = length s.
Proof.
  unfold clamp_slice.
  destruct i as [|p|p]; try reflexivity.
  do 3 (try match goal with q : positive |- _ => destruct q end;
        try reflexivity).
  all: destruct s as [|a [|b [|c [|d s]]]]; reflexivity.
Qed.

Lemma clamp_slice_domain (i : Z) (s : list T) :
  0 <= i <= 5 ->
  length s = Z.to_nat (table_at narg_for_orbit i) ->
  orbit_domain i (clamp_slice clamp i s).
Proof.
  intros Hi Hlen.
  set (n := Z.to_nat (table_at narg_for_orbit i)) in Hlen.
  orbit_cases i Hi; vm_compute in n; subst n; explode_slice Hlen.
  all: unfold clamp_slice, orbit_domain; cbv zeta.
  - exact I.
  - apply clamp_range; lra.
  - apply clamp_range; lra.
  - split; apply clamp_range; lra.
  - assert (Ha := clamp_range 0 t 1 ltac:(lra)).
    split; [exact Ha | apply clamp_range; lra].
  - assert (Ha := clamp_range 0 t 1 ltac:(lra)).
    repeat split; try apply clamp_range; lra.
Qed.

Lemma clamp_slice_fix (i : Z) (s : list T) :
  orbit_domain i s -> clamp_slice clamp i s = s.
Proof.
  unfold orbit_domain, clamp_slice.
  destruct i as [|p|p]; try reflexivity.
  do 3 (try match goal with q : positive |- _ => destruct q end;
        try reflexivity).
  all: destruct s as [|a [|b [|c [|d s]]]]; try reflexivity; try tauto.
  all: intros H; cbv zeta; rewrite ?clamp_fix; try reflexivity; try tauto.
  all: rewrite ?clamp_fix; tauto.
Qed.

Lemma clamp_slice_idem (i : Z) (s : list T) :
  0 <= i <= 5 ->
  length s = Z.to_nat (table_at narg_for_orbit i) ->
  clamp_slice clamp i (clamp_slice clamp i s) = clamp_slice clamp i s.
Proof.
  intros Hi Hlen. apply clamp_slice_fix. now apply clamp_slice_domain.
Qed.

End ClampFacts.

Lemma overwrite_slice {A : Type} (l : list A) (off n : Z) :
  0 <= n -> window_ok off n l -> overwrite off (slice off n l) l = l.
Proof.
  intros Hn Hw.
  destruct (window_split l off n Hn Hw) as (pre & post & Hl & Hpre & Hlen).
  rewrite Hl at 2 3. now apply overwrite_app.
Qed.

Lemma overwrite_overwrite {A : Type} (l : list A) (off : Z) (vs ws : list A) :
  window_ok off (Z.of_nat (length vs)) l ->
  length ws = length vs ->
  overwrite off ws (overwrite off vs l) = overwrite off ws l.
Proof.
  intros Hw Hlen.
  destruct (window_split l off (Z.of_nat (length vs)) ltac:(lia) Hw)
    as (pre & post & Hl & Hpre & Hs).
  rewrite Hl.
  rewrite (overwrite_app pre _ vs post off Hpre) by lia.
  rewrite (overwrite_app pre vs ws post off Hpre Hlen).
  rewrite (overwrite_app pre _ ws post off Hpre) by lia.
  reflexivity.
Qed.

Lemma narg_nonneg (i : Z) : 0 <= i <= 5 -> 0 <= table_at narg_for_orbit i.
Proof. intros Hi. orbit_cases i Hi; vm_compute; discriminate. Qed.

Lemma npts_nonneg (i : Z) : 0 <= i <= 5 -> 0 <= table_at npts_for_orbit i.
Proof. intros Hi. orbit_cases i Hi; vm_compute; discriminate. Qed.

Section ClampArg.

Variable clamp : T -> T -> T -> T.
Hypothesis clamp_range :
  forall l v h : T, (l <= h)%R -> (l <= clamp l v h <= h)%R.
Hypothesis clamp_fix :
  forall l v h : T, (l <= v <= h)%R -> clamp l v h = v.

(** C5.  For an orbit id in [0,5] and any real parameters, [clamp_arg]
    returns, leaves the slice of the orbit inside the domain of that orbit
    (for orbits 4 and 5 the bound on [b] is [1 - a] for the clamped [a]),
    changes nothing when the slice is already inside (orbit 0 never
    changes anything), and touches no entry outside the slice. *)
Theorem clamp_arg_into_domain (i aoff : Z) (args : VectorXT) :
  0 <= i <= 5 ->
  window_ok aoff (table_at narg_for_orbit i) args ->
  exists args',
    clamp_arg clamp i aoff args = Ok (tt, args')
    /\ orbit_domain i (slice aoff (table_at narg_for_orbit i) args')
    /\ (orbit_domain i (slice aoff (table_at narg_for_orbit i) args) ->
        args' = args)
    /\ (i = 0 -> args' = args)
    /\ length args' = length args
    /\ (forall k,
          k < aoff \/ aoff + table_at narg_for_orbit i <= k ->
          load args' k = load args k).
Proof.
  intros Hi Hw.
  assert (Hn := narg_nonneg i Hi).
  assert (Hlen := slice_length args aoff _ Hn Hw).
  assert (Hcl := clamp_slice_length clamp i
                   (slice aoff (table_at narg_for_orbit i) args)).
  eexists. split; [apply clamp_arg_run; assumption|].
  destruct Hw as [H0 H1].
  repeat split.
  - rewrite slice_overwrite by lia.
    now apply clamp_slice_domain.
  - intros Hd. rewrite clamp_slice_fix by assumption.
    apply overwrite_slice; [assumption | now split].
  - intros ->. apply (overwrite_slice args aoff 0); [lia | now split].
  - apply overwrite_length; lia.
  - intros k Hk. apply load_overwrite_other; lia.
Qed.

(** C6.  [clamp_arg] is idempotent: for an orbit id in [0,5] and any real
    parameters, a second application returns the vector the first one
    produced. *)
Theorem clamp_arg_idempotent (i aoff : Z) (args : VectorXT) :
  0 <= i <= 5 ->
  window_ok aoff (table_at narg_for_orbit i) args ->
  exists args',
    clamp_arg clamp i aoff args = Ok (tt, args')
    /\ clamp_arg clamp i aoff args' = Ok (tt, args').
Proof.
  intros Hi Hw.
  assert (Hn := narg_nonneg i Hi).
  assert (Hlen := slice_length args aoff _ Hn Hw).
  assert (Hcl := clamp_slice_length clamp i
                   (slice aoff (table_at narg_for_orbit i) args)).
  eexists. split; [apply clamp_arg_run; assumption|].
  destruct Hw as [H0 H1].
  rewrite clamp_arg_run; [|assumption|].
  2:{ split; [exact H0 | rewrite overwrite_length; lia]. }
  rewrite slice_overwrite by lia.
  rewrite (clamp_slice_idem clamp clamp_range clamp_fix) by assumption.
  rewrite overwrite_overwrite; [reflexivity | split; lia | reflexivity].
Qed.

End ClampArg.

Lemma clamp_arg_into_domain_witness :
  exists args',
    clamp_arg clamp_ref 4 1 [7; 2; 3; 9]%R = Ok (tt, args')
    /\ orbit_domain 4 (slice 1 (table_at narg_for_orbit 4) args')
    /\ (orbit_domain 4 (slice 1 (table_at narg_for_orbit 4) [7; 2; 3; 9]%R) ->
        args' = [7; 2; 3; 9]%R)
    /\ (4 = 0 -> args' = [7; 2; 3; 9]%R)
    /\ length args' = length [7; 2; 3; 9]%R
    /\ (forall k,
          k < 1 \/ 1 + table_at narg_for_orbit 4 <= k ->
          load args' k = load [7; 2; 3; 9]%R k).
Proof.
  apply (clamp_arg_into_domain clamp_ref clamp_ref_range clamp_ref_fix
           4 1 [7; 2; 3; 9]%R).
  - lia.
  - split; vm_compute; discriminate.
Defined.

Lemma clamp_arg_idempotent_witness :
  exists args',
    clamp_arg clamp_ref 5 0 [2; 3; -1]%R = Ok (tt, args')
    /\ clamp_arg clamp_ref 5 0 args' = Ok (tt, args').
Proof.
  apply (clamp_arg_idempotent clamp_ref clamp_ref_range clamp_ref_fix
           5 0 [2; 3; -1]%R).
  - lia.
  - split; vm_compute; discriminate.
Defined.

(** ** Seeds are admissible *)

Lemma seedc_range (x : T) :
  (-1 <= x <= 1)%R -> (0 <= sqrt (1 - x ^ 2) <= 1)%R.
Proof.
  intros Hx. split; [apply sqrt_pos|].
  rewrite <- sqrt_1 at 2. apply sqrt_le_1; nra.
Qed.

Section SeedFacts.

Variable Rng : Type.
Variable rand_between : T -> T -> Rng -> T * Rng.
Variable rand_unit : Rng -> T * Rng.
Hypothesis rand_between_range :
  forall (lo hi : T) (g : Rng),
    (lo <= hi)%R -> (lo <= fst (rand_between lo hi g) <= hi)%R.
Hypothesis rand_unit_range :
  forall g : Rng, (-1 <= fst (rand_unit g) <= 1)%R.

Lemma seed_slice_length (i : Z) (g : Rng) :
  0 <= i <= 5 ->
  length (fst (seed_slice rand_between rand_unit i g))
  = Z.to_nat (table_at narg_for_orbit i).
Proof.
  intros Hi. orbit_cases i Hi; unfold seed_slice.
  all: repeat match goal with
         | |- context [match ?e with pair _ _ => _ end] => destruct e
         end.
  all: reflexivity.
Qed.

Lemma seed_slice_domain (i : Z) (g : Rng) :
  0 <= i <= 5 ->
  orbit_domain i (fst (seed_slice rand_between rand_unit i g)).
Proof.
  intros Hi. orbit_cases i Hi; unfold seed_slice.
  all: repeat match goal with
         | |- context [match ?e with pair _ _ => _ end] =>
             match e with
             | rand_between ?lo ?hi ?g0 =>
                 let H := fresh "Hb" in
                 assert (H := rand_between_range lo hi g0 ltac:(lra));
                 destruct e
             | rand_unit ?g0 =>
                 let H := fresh "Hu" in
                 assert (H := seedc_range _ (rand_unit_range g0));
                 destruct e
             end
         end.
  all: cbn [fst orbit_domain] in *.
  all: repeat split; lra.
Qed.

Lemma seed_slice_third (i : Z) (g : Rng) :
  i = 4 \/ i = 5 ->
  exists a b rest,
    fst (seed_slice rand_between rand_unit i g) = a :: b :: rest
    /\ (0 <= a <= 1 / 3)%R /\ (0 <= b <= 1 / 3)%R.
Proof.
  intros [-> | ->]; unfold seed_slice.
  all: repeat match goal with
         | |- context [match ?e with pair _ _ => _ end] =>
             match e with
             | rand_between ?lo ?hi ?g0 =>
                 let H := fresh "Hb" in
                 assert (H := rand_between_range lo hi g0 ltac:(lra));
                 destruct e
             | rand_unit ?g0 => destruct e
             end
         end.
  all: cbn [fst] in *; do 3 eexists; repeat split; lra.
Qed.

Variable clamp : T -> T -> T -> T.
Hypothesis clamp_fix :
  forall l v h : T, (l <= v <= h)%R -> clamp l v h = v.

(** C10.  In exact real arithmetic, with [rand(lo, hi)] in [[lo, hi]] and
    [rand()] in [[-1, 1]], the slice [seed_orbit] writes for an orbit id in
    [0,5] lies in the domain of that orbit, so that [clamp_arg] applied
    next leaves the vector as it is; [sqrt(1 - rand()^2)] lies in [[0, 1]]
    and, for orbits 4 and 5, [a] and [b] lie in [[0, 1/3]]. *)
Theorem seed_orbit_admissible (i aoff : Z) (args : VectorXT) (g : Rng) :
  0 <= i <= 5 ->
  window_ok aoff (table_at narg_for_orbit i) args ->
  exists args' g',
    seed_orbit rand_between rand_unit i aoff (mkSeedMem args g)
    = Ok (tt, mkSeedMem args' g')
    /\ orbit_domain i (slice aoff (table_at narg_for_orbit i) args')
    /\ clamp_arg clamp i aoff args' = Ok (tt, args')
    /\ (forall g0 : Rng,
          (0 <= sqrt (1 - fst (rand_unit g0) ^ 2) <= 1)%R)
    /\ (i = 4 \/ i = 5 ->
        exists a b rest,
          slice aoff (table_at narg_for_orbit i) args' = a :: b :: rest
          /\ (0 <= a <= 1 / 3)%R /\ (0 <= b <= 1 / 3)%R
          /\ (b <= 1 - a)%R).
Proof.
  intros Hi Hw.
  assert (Hn := narg_nonneg i Hi).
  assert (Hlen := seed_slice_length i g Hi).
  assert (Hdom := seed_slice_domain i g Hi).
  do 2 eexists. split; [apply seed_orbit_run; assumption|].
  destruct Hw as [H0 H1].
  assert (Hs : slice aoff (table_at narg_for_orbit i)
                 (overwrite aoff
                    (fst (seed_slice rand_between rand_unit i g)) args)
               = fst (seed_slice rand_between rand_unit i g))
    by (apply slice_overwrite; lia).
  rewrite Hs. repeat split.
  - exact Hdom.
  - rewrite clamp_arg_run; [|assumption|].
    2:{ split; [exact H0 | rewrite overwrite_length; lia]. }
    rewrite Hs, (clamp_slice_fix clamp clamp_fix) by assumption.
    rewrite overwrite_overwrite; [reflexivity | split; lia | reflexivity].
  - apply seedc_range, rand_unit_range.
  - apply seedc_range, rand_unit_range.
  - intros H45. destruct (seed_slice_third i g H45) as (a & b & rest & E & Ha & Hb).
    exists a, b, rest. repeat split; try tauto; lra.
Qed.

End SeedFacts.

Lemma seed_orbit_admissible_witness :
  exists args' g',
    seed_orbit (fun lo hi (g : unit) => (lo, g)) (fun g => (0%R, g)) 5 1
      (mkSeedMem [9; 9; 9; 9; 9]%R tt)
    = Ok (tt, mkSeedMem args' g')
    /\ orbit_domain 5 (slice 1 (table_at narg_for_orbit 5) args')
    /\ clamp_arg clamp_ref 5 1 args' = Ok (tt, args')
    /\ (forall g0 : unit, (0 <= sqrt (1 - fst (0%R, g0) ^ 2) <= 1)%R)
    /\ (5 = 4 \/ 5 = 5 ->
        exists a b rest,
          slice 1 (table_at narg_for_orbit 5) args' = a :: b :: rest
          /\ (0 <= a <= 1 / 3)%R /\ (0 <= b <= 1 / 3)%R
          /\ (b <= 1 - a)%R).
Proof.
  apply (seed_orbit_admissible unit
           (fun lo hi (g : unit) => (lo, g)) (fun g => (0%R, g))).
  - intros lo hi g H. cbn [fst]. lra.
  - intros g. cbn [fst]. lra.
  - exact clamp_ref_fix.
  - lia.
  - split; vm_compute; discriminate.
Defined.

(** ** The ascending arrangement *)

Lemma sort_insert_perm (x : T) (l : list T) :
  Permutation (sort_insert x l) (x :: l).
Proof.
  induction l as [|y l IH]; cbn; [apply Permutation_refl|].
  destruct (Rlt_dec y x).
  - rewrite IH. apply perm_swap.
  - apply Permutation_refl.
Qed.

Lemma sort_insert_sorted (x : T) (l : list T) :
  StronglySorted Rle l -> StronglySorted Rle (sort_insert x l).
Proof.
  induction 1 as [|y l Hs IH Hy]; cbn.
  - constructor; constructor.
  - destruct (Rlt_dec y x) as [Hlt|Hge].
    + constructor; [exact IH|].
      apply Forall_forall. intros z Hz.
      apply (Permutation_in _ (sort_insert_perm x l)) in Hz.
      destruct Hz as [<- | Hz]; [lra|].
      rewrite Forall_forall in Hy. now apply Hy.
    + constructor; [now constructor|].
      constructor; [lra|].
      apply Forall_forall. intros z Hz.
      rewrite Forall_forall in Hy. specialize (Hy z Hz). lra.
Qed.

Lemma std_sort_perm (l : list T) : Permutation (std_sort l) l.
Proof.
  induction l as [|x l IH]; [apply Permutation_refl|].
  change (std_sort (x :: l)) with (sort_insert x (std_sort l)).
  rewrite sort_insert_perm. now constructor.
Qed.

Lemma std_sort_sorted (l : list T) : StronglySorted Rle (std_sort l).
Proof.
  induction l as [|x l IH]; [constructor|].
  change (std_sort (x :: l)) with (sort_insert x (std_sort l)).
  now apply sort_insert_sorted.
Qed.

Lemma sorted_perm_unique (l1 l2 : list T) :
  StronglySorted Rle l1 -> StronglySorted Rle l2 ->
  Permutation l1 l2 -> l1 = l2.
Proof.
  intros H1. revert l2.
  induction H1 as [|x l1 Hs1 IH Hx]; intros l2 H2 Hp.
  - apply Permutation_nil in Hp. now subst.
  - destruct H2 as [|y l2 Hs2 Hy].
    + apply Permutation_sym, Permutation_nil in Hp. discriminate.
    + assert (Exy : x = y).
      { rewrite Forall_forall in Hx, Hy.
        assert (Hxin : In x (y :: l2))
          by (apply (Permutation_in _ Hp); now left).
        assert (Hyin : In y (x :: l1))
          by (apply (Permutation_in _ (Permutation_sym Hp)); now left).
        destruct Hxin as [E | Hxin]; [now symmetry|].
        destruct Hyin as [E | Hyin]; [exact E|].
        apply Rle_antisym; [now apply Hx | now apply Hy]. }
      subst y. f_equal. apply IH; [exact Hs2|].
      now apply Permutation_cons_inv in Hp.
Qed.

Lemma std_sort_unique (l1 l2 : list T) :
  Permutation l1 l2 -> std_sort l1 = std_sort l2.
Proof.
  intros Hp. apply sorted_perm_unique; try apply std_sort_sorted.
  rewrite !std_sort_perm. exact Hp.
Qed.

(** ** Arrangements of a triple *)

Lemma perm3_arrangement (x y z a b c : T) :
  Permutation [x; y; z] [a; b; c] -> In (x, y, z) (arrangements a b c).
Proof.
  intros Hp.
  assert (Hx : In x [a; b; c]) by (apply (Permutation_in _ Hp); now left).
  unfold arrangements.
  destruct Hx as [-> | [-> | [-> | []]]].
  - apply Permutation_cons_inv in Hp.
    apply Permutation_length_2_inv in Hp.
    destruct Hp as [E | E]; injection E as -> ->; cbn; tauto.
  - assert (Hq : Permutation (x :: [y; z]) (x :: [a; c])).
    { rewrite Hp. apply perm_swap. }
    apply Permutation_cons_inv in Hq.
    apply Permutation_length_2_inv in Hq.
    destruct Hq as [E | E]; injection E as -> ->; cbn; tauto.
  - assert (Hq : Permutation (x :: [y; z]) (x :: [a; b])).
    { rewrite Hp. change [a; b; x] with ([a; b] ++ [x]).
      symmetry. apply Permutation_cons_append. }
    apply Permutation_cons_inv in Hq.
    apply Permutation_length_2_inv in Hq.
    destruct Hq as [E | E]; injection E as -> ->; cbn; tauto.
Qed.

Ltac perm_pick :=
  match goal with
  | |- Permutation [] [] => apply perm_nil
  | |- Permutation (?a :: _) (?a :: _) => apply perm_skip
  | |- Permutation (?a :: _) (?x1 :: ?a :: ?r) =>
      change (x1 :: a :: r) with ([x1] ++ a :: r);
      apply Permutation_cons_app; cbn [app]
  | |- Permutation (?a :: _) (?x1 :: ?x2 :: ?a :: ?r) =>
      change (x1 :: x2 :: a :: r) with ([x1; x2] ++ a :: r);
      apply Permutation_cons_app; cbn [app]
  | |- Permutation (?a :: _) (?x1 :: ?x2 :: ?x3 :: ?a :: ?r) =>
      change (x1 :: x2 :: x3 :: a :: r) with ([x1; x2; x3] ++ a :: r);
      apply Permutation_cons_app; cbn [app]
  | |- Permutation (?a :: _) (?x1 :: ?x2 :: ?x3 :: ?x4 :: ?a :: ?r) =>
      change (x1 :: x2 :: x3 :: x4 :: a :: r)
        with ([x1; x2; x3; x4] ++ a :: r);
      apply Permutation_cons_app; cbn [app]
  | |- Permutation (?a :: _) (?x1 :: ?x2 :: ?x3 :: ?x4 :: ?x5 :: ?a :: ?r) =>
      change (x1 :: x2 :: x3 :: x4 :: x5 :: a :: r)
        with ([x1; x2; x3; x4; x5] ++ a :: r);
      apply Permutation_cons_app; cbn [app]
  end.

Lemma arrangement_perm3 (x y z a b c : T) :
  In (x, y, z) (arrangements a b c) -> Permutation [x; y; z] [a; b; c].
Proof.
  unfold arrangements. cbn [In].
  intros [E | [E | [E | [E | [E | [E | []]]]]]];
    injection E as <- <- <-; repeat perm_pick.
Qed.

Lemma arrangements_perm (x y z a b c : T) :
  Permutation [x; y; z] [a; b; c] ->
  Permutation (arrangements x y z) (arrangements a b c).
Proof.
  intros Hp. apply perm3_arrangement in Hp.
  unfold arrangements in *. cbn [In] in Hp.
  destruct Hp as [E | [E | [E | [E | [E | [E | []]]]]]];
    injection E as <- <- <-; repeat perm_pick.
Qed.

Lemma arrangement_sum (x y z a b c : T) :
  In (x, y, z) (arrangements a b c) -> (x + y + z = a + b + c)%R.
Proof.
  unfold arrangements. cbn [In].
  intros [E | [E | [E | [E | [E | [E | []]]]]]];
    injection E as <- <- <-; lra.
Qed.

Lemma orbit_points_perm (i : Z) (a b a' b' : T) (rest : list T) :
  Permutation [a'; b'; (1 - a' - b')%R] [a; b; (1 - a - b)%R] ->
  Permutation (orbit_points i (a' :: b' :: rest))
              (orbit_points i (a :: b :: rest)) \/ (i <> 4 /\ i <> 5).
Proof.
  intros Hp. apply arrangements_perm in Hp.
  destruct (Z.eq_dec i 4) as [-> | H4].
  - left. destruct rest; [|apply Permutation_refl].
    unfold orbit_points. now apply Permutation_map.
  - destruct (Z.eq_dec i 5) as [-> | H5]; [|now right].
    left. destruct rest as [|c [|d rest]]; try apply Permutation_refl.
    unfold orbit_points. apply Permutation_app; now apply Permutation_map.
Qed.

Lemma sort_slice_sorted (i : Z) (a b : T) (rest : list T) :
  i = 4 \/ i = 5 ->
  exists s0 s1 s2,
    std_sort [a; b; (1 - a - b)%R] = [s0; s1; s2]
    /\ sort_slice i (a :: b :: rest) = s0 :: s1 :: rest
    /\ (s2 = 1 - s0 - s1)%R.
Proof.
  intros Hi.
  assert (Hlen := std_sort_length [a; b; (1 - a - b)%R]).
  assert (Hperm := std_sort_perm [a; b; (1 - a - b)%R]).
  unfold sort_slice.
  replace ((i =? 4) || (i =? 5)) with true
    by (destruct Hi as [-> | ->]; reflexivity).
  destruct (std_sort _) as [|s0 [|s1 [|s2 [|s3 l]]]]; try discriminate Hlen.
  exists s0, s1, s2. repeat split.
  apply perm3_arrangement, arrangement_sum in Hperm. lra.
Qed.

(** C7.  For orbits 4 and 5 [sort_arg] stores, in place of [(a, b)], the two
    smallest entries of the ascending arrangement of [(a, b, 1 - a - b)] and
    touches nothing else.  Any arrangement of that triple stored in place of
    [(a, b)] leads to the same stored pair; the triple the pair stands for
    is the same multiset as before, and [expand_orbit] writes the same
    points, up to their order. *)
Theorem sort_arg_canonical (i aoff : Z) (args : VectorXT) (a b : T)
    (rest : list T) :
  i = 4 \/ i = 5 ->
  window_ok aoff (table_at narg_for_orbit i) args ->
  slice aoff (table_at narg_for_orbit i) args = a :: b :: rest ->
  exists s0 s1 s2 args',
    sort_arg i aoff args = Ok (tt, args')
    /\ StronglySorted Rle [s0; s1; s2]
    /\ Permutation [s0; s1; s2] [a; b; (1 - a - b)%R]
    /\ slice aoff (table_at narg_for_orbit i) args' = s0 :: s1 :: rest
    /\ (forall k,
          k < aoff \/ aoff + table_at narg_for_orbit i <= k ->
          load args' k = load args k)
    /\ Permutation [s0; s1; (1 - s0 - s1)%R] [a; b; (1 - a - b)%R]
    /\ (forall (x y z : T) (args2 : VectorXT),
          In (x, y, z) (arrangements a b (1 - a - b)) ->
          window_ok aoff (table_at narg_for_orbit i) args2 ->
          slice aoff (table_at narg_for_orbit i) args2 = x :: y :: rest ->
          exists args2',
            sort_arg i aoff args2 = Ok (tt, args2')
            /\ slice aoff (table_at narg_for_orbit i) args2'
               = s0 :: s1 :: rest)
    /\ (forall (poff : Z) (pts : MatrixPtsT) (rs ws : list Z),
          window_ok poff (table_at npts_for_orbit i) pts ->
          exists m1 m2,
            expand_orbit i aoff poff (mkExpandMem args pts rs ws)
            = Ok (tt, m1)
            /\ expand_orbit i aoff poff (mkExpandMem args' pts rs ws)
               = Ok (tt, m2)
            /\ Permutation
                 (slice poff (table_at npts_for_orbit i) (em_pts m1))
                 (slice poff (table_at npts_for_orbit i) (em_pts m2))
            /\ (forall k,
                  k < poff \/ poff + table_at npts_for_orbit i <= k ->
                  load (em_pts m1) k = load (em_pts m2) k)).
Proof.
  intros Hi Hw Hs.
  assert (Hi' : 0 <= i <= 5) by lia.
  assert (Hn := narg_nonneg i Hi').
  assert (Hlen := slice_length args aoff _ Hn Hw).
  destruct (sort_slice_sorted i a b rest Hi) as (s0 & s1 & s2 & Hsrt & Hss & Hs2).
  assert (Hsorted := std_sort_sorted [a; b; (1 - a - b)%R]).
  assert (Hperm := std_sort_perm [a; b; (1 - a - b)%R]).
  rewrite Hsrt in Hsorted, Hperm.
  assert (Hlen' : Z.of_nat (length (s0 :: s1 :: rest))
                  = table_at narg_for_orbit i).
  { rewrite Hs in Hlen. cbn [length] in *. lia. }
  assert (Hrun := sort_arg_run i aoff args Hi Hw).
  rewrite Hs, Hss in Hrun.
  destruct Hw as [H0 H1].
  assert (Hw' : window_ok aoff (table_at narg_for_orbit i)
                  (overwrite aoff (s0 :: s1 :: rest) args)).
  { split; [exact H0 | rewrite overwrite_length; lia]. }
  assert (Hslice' : slice aoff (table_at narg_for_orbit i)
                      (overwrite aoff (s0 :: s1 :: rest) args)
                    = s0 :: s1 :: rest)
    by (apply slice_overwrite; [lia | lia | symmetry; exact Hlen']).
  exists s0, s1, s2, (overwrite aoff (s0 :: s1 :: rest) args).
  split; [exact Hrun|].
  split; [exact Hsorted|].
  split; [exact Hperm|].
  split; [exact Hslice'|].
  split; [intros k Hk; apply load_overwrite_other; lia|].
  split; [now rewrite <- Hs2|].
  split.
  - intros x y z args2 Hin Hw2 Hs2'.
    assert (Hrun2 := sort_arg_run i aoff args2 Hi Hw2).
    rewrite Hs2' in Hrun2.
    assert (Hz : (z = 1 - x - y)%R)
      by (apply arrangement_sum in Hin; lra).
    apply arrangement_perm3 in Hin. rewrite Hz in Hin.
    destruct (sort_slice_sorted i x y rest Hi) as (t0 & t1 & t2 & Ht & Hts & _).
    assert (Et : [t0; t1; t2] = [s0; s1; s2]).
    { etransitivity; [symmetry; exact Ht|].
      etransitivity; [|exact Hsrt].
      exact (std_sort_unique _ _ Hin). }
    injection Et as -> -> ->.
    rewrite Hts in Hrun2.
    eexists. split; [exact Hrun2|].
    destruct Hw2 as [G0 G1].
    apply slice_overwrite; [lia | lia | symmetry; exact Hlen'].
  - intros poff pts rs ws Hp.
    assert (Hnp := npts_nonneg i Hi').
    do 2 eexists.
    split; [apply expand_orbit_run; [exact Hi' | now split | exact Hp]|].
    split; [apply expand_orbit_run; [exact Hi' | exact Hw' | exact Hp]|].
    cbn [em_args em_pts]. rewrite Hs, Hslice'.
    assert (Hpts : forall u v : T,
               Z.of_nat (length (orbit_points i (u :: v :: rest)))
               = table_at npts_for_orbit i).
    { intros u v. cbn [length] in Hlen'.
      destruct Hi as [-> | ->].
      - change (table_at narg_for_orbit 4) with 2 in Hlen'.
        destruct rest; [reflexivity | cbn [length] in Hlen'; lia].
      - change (table_at narg_for_orbit 5) with 3 in Hlen'.
        destruct rest as [|c [|d rest]];
          [cbn [length] in Hlen'; lia | reflexivity
          | cbn [length] in Hlen'; lia]. }
    destruct Hp as [P0 P1].
    assert (Hop : Permutation (orbit_points i (a :: b :: rest))
                    (orbit_points i (s0 :: s1 :: rest))).
    { symmetry.
      destruct (orbit_points_perm i a b s0 s1 rest) as [Hq | [H4 H5]];
        [now rewrite <- Hs2 | exact Hq | lia]. }
    split.
    + rewrite !slice_overwrite; try lia; try exact Hop.
      * symmetry. apply Hpts.
      * symmetry. apply Hpts.
    + intros k Hk. rewrite !load_overwrite_other; try reflexivity; try lia.
      * rewrite Hpts. lia.
      * rewrite Hpts. lia.
      * rewrite Hpts. lia.
      * rewrite Hpts. lia.
Qed.

Lemma sort_arg_canonical_witness :
  exists s0 s1 s2 args',
    sort_arg 4 0 [0.5; 0.2]%R = Ok (tt, args')
    /\ StronglySorted Rle [s0; s1; s2]
    /\ Permutation [s0; s1; s2] [0.5; 0.2; 1 - 0.5 - 0.2]%R
    /\ slice 0 (table_at narg_for_orbit 4) args' = [s0; s1].
Proof.
  destruct (sort_arg_canonical 4 0 [0.5; 0.2]%R 0.5%R 0.2%R [])
    as (s0 & s1 & s2 & args' & H1 & H2 & H3 & H4 & _).
  - left. reflexivity.
  - split; vm_compute; discriminate.
  - reflexivity.
  - exists s0, s1, s2, args'. repeat split; assumption.
Defined.

(** ** Orbit expansion *)

(** C4.  For an orbit id [i] in [0,5], [expand_orbit] assigns the
    [npts_for_orbit[i]] consecutive rows from [poff] on, each once and in
    order, reads the [narg_for_orbit[i]] parameters from [aoff] on, and
    leaves the other rows and the parameter vector as they were; the tables
    are [{1,2,3,6,6,12}] and [{0,1,1,2,2,3}]. *)
Theorem expand_orbit_frame (i aoff poff : Z) (m : expand_mem) :
  0 <= i <= 5 ->
  window_ok aoff (table_at narg_for_orbit i) (em_args m) ->
  window_ok poff (table_at npts_for_orbit i) (em_pts m) ->
  npts_for_orbit = [1; 2; 3; 6; 6; 12]
  /\ narg_for_orbit = [0; 1; 1; 2; 2; 3]
  /\ exists m',
       expand_orbit i aoff poff m = Ok (tt, m')
       /\ em_writes m' = em_writes m ++ indices poff (table_at npts_for_orbit i)
       /\ em_reads m' = em_reads m ++ indices aoff (table_at narg_for_orbit i)
       /\ length (em_pts m') = length (em_pts m)
       /\ (forall k,
             k < poff \/ poff + table_at npts_for_orbit i <= k ->
             load (em_pts m') k = load (em_pts m) k)
       /\ em_args m' = em_args m.
Proof.
  intros Hi Ha Hp. split; [reflexivity|]. split; [reflexivity|].
  eexists. split; [apply expand_orbit_run; assumption|].
  cbn [em_args em_pts em_reads em_writes].
  assert (Hn := narg_nonneg i Hi).
  assert (Hlen := slice_length (em_args m) aoff _ Hn Ha).
  remember (slice aoff (table_at narg_for_orbit i) (em_args m)) as s eqn:Hs.
  assert (Hrows : Z.of_nat (length (orbit_points i s))
                  = table_at npts_for_orbit i).
  { clear Hs Ha Hp. set (n := Z.to_nat (table_at narg_for_orbit i)) in Hlen.
    orbit_cases i Hi; vm_compute in n; subst n; explode_slice Hlen;
      reflexivity. }
  destruct Hp as [P0 P1].
  repeat split.
  - apply overwrite_length; lia.
  - intros k Hk. apply load_overwrite_other; lia.
Qed.

Lemma expand_orbit_frame_witness :
  npts_for_orbit = [1; 2; 3; 6; 6; 12]
  /\ narg_for_orbit = [0; 1; 1; 2; 2; 3]
  /\ exists m',
       expand_orbit 3 1 2
         (mkExpandMem [9; 0.25; 0.5; 9]%R
            (repeat (mkVector3T 7 7 7) 9) [] [])
       = Ok (tt, m')
       /\ em_writes m' = [] ++ indices 2 (table_at npts_for_orbit 3)
       /\ em_reads m' = [] ++ indices 1 (table_at narg_for_orbit 3)
       /\ length (em_pts m') = length (repeat (mkVector3T 7 7 7) 9)
       /\ (forall k,
             k < 2 \/ 2 + table_at npts_for_orbit 3 <= k ->
             load (em_pts m') k = load (repeat (mkVector3T 7 7 7) 9) k)
       /\ em_args m' = [9; 0.25; 0.5; 9]%R.
Proof.
  apply (expand_orbit_frame 3 1 2
           (mkExpandMem [9; 0.25; 0.5; 9]%R
              (repeat (mkVector3T 7 7 7) 9) [] [])).
  - lia.
  - split; vm_compute; discriminate.
  - split; vm_compute; discriminate.
Defined.

Lemma cart_to_bary_inv (p1 p2 p3 z : T) :
  (p1 + p2 + p3 = 1)%R ->
  cart_to_bary (bary_to_cart p1 p2 p3 z) = [p1; p2; p3].
Proof.
  intros H. unfold cart_to_bary, bary_to_cart. cbn [v3_x v3_y].
  apply f_equal2; [lra|]. apply f_equal2; [lra|].
  apply f_equal2; [lra | reflexivity].
Qed.

Lemma arrangements_rows (a b c : T) :
  (a + b + c = 1)%R ->
  Forall (fun v => v3_z v = 0%R /\ Permutation (cart_to_bary v) [a; b; c])
    (map (fun t : T * T * T =>
            let '(p1, p2, p3) := t in bary_to_cart p1 p2 p3 0)
         (arrangements a b c)).
Proof.
  intros H. unfold arrangements. cbn [map].
  repeat constructor; rewrite cart_to_bary_inv by lra; repeat perm_pick.
Qed.

(** C1, amended.  For orbit 4 with parameters [(a, b)], [expand_orbit]
    writes the six arrangements of [(a, b, 1 - a - b)], each converted by
    [bary_to_cart(p1, p2, p3, z) = (-p1 + p2 - p3, -p1 - p2 + p3, z)] with
    the axial coordinate [z = 0] passed as a fourth argument of its own;
    the barycentric coordinates recomputed from each of the six rows are
    the multiset [{a, b, 1 - a - b}], which is [{0.2, 0.3, 0.5}] for
    [(a, b) = (0.2, 0.3)]. *)
Theorem expand_orbit_4_arrangements (aoff poff : Z) (m : expand_mem)
    (a b : T) :
  window_ok aoff 2 (em_args m) ->
  slice aoff 2 (em_args m) = [a; b] ->
  window_ok poff 6 (em_pts m) ->
  exists m',
    expand_orbit 4 aoff poff m = Ok (tt, m')
    /\ slice poff 6 (em_pts m')
       = map (fun t : T * T * T =>
                let '(p1, p2, p3) := t in bary_to_cart p1 p2 p3 0)
             (arrangements a b (1 - a - b))
    /\ Forall (fun v =>
                 v3_z v = 0%R
                 /\ Permutation (cart_to_bary v) [a; b; (1 - a - b)%R])
              (slice poff 6 (em_pts m'))
    /\ (a = 0.2%R -> b = 0.3%R ->
        Forall (fun v => Permutation (cart_to_bary v) [0.2; 0.3; 0.5]%R)
               (slice poff 6 (em_pts m'))).
Proof.
  intros Ha Hs Hp.
  eexists. split; [apply expand_orbit_run; [lia | exact Ha | exact Hp]|].
  cbn [em_args em_pts].
  change (table_at narg_for_orbit 4) with 2.
  change (table_at npts_for_orbit 4) with 6.
  rewrite Hs. destruct Hp as [P0 P1].
  rewrite slice_overwrite by (try reflexivity; lia).
  assert (Hrows := arrangements_rows a b (1 - a - b) ltac:(lra)).
  split; [reflexivity|]. split; [exact Hrows|].
  intros -> ->.
  replace 0.5%R with (1 - 0.2 - 0.3)%R by lra.
  revert Hrows. apply Forall_impl. tauto.
Qed.

Lemma expand_orbit_4_arrangements_witness :
  exists m',
    expand_orbit 4 0 0
      (mkExpandMem [0.2; 0.3]%R (repeat (mkVector3T 0 0 0) 6) [] [])
    = Ok (tt, m')
    /\ Forall (fun v => Permutation (cart_to_bary v) [0.2; 0.3; 0.5]%R)
              (slice 0 6 (em_pts m')).
Proof.
  destruct (expand_orbit_4_arrangements 0 0
              (mkExpandMem [0.2; 0.3]%R (repeat (mkVector3T 0 0 0) 6) [] [])
              0.2%R 0.3%R)
    as (m' & H1 & _ & _ & H4).
  - split; vm_compute; discriminate.
  - reflexivity.
  - split; vm_compute; discriminate.
  - exists m'. split; [exact H1 | apply H4; reflexivity].
Defined.

(** C1 as the spec words it fails: with the conversion
    [cart(p, q, r) = (-p + q - r, -p - q + r, r)] the third Cartesian
    coordinate of an image of [(0.2, 0.3, 0.5)] is one of [0.2], [0.3],
    [0.5], while every point [expand_orbit] writes for orbit 4 has third
    coordinate [0]. *)
Lemma expand_orbit_4_not_spec_cart :
  exists m',
    expand_orbit 4 0 0
      (mkExpandMem [0.2; 0.3]%R (repeat (mkVector3T 0 0 0) 6) [] [])
    = Ok (tt, m')
    /\ ~ Permutation (em_pts m')
           (map (fun t : T * T * T =>
                   let '(p, q, r) := t in spec_cart p q r)
                (arrangements 0.2 0.3 0.5))
    /\ Forall (fun v =>
                 forall p q r : T,
                   In (p, q, r) (arrangements 0.2 0.3 0.5) ->
                   v <> spec_cart p q r)
              (em_pts m').
Proof.
  eexists. split.
  { apply expand_orbit_run; [lia | split; vm_compute; discriminate
                             | split; vm_compute; discriminate]. }
  cbn [em_args em_pts].
  change (slice 0 (table_at narg_for_orbit 4) [0.2; 0.3]%R)
    with [0.2; 0.3]%R.
  change (overwrite 0 (orbit_points 4 [0.2; 0.3]%R)
            (repeat (mkVector3T 0 0 0) 6))
    with (orbit_points 4 [0.2; 0.3]%R).
  assert (Hall :
    Forall (fun v =>
              forall p q r : T,
                In (p, q, r) (arrangements 0.2 0.3 0.5) ->
                v <> spec_cart p q r)
           (orbit_points 4 [0.2; 0.3]%R)).
  { unfold orbit_points, arrangements. cbn [map].
    repeat constructor; intros p q r Hin Heq;
      apply (f_equal v3_z) in Heq; cbn [v3_z bary_to_cart spec_cart] in Heq;
      cbn [In] in Hin;
      destruct Hin as [E | [E | [E | [E | [E | [E | []]]]]]];
      injection E as <- <- <-; lra. }
  split; [|exact Hall].
  intros Hperm.
  rewrite Forall_forall in Hall.
  assert (Hin : In (spec_cart 0.2 0.3 0.5) (orbit_points 4 [0.2; 0.3]%R)).
  { apply (Permutation_in _ (Permutation_sym Hperm)). now left. }
  apply (Hall _ Hin 0.2 0.3 0.5)%R; [now left | reflexivity].
Qed.

(** ** The validity test *)

(** C8.  [validate_orbit] accepts an orbit-count vector exactly when its
    entry for orbit 0 is at most 1: a vector with two centroid orbits is
    rejected, and one with none or one is accepted whatever the other five
    counts are. *)
Theorem validate_orbit_spec (orb : VectorOrb) :
  (validate_orbit orb = true <-> orb_at orb 0 <= 1)
  /\ (orb_at orb 0 = 2 -> validate_orbit orb = false)
  /\ (orb_at orb 0 = 0 \/ orb_at orb 0 = 1 -> validate_orbit orb = true).
Proof.
  unfold validate_orbit. repeat split.
  - apply Z.leb_le.
  - apply Z.leb_le.
  - intros ->. reflexivity.
  - intros [-> | ->]; reflexivity.
Qed.

Lemma validate_orbit_spec_witness :
  validate_orbit (mkVectorOrb 2 0 1 0 3 0) = false
  /\ validate_orbit (mkVectorOrb 1 4 0 2 0 5) = true.
Proof.
  split.
  - apply (validate_orbit_spec (mkVectorOrb 2 0 1 0 3 0)). reflexivity.
  - apply (validate_orbit_spec (mkVectorOrb 1 4 0 2 0 5)). right. reflexivity.
Defined.

(** ** The "Bad orbit" branches *)

(** C9.  For an orbit id outside [0,5], [expand_orbit], [seed_orbit] and
    [clamp_arg] abort, whatever their other arguments.  For an orbit id in
    [0,5] none of them reaches the abort, and each returns when its offsets
    lie inside the buffers it is given. *)
Theorem bad_orbit_only_outside {Rng : Type}
    (clamp : T -> T -> T -> T)
    (rand_between : T -> T -> Rng -> T * Rng) (rand_unit : Rng -> T * Rng)
    (i aoff poff : Z) (m : expand_mem) (args : VectorXT) (g : Rng) :
  (i < 0 \/ 5 < i ->
   expand_orbit i aoff poff m = Abort
   /\ seed_orbit rand_between rand_unit i aoff (mkSeedMem args g) = Abort
   /\ clamp_arg clamp i aoff args = Abort)
  /\ (0 <= i <= 5 ->
      expand_orbit i aoff poff m <> Abort
      /\ seed_orbit rand_between rand_unit i aoff (mkSeedMem args g) <> Abort
      /\ clamp_arg clamp i aoff args <> Abort)
  /\ (0 <= i <= 5 ->
      window_ok aoff (table_at narg_for_orbit i) (em_args m) ->
      window_ok poff (table_at npts_for_orbit i) (em_pts m) ->
      window_ok aoff (table_at narg_for_orbit i) args ->
      (exists m', expand_orbit i aoff poff m = Ok (tt, m'))
      /\ (exists sm',
            seed_orbit rand_between rand_unit i aoff (mkSeedMem args g)
            = Ok (tt, sm'))
      /\ (exists args', clamp_arg clamp i aoff args = Ok (tt, args'))).
Proof.
  split; [|split].
  - intros Hi. repeat split.
    + now apply expand_orbit_outside.
    + now apply seed_orbit_outside.
    + now apply clamp_arg_outside.
  - intros Hi. repeat split.
    + now apply expand_orbit_inside.
    + now apply seed_orbit_inside.
    + now apply clamp_arg_inside.
  - intros Hi Ha Hp Hw. repeat split.
    + eexists. now apply expand_orbit_run.
    + eexists. now apply seed_orbit_run.
    + eexists. now apply clamp_arg_run.
Qed.

Lemma bad_orbit_only_outside_witness :
  (expand_orbit 6 0 0 (mkExpandMem [] [] [] []) = Abort
   /\ seed_orbit (fun lo hi (g : unit) => (lo, g)) (fun g => (0%R, g)) 6 0
        (mkSeedMem [] tt) = Abort
   /\ clamp_arg clamp_ref 6 0 [] = Abort)
  /\ (exists m',
        expand_orbit 2 0 0
          (mkExpandMem [0.25%R] (repeat (mkVector3T 0 0 0) 3) [] [])
        = Ok (tt, m'))
  /\ (exists sm',
        seed_orbit (fun lo hi (g : unit) => (lo, g)) (fun g => (0%R, g)) 2 0
          (mkSeedMem [0.25%R] tt)
        = Ok (tt, sm'))
  /\ (exists args', clamp_arg clamp_ref 2 0 [0.25%R] = Ok (tt, args')).
Proof.
  split.
  - apply (bad_orbit_only_outside clamp_ref
             (fun lo hi (g : unit) => (lo, g)) (fun g => (0%R, g))
             6 0 0 (mkExpandMem [] [] [] []) [] tt).
    right. lia.
  - apply (bad_orbit_only_outside clamp_ref
             (fun lo hi (g : unit) => (lo, g)) (fun g => (0%R, g))
             2 0 0
             (mkExpandMem [0.25%R] (repeat (mkVector3T 0 0 0) 3) [] [])
             [0.25%R] tt).
    + lia.
    + split; vm_compute; discriminate.
    + split; vm_compute; discriminate.
    + split; vm_compute; discriminate.
Defined.

(** ** Counted loops as iterations over their counter values *)

Lemma range_le_step (step : positive) (hi i : Z) :
  range_le step hi i
  = if Z_le_dec i hi then i :: range_le step hi (i + Z.pos step) else [].
Proof.
  rewrite range_le_equation_1. unfold range_le_unfold_clause_1.
  destruct (Z_le_dec i hi); reflexivity.
Qed.

Lemma for_le_step {St : Type} (step : positive) (hi : Z)
    (body : Z -> St -> St) (i : Z) (s : St) :
  for_le step hi body i s
  = if Z_le_dec i hi then for_le step hi body (i + Z.pos step) (body i s)
    else s.
Proof.
  rewrite for_le_equation_1. unfold for_le_unfold_clause_1.
  destruct (Z_le_dec i hi); reflexivity.
Qed.

Lemma for_leM_step {St : Type} (step : positive) (hi : Z)
    (body : Z -> M St unit) (i : Z) (s : St) :
  for_leM step hi body i s
  = if Z_le_dec i hi
    then (body i ;; for_leM step hi body (i + Z.pos step)) s
    else Ok (tt, s).
Proof.
  rewrite for_leM_equation_1. unfold for_leM_unfold_clause_1.
  destruct (Z_le_dec i hi); [|reflexivity].
  unfold bind. destruct (body i s) as [[[] s']| |]; reflexivity.
Qed.

(** Induction along the counter of a loop. *)
Lemma loop_ind (step : positive) (hi : Z) (P : Z -> Prop) :
  (forall i, hi < i -> P i) ->
  (forall i, i <= hi -> P (i + Z.pos step) -> P i) ->
  forall i, P i.
Proof.
  intros Hstop Hstep i.
  remember (Z.to_nat (hi - i + 1)) as n eqn:Hn.
  revert i Hn. induction n as [n IH] using lt_wf_ind. intros i Hn.
  destruct (Z_le_dec i hi) as [Hle|Hgt].
  - apply Hstep; [exact Hle|].
    apply (IH (Z.to_nat (hi - (i + Z.pos step) + 1))); lia.
  - apply Hstop. lia.
Qed.

Lemma for_le_each {St : Type} (step : positive) (hi : Z)
    (body : Z -> St -> St) (i : Z) (s : St) :
  for_le step hi body i s
  = fold_left (fun s i => body i s) (range_le step hi i) s.
Proof.
  revert s. pattern i. apply (loop_ind step hi); clear i.
  - intros i Hi s. rewrite for_le_step, range_le_step.
    destruct (Z_le_dec i hi); [lia | reflexivity].
  - intros i Hi IH s. rewrite for_le_step, range_le_step.
    destruct (Z_le_dec i hi); [|lia]. cbn [fold_left]. apply IH.
Qed.

Lemma for_leM_each {St : Type} (step : positive) (hi : Z)
    (body : Z -> M St unit) (i : Z) (s : St) :
  for_leM step hi body i s = each body (range_le step hi i) s.
Proof.
  revert s. pattern i. apply (loop_ind step hi); clear i.
  - intros i Hi s. rewrite for_leM_step, range_le_step.
    destruct (Z_le_dec i hi); [lia | reflexivity].
  - intros i Hi IH s. rewrite for_leM_step, range_le_step.
    destruct (Z_le_dec i hi); [|lia]. cbn [each]. unfold bind.
    destruct (body i s) as [[[] s']| |]; [apply IH | reflexivity..].
Qed.

Lemma range_le_In (step : positive) (hi i x : Z) :
  In x (range_le step hi i)
  <-> i <= x <= hi /\ (Z.pos step | x - i).
Proof.
  pattern i. apply (loop_ind step hi); clear i.
  - intros i Hi. rewrite range_le_step.
    destruct (Z_le_dec i hi); [lia|]. cbn. split; [tauto | lia].
  - intros i Hi IH. rewrite range_le_step.
    destruct (Z_le_dec i hi); [|lia]. cbn [In]. rewrite IH. split.
    + intros [<- | [Hx [q Hq]]].
      * split; [lia|]. exists 0. lia.
      * split; [lia|]. exists (q + 1). lia.
    + intros [Hx [q Hq]].
      destruct (Z.eq_dec x i) as [->|Hne]; [now left|right].
      assert (0 < q) by nia.
      split; [nia|]. exists (q - 1). lia.
Qed.

(** ** The number of basis functions *)

Lemma count_fold {A : Type} (f : A -> list (Z * Z * Z)) (l : list A) (n : Z) :
  fold_left (fun n x => n + Z.of_nat (length (f x))) l n
  = n + Z.of_nat (length (flat_map f l)).
Proof.
  revert n. induction l as [|x l IH]; intros n; cbn [fold_left flat_map].
  - cbn. lia.
  - rewrite IH, length_app. lia.
Qed.

Lemma fold_left_ext {A B : Type} (f g : A -> B -> A) (l : list B) (a : A) :
  (forall a b, f a b = g a b) -> fold_left f l a = fold_left g l a.
Proof.
  intros H. revert a. induction l as [|x l IH]; intros a; cbn; [reflexivity|].
  now rewrite H, IH.
Qed.

Lemma nbfn_for_qdeg_count (qdeg : Z) :
  nbfn_for_qdeg qdeg = Z.of_nat (length (degree_triples qdeg)).
Proof.
  unfold nbfn_for_qdeg, degree_triples.
  rewrite for_le_each.
  rewrite (fold_left_ext _
             (fun n i =>
                n + Z.of_nat (length
                  (flat_map (fun j =>
                     map (fun k => (i, j, k)) (range_le 2 (qdeg - i - j) 0))
                     (range_le 1 (qdeg - i) i))))).
  - rewrite count_fold. lia.
  - intros n i. rewrite for_le_each.
    rewrite (fold_left_ext _
               (fun n j =>
                  n + Z.of_nat (length
                    (map (fun k => (i, j, k))
                       (range_le 2 (qdeg - i - j) 0))))).
    + apply count_fold.
    + intros n' j. rewrite for_le_each, length_map.
      generalize (range_le 2 (qdeg - i - j) 0) as ks. clear.
      intros ks. revert n'.
      induction ks as [|k ks IH]; intros n'; cbn [fold_left length].
      * lia.
      * rewrite IH. lia.
Qed.

(** ** The basis evaluation *)

Lemma azip_map {A : Type} (f : T -> T -> T) (g h : A -> T) (l : list A) :
  azip f (map g l) (map h l) = map (fun x => f (g x) (h x)) l.
Proof.
  induction l as [|x l IH]; cbn; [reflexivity|]. now rewrite IH.
Qed.

Lemma constant_map {A : Type} (g : A -> T) (l : list A) (c : T) :
  constant (length (map g l)) c = map (fun _ => c) l.
Proof.
  unfold constant. rewrite length_map.
  induction l as [|x l IH]; cbn; [reflexivity|]. now rewrite IH.
Qed.

Lemma powerRZ_nonneg (x : R) (i : Z) :
  0 <= i -> powerRZ x i = (x ^ Z.to_nat i)%R.
Proof.
  intros Hi. destruct i as [|p|p]; [reflexivity | reflexivity | lia].
Qed.

Lemma pow2ip1_at_0 : pow2ip1_at 0 = 0.5%R.
Proof.
  unfold pow2ip1_at. change (powerRZ 2 (- 0 - 1)) with (/ (2 * 1))%R. lra.
Qed.

Lemma pow2ip1_at_step (i : Z) :
  pow2ip1_at (i + 2) = (pow2ip1_at i / 4)%R.
Proof.
  unfold pow2ip1_at.
  replace (- (i + 2) - 1) with ((- i - 1) + - 2) by lia.
  rewrite powerRZ_add by lra.
  change (powerRZ 2 (- 2)) with (/ (2 * (2 * 1)))%R. lra.
Qed.

Lemma pow1mqi_at_0 (pqr : list Vector3T) :
  pow1mqi_at pqr 0 = map (fun _ => 1%R) pqr.
Proof. reflexivity. Qed.

Lemma pow1mqi_at_step (pqr : list Vector3T) (i : Z) :
  0 <= i ->
  pow1mqi_at pqr (i + 2)
  = amul (pow1mqi_at pqr i)
      (amul (one_minus (map v3_y pqr)) (one_minus (map v3_y pqr))).
Proof.
  intros Hi. unfold pow1mqi_at, amul, one_minus.
  rewrite !map_map, azip_map, azip_map.
  apply map_ext. intros pt.
  rewrite !powerRZ_nonneg by lia.
  replace (Z.to_nat (i + 2)) with (Z.to_nat i + 2)%nat by lia.
  rewrite pow_add. cbn [pow]. unfold T. ring.
Qed.

Lemma select_a_map (pqr : list Vector3T) :
  select_a (map v3_x pqr) (map v3_y pqr)
  = map (fun pt => remap_a (v3_x pt) (v3_y pt)) pqr.
Proof. unfold select_a. now rewrite azip_map. Qed.

Lemma trace_rows_app (tr1 tr2 : list eval_event) :
  trace_rows (tr1 ++ tr2) = trace_rows tr1 ++ trace_rows tr2.
Proof.
  induction tr1 as [|[i x y | off i j k] tr1 IH]; cbn; [reflexivity | |];
    now rewrite IH.
Qed.

Lemma number_from_app {A : Type} (n : Z) (l1 l2 : list A) :
  number_from n (l1 ++ l2)
  = number_from n l1 ++ number_from (n + Z.of_nat (length l1)) l2.
Proof.
  revert n. induction l1 as [|x l1 IH]; intros n; cbn [number_from app length].
  - now rewrite Z.add_0_r.
  - rewrite IH. do 3 f_equal. lia.
Qed.

Lemma number_from_In {A : Type} (n0 n : Z) (x : A) (l : list A) :
  In (n, x) (number_from n0 l) ->
  n0 <= n /\ nth_error l (Z.to_nat (n - n0)) = Some x.
Proof.
  revert n0. induction l as [|y l IH]; intros n0; cbn [number_from In].
  - tauto.
  - intros [E | Hin].
    + injection E as -> ->. rewrite Z.sub_diag. split; [lia | reflexivity].
    + apply IH in Hin. destruct Hin as [Hle Hnth]. split; [lia|].
      replace (Z.to_nat (n - n0)) with (S (Z.to_nat (n - (n0 + 1)))) by lia.
      exact Hnth.
Qed.

Lemma number_from_fst {A : Type} (n : Z) (l : list A) :
  map fst (number_from n l) = indices n (Z.of_nat (length l)).
Proof.
  unfold indices. rewrite Nat2Z.id.
  revert n. induction l as [|x l IH]; intros n; [reflexivity|].
  cbn [number_from map length seq fst]. rewrite IH, <- seq_shift, map_map.
  f_equal; [cbn; lia|]. apply map_ext. intros k. lia.
Qed.

Lemma trace_rows_In (tr : list eval_event) (off i j k : Z) :
  In (EvRow off i j k) tr -> In (off, (i, j, k)) (trace_rows tr).
Proof.
  induction tr as [|[i' x y | off' i' j' k'] tr IH]; cbn [In trace_rows].
  - tauto.
  - intros [E | Hin]; [discriminate E | now apply IH].
  - intros [E | Hin]; [injection E as -> -> -> ->; now left|].
    right. now apply IH.
Qed.

Lemma load_overwrite_inside {A : Type} (l : list A) (off : Z) (vs : list A)
    (k : Z) (j : nat) (v : A) :
  0 <= off ->
  off + Z.of_nat (length vs) <= Z.of_nat (length l) ->
  nth_error vs j = Some v ->
  k = off + Z.of_nat j ->
  load (overwrite off vs l) k = Some v.
Proof.
  intros H0 H1 Hj ->.
  assert (Hlt : (j < length vs)%nat).
  { apply nth_error_Some. rewrite Hj. discriminate. }
  unfold load. rewrite in_bounds_true by (rewrite overwrite_length; lia).
  unfold overwrite.
  assert (Hf : length (firstn (Z.to_nat off) l) = Z.to_nat off)
    by (apply firstn_length_le; lia).
  rewrite nth_error_app2 by lia. rewrite nth_error_app1 by lia.
  rewrite <- Hj. f_equal. lia.
Qed.

Section BasisFacts.

Variable EvenLegendre : Z -> T -> T.
Variable Jacobi : Z -> Z -> Z -> T -> T.
Variable qdeg : Z.
Variable pqr : list Vector3T.
Variable out0 : list ArrayT.

Local Abbreviation jpa :=
  (EvenLegendreP EvenLegendre
     (select_a (map v3_x pqr) (map v3_y pqr))).
Local Abbreviation jpb i := (JacobiP Jacobi (2 * i + 1) 0 (map v3_y pqr)).
Local Abbreviation jpc := (EvenLegendreP EvenLegendre (map v3_z pqr)).
Local Abbreviation ok := (eval_ok EvenLegendre Jacobi pqr out0).

(** The triples of one middle iteration and of one outer iteration. *)
Local Abbreviation triples_j i j :=
  (map (fun k => (i%Z, j%Z, k)) (range_le 2 (qdeg - i - j) 0))
  (only parsing).
Local Abbreviation triples_i i :=
  (flat_map (fun j => triples_j i j) (range_le 1 (qdeg - i) i)).

Lemma row_closed_form (i j k : Z) :
  amul (amul (amul
    (smul (pow2ip1_at i
           * sqrt (IZR ((2 * i + 1) * (2 * k + 1) * (i + j + 1))))%R
          (pow1mqi_at pqr i))
    (jpa i)) (jpb i j)) (jpc k)
  = basis_row EvenLegendre Jacobi pqr (i, j, k).
Proof.
  unfold basis_row, amul, smul, pow1mqi_at, EvenLegendreP, JacobiP.
  rewrite select_a_map, !map_map, !azip_map.
  apply map_ext. intros pt. reflexivity.
Qed.

Lemma emit_row_ok (i j k : Z) (done : list (Z * Z * Z)) (m : eval_mem) :
  ok done i m ->
  Z.of_nat (length done) < Z.of_nat (length out0) ->
  exists m',
    emit_row jpa (jpb i) jpc i j k m = Ok (tt, m')
    /\ ok (done ++ [(i, j, k)]) i m'.
Proof.
  intros (Hoff & Hout & Hp2 & Hp1 & Htr & Hev) Hlt.
  destruct m as [off out p2 p1 tr].
  cbn [ev_off ev_out ev_pow2ip1 ev_pow1mqi ev_trace] in *. subst.
  unfold emit_row. cbn [ev_off ev_out ev_pow2ip1 ev_pow1mqi ev_trace].
  rewrite row_closed_form.
  rewrite store_overwrite by (rewrite ?length_map; lia).
  eexists. split; [reflexivity|].
  unfold eval_ok. cbn [ev_off ev_out ev_pow2ip1 ev_pow1mqi ev_trace].
  repeat split.
  - rewrite length_app. cbn [length]. lia.
  - now rewrite map_app.
  - rewrite trace_rows_app, number_from_app, Htr. reflexivity.
  - apply Forall_app. split; [exact Hev|]. repeat constructor.
Qed.

Lemma k_loop_ok (i j : Z) (ks : list Z) :
  forall (done : list (Z * Z * Z)) (m : eval_mem),
    ok done i m ->
    Z.of_nat (length done) + Z.of_nat (length ks)
    <= Z.of_nat (length out0) ->
    exists m',
      each (fun k => emit_row jpa (jpb i) jpc i j k) ks m = Ok (tt, m')
      /\ ok (done ++ map (fun k => (i, j, k)) ks) i m'.
Proof.
  induction ks as [|k ks IH]; intros done m Hok Hlen.
  - exists m. split; [reflexivity|]. now rewrite app_nil_r.
  - cbn [length] in Hlen.
    destruct (emit_row_ok i j k done m Hok ltac:(lia)) as (m1 & E1 & Hok1).
    destruct (IH _ m1 Hok1) as (m2 & E2 & Hok2).
    { rewrite length_app. cbn [length]. lia. }
    exists m2. split.
    + cbn [each]. unfold bind. now rewrite E1.
    + cbn [map]. now rewrite <- app_assoc in Hok2.
Qed.

Lemma j_loop_ok (i : Z) (js : list Z) :
  forall (done : list (Z * Z * Z)) (m : eval_mem),
    ok done i m ->
    Z.of_nat (length done)
    + Z.of_nat (length (flat_map (fun j => triples_j i j) js))
    <= Z.of_nat (length out0) ->
    exists m',
      each (fun j =>
              for_leM 2 (qdeg - i - j)
                (fun k => emit_row jpa (jpb i) jpc i j k) 0) js m
      = Ok (tt, m')
      /\ ok (done ++ flat_map (fun j => triples_j i j) js) i m'.
Proof.
  induction js as [|j js IH]; intros done m Hok Hlen.
  - exists m. split; [reflexivity|]. now rewrite app_nil_r.
  - cbn [flat_map] in Hlen. rewrite length_app, length_map in Hlen.
    destruct (k_loop_ok i j (range_le 2 (qdeg - i - j) 0) done m Hok)
      as (m1 & E1 & Hok1); [lia|].
    destruct (IH _ m1 Hok1) as (m2 & E2 & Hok2).
    { rewrite length_app, length_map. lia. }
    exists m2. split.
    + cbn [each]. unfold bind. now rewrite for_leM_each, E1.
    + cbn [flat_map]. now rewrite <- app_assoc in Hok2.
Qed.

Lemma note_outer_ok (i : Z) (done : list (Z * Z * Z)) (m : eval_mem) :
  ok done i m ->
  exists m', note_outer i m = Ok (tt, m') /\ ok done i m'.
Proof.
  intros (Hoff & Hout & Hp2 & Hp1 & Htr & Hev).
  eexists. split; [reflexivity|].
  unfold eval_ok. cbn [ev_off ev_out ev_pow2ip1 ev_pow1mqi ev_trace].
  repeat split; try assumption.
  - rewrite trace_rows_app, Htr. cbn [trace_rows]. apply app_nil_r.
  - apply Forall_app. split; [exact Hev|].
    constructor; [|constructor]. now split.
Qed.

Lemma step_powers_ok (i : Z) (done : list (Z * Z * Z)) (m : eval_mem) :
  0 <= i ->
  ok done i m ->
  exists m',
    step_powers (map v3_y pqr) m = Ok (tt, m') /\ ok done (i + 2) m'.
Proof.
  intros Hi (Hoff & Hout & Hp2 & Hp1 & Htr & Hev).
  eexists. split; [reflexivity|].
  unfold eval_ok. cbn [ev_off ev_out ev_pow2ip1 ev_pow1mqi ev_trace].
  repeat split; try assumption.
  - now rewrite pow2ip1_at_step, Hp2.
  - now rewrite pow1mqi_at_step, Hp1.
Qed.

Local Abbreviation outer_body :=
  (fun i =>
     note_outer i ;;
     for_leM 1 (qdeg - i)
       (fun j =>
          for_leM 2 (qdeg - i - j)
            (fun k => emit_row jpa (jpb i) jpc i j k) 0) i ;;
     step_powers (map v3_y pqr)).

Lemma outer_body_ok (i : Z) (done : list (Z * Z * Z)) (m : eval_mem) :
  0 <= i ->
  ok done i m ->
  Z.of_nat (length done) + Z.of_nat (length (triples_i i))
  <= Z.of_nat (length out0) ->
  exists m',
    outer_body i m = Ok (tt, m') /\ ok (done ++ triples_i i) (i + 2) m'.
Proof.
  intros Hi Hok Hlen.
  destruct (note_outer_ok i done m Hok) as (m1 & E1 & Hok1).
  destruct (j_loop_ok i (range_le 1 (qdeg - i) i) done m1 Hok1 Hlen)
    as (m2 & E2 & Hok2).
  destruct (step_powers_ok i _ m2 Hi Hok2) as (m3 & E3 & Hok3).
  exists m3. split; [|exact Hok3].
  unfold bind. rewrite E1, for_leM_each, E2. exact E3.
Qed.

Lemma i_loop_ok (i : Z) :
  0 <= i ->
  forall (done : list (Z * Z * Z)) (m : eval_mem),
    ok done i m ->
    Z.of_nat (length done)
    + Z.of_nat (length (flat_map (fun i => triples_i i)
                          (range_le 2 qdeg i)))
    <= Z.of_nat (length out0) ->
    exists m' i',
      for_leM 2 qdeg outer_body i m = Ok (tt, m')
      /\ ok (done ++ flat_map (fun i => triples_i i) (range_le 2 qdeg i))
            i' m'.
Proof.
  pattern i. apply (loop_ind 2 qdeg); clear i.
  - intros i Hgt Hi done m Hok _.
    exists m, i. rewrite for_leM_step, range_le_step.
    destruct (Z_le_dec i qdeg); [lia|].
    split; [reflexivity|]. cbn [flat_map]. now rewrite app_nil_r.
  - intros i Hle IH Hi done m Hok Hlen.
    rewrite range_le_step in Hlen |- *.
    rewrite for_leM_step.
    destruct (Z_le_dec i qdeg); [|lia].
    cbn [flat_map] in Hlen |- *. rewrite length_app in Hlen.
    destruct (outer_body_ok i done m Hi Hok) as (m1 & E1 & Hok1); [lia|].
    destruct (IH ltac:(lia) _ m1 Hok1) as (m2 & i' & E2 & Hok2).
    { rewrite length_app. lia. }
    exists m2, i'. split.
    + unfold bind at 1. now rewrite E1.
    + now rewrite <- app_assoc in Hok2.
Qed.

Lemma eval_orthob_block_run :
  nbfn_for_qdeg qdeg <= Z.of_nat (length out0) ->
  exists m' i',
    eval_orthob_block EvenLegendre Jacobi qdeg pqr out0 = Ok (tt, m')
    /\ ok (degree_triples qdeg) i' m'.
Proof.
  intros Hlen. rewrite nbfn_for_qdeg_count in Hlen.
  unfold eval_orthob_block.
  apply (i_loop_ok 0 ltac:(lia) []).
  - unfold eval_ok. cbn [ev_off ev_out ev_pow2ip1 ev_pow1mqi ev_trace].
    split; [reflexivity|]. split; [reflexivity|].
    split; [now rewrite pow2ip1_at_0|].
    split; [now rewrite constant_map, pow1mqi_at_0|].
    split; [reflexivity | constructor].
  - cbn [length]. exact Hlen.
Qed.

End BasisFacts.

(** Every outer iteration leaves its event in the trace. *)

Lemma trace_outers_app (tr1 tr2 : list eval_event) :
  trace_outers (tr1 ++ tr2) = trace_outers tr1 ++ trace_outers tr2.
Proof.
  induction tr1 as [|[i x y | off i j k] tr1 IH]; cbn; [reflexivity | |];
    now rewrite IH.
Qed.

Lemma each_outers (body : Z -> M eval_mem unit) (f : Z -> list Z) :
  (forall i m m',
      body i m = Ok (tt, m') ->
      trace_outers (ev_trace m') = trace_outers (ev_trace m) ++ f i) ->
  forall l m m',
    each body l m = Ok (tt, m') ->
    trace_outers (ev_trace m')
    = trace_outers (ev_trace m) ++ flat_map f l.
Proof.
  intros Hbody. induction l as [|i l IH]; intros m m' E; cbn [each] in E.
  - injection E as <-. cbn. now rewrite app_nil_r.
  - unfold bind in E. destruct (body i m) as [[[] m1]| |] eqn:E1;
      try discriminate E.
    apply IH in E. apply Hbody in E1.
    rewrite E, E1. cbn [flat_map]. now rewrite app_assoc.
Qed.

Lemma flat_map_nil {A B : Type} (l : list A) :
  flat_map (fun _ : A => @nil B) l = [].
Proof. induction l as [|x l IH]; cbn; auto. Qed.

Lemma flat_map_single {A : Type} (l : list A) :
  flat_map (fun x : A => [x]) l = l.
Proof. induction l as [|x l IH]; cbn; [reflexivity | now rewrite IH]. Qed.

Lemma eval_orthob_block_outers (EvenLegendre : Z -> T -> T)
    (Jacobi : Z -> Z -> Z -> T -> T) (qdeg : Z) (pqr : list Vector3T)
    (out : list ArrayT) (m' : eval_mem) :
  eval_orthob_block EvenLegendre Jacobi qdeg pqr out = Ok (tt, m') ->
  trace_outers (ev_trace m') = range_le 2 qdeg 0.
Proof.
  unfold eval_orthob_block. rewrite for_leM_each. intros E.
  apply (each_outers _ (fun i => [i])) in E.
  - rewrite E. cbn [ev_trace trace_outers app]. apply flat_map_single.
  - clear. intros i m m' E. unfold bind in E. cbn [note_outer] in E.
    match type of E with
    | match ?c ?s with _ => _ end = _ =>
        destruct (c s) as [[[] m1]| |] eqn:E1; try discriminate E
    end.
    unfold step_powers in E. injection E as <-. cbn [ev_trace].
    rewrite for_leM_each in E1.
    apply (each_outers _ (fun _ => [])) in E1.
    + rewrite E1, flat_map_nil, app_nil_r. cbn [ev_trace].
      now rewrite trace_outers_app.
    + clear. intros j m m' E. rewrite for_leM_each in E.
      apply (each_outers _ (fun _ => [])) in E.
      * now rewrite E, flat_map_nil.
      * clear. intros k m m' E. unfold emit_row in E.
        destruct (store _ _ _); [|discriminate E].
        injection E as <-. cbn [ev_trace].
        rewrite trace_outers_app. reflexivity.
Qed.

Lemma degree_triples_In (qdeg i j k : Z) :
  In (i, j, k) (degree_triples qdeg)
  <-> (0 <= i <= qdeg /\ Z.even i = true)
      /\ i <= j <= qdeg - i
      /\ (0 <= k <= qdeg - i - j /\ Z.even k = true).
Proof.
  assert (Heven : forall x, (2 | x - 0) <-> Z.even x = true).
  { intros x. rewrite Z.sub_0_r, Z.even_spec. split; intros [q Hq];
      exists q; lia. }
  unfold degree_triples. rewrite in_flat_map. split.
  - intros (i' & Hi & Hin). rewrite in_flat_map in Hin.
    destruct Hin as (j' & Hj & Hin). rewrite in_map_iff in Hin.
    destruct Hin as (k' & E & Hk). injection E as -> -> ->.
    apply range_le_In in Hi, Hj, Hk.
    rewrite (Heven i) in Hi. rewrite (Heven k) in Hk. tauto.
  - intros (Hi & Hj & Hk). exists i. split.
    + apply range_le_In. now rewrite (Heven i).
    + rewrite in_flat_map. exists j. split.
      * apply range_le_In. split; [exact Hj|]. exists (j - i). lia.
      * rewrite in_map_iff. exists k. split; [reflexivity|].
        apply range_le_In. now rewrite (Heven k).
Qed.

Lemma number_from_snd {A : Type} (n : Z) (l : list A) :
  map snd (number_from n l) = l.
Proof.
  revert n. induction l as [|x l IH]; intros n; cbn; [reflexivity|].
  now rewrite IH.
Qed.

(** ** Machine integers *)

Lemma range_le_length (step : positive) (hi i : Z) :
  Z.of_nat (length (range_le step hi i)) <= Z.max 0 (hi - i + 1).
Proof.
  pattern i. apply (loop_ind step hi); clear i.
  - intros i Hi. rewrite range_le_step.
    destruct (Z_le_dec i hi); [lia|]. cbn [length]. lia.
  - intros i Hi IH. rewrite range_le_step.
    destruct (Z_le_dec i hi); [|lia]. cbn [length]. lia.
Qed.

Lemma flat_map_length_le {A B : Type} (f : A -> list B) (l : list A)
    (c : Z) :
  0 <= c ->
  (forall x, In x l -> Z.of_nat (length (f x)) <= c) ->
  Z.of_nat (length (flat_map f l)) <= Z.of_nat (length l) * c.
Proof.
  intros Hc. induction l as [|x l IH]; intros H; cbn [flat_map length].
  - lia.
  - rewrite length_app.
    assert (Hx := H x (or_introl eq_refl)).
    assert (Hl := IH (fun y Hy => H y (or_intror Hy))).
    lia.
Qed.

(** For the degrees below 500 every integer the two loop nests compute,
    the count of basis functions and the product under the square root
    included, fits a 32-bit [int]: the unbounded integers of the embedding
    are the machine's there. *)
Lemma int_range (d : Z) :
  0 <= d <= 500 ->
  0 <= nbfn_for_qdeg d < 2 ^ 31
  /\ (forall i j k,
        In (i, j, k) (degree_triples d) ->
        0 <= (2 * i + 1) * (2 * k + 1) * (i + j + 1) < 2 ^ 31).
Proof.
  intros Hd. split.
  - rewrite nbfn_for_qdeg_count. split; [lia|].
    assert (H : Z.of_nat (length (degree_triples d))
                <= (d + 1) * ((d + 1) * (d + 1))).
    { unfold degree_triples.
      etransitivity.
      - apply (flat_map_length_le _ _ ((d + 1) * (d + 1))); [lia|].
        intros i Hi. apply range_le_In in Hi.
        etransitivity.
        + apply (flat_map_length_le _ _ (d + 1)); [lia|].
          intros j Hj. apply range_le_In in Hj. rewrite length_map.
          assert (H := range_le_length 2 (d - i - j) 0). lia.
        + assert (H := range_le_length 1 (d - i) i). nia.
      - assert (H := range_le_length 2 d 0). nia. }
    nia.
  - intros i j k Hin. apply degree_triples_In in Hin.
    destruct Hin as ((Hi & _) & Hj & (Hk & _)).
    assert (0 <= 2 * i + 1 <= 1001) by lia.
    assert (0 <= 2 * k + 1 <= 1001) by lia.
    assert (0 <= i + j + 1 <= 501) by lia.
    assert (0 <= (2 * i + 1) * (2 * k + 1) <= 1001 * 1001) by nia.
    split; [nia|].
    assert ((2 * i + 1) * (2 * k + 1) * (i + j + 1) <= 1001 * 1001 * 501)
      by nia.
    lia.
Qed.

(** The loops of step 2 run over every other integer: twice the number of
    iterations is at most the width of the range plus 2. *)
Lemma range_le_length_step (step : positive) (hi i : Z) :
  Z.pos step * Z.of_nat (length (range_le step hi i))
  <= Z.max 0 (hi - i + Z.pos step).
Proof.
  pattern i. apply (loop_ind step hi); clear i.
  - intros i Hi. rewrite range_le_step.
    destruct (Z_le_dec i hi); [lia|]. cbn [length]. lia.
  - intros i Hi IH. rewrite range_le_step.
    destruct (Z_le_dec i hi); [|lia]. cbn [length]. nia.
Qed.

(** The rows of one outer index [i], counted from the middle index [j]
    on. *)
Lemma rows_of_i_length (d i j : Z) :
  -1 <= d - i - j ->
  4 * Z.of_nat
        (length
           (flat_map
              (fun j' => map (fun k => (i, j', k)) (range_le 2 (d - i - j') 0))
              (range_le 1 (d - i) j)))
  <= (d - i - j + 1) * (d - i - j + 4).
Proof.
  pattern j. apply (loop_ind 1 (d - i)); clear j.
  - intros j Hj Hh. rewrite range_le_step.
    destruct (Z_le_dec j (d - i)); [lia|]. cbn [flat_map length]. nia.
  - intros j Hj IH Hh. rewrite range_le_step.
    destruct (Z_le_dec j (d - i)); [|lia]. cbn [flat_map].
    rewrite length_app, length_map.
    assert (Hk := range_le_length_step 2 (d - i - j) 0).
    assert (IH' := IH ltac:(lia)).
    replace (d - i - (j + Z.pos 1)) with (d - i - j - 1) in IH' by lia.
    rewrite Nat2Z.inj_add. nia.
Qed.

(** The rows of the whole nest, counted from the outer index [i] on. *)
Lemma rows_from_i_length (d i : Z) :
  96 * Z.of_nat
         (length
            (flat_map
               (fun i' =>
                  flat_map
                    (fun j => map (fun k => (i', j, k))
                                (range_le 2 (d - i' - j) 0))
                    (range_le 1 (d - i') i'))
               (range_le 2 d i)))
  <= (if d - 2 * i <? 0 then 0
      else 2 * (d - 2 * i) * (d - 2 * i) * (d - 2 * i)
           + 27 * (d - 2 * i) * (d - 2 * i) + 100 * (d - 2 * i) + 111).
Proof.
  pattern i. apply (loop_ind 2 d); clear i.
  - intros i Hi. rewrite range_le_step.
    destruct (Z_le_dec i d); [lia|]. cbn [flat_map length].
    destruct (d - 2 * i <? 0) eqn:E; [lia|]. apply Z.ltb_ge in E.
    set (m := d - 2 * i) in *.
    assert (H2 : 0 <= m * m) by nia.
    assert (H3 : 0 <= m * m * m) by nia.
    lia.
  - intros i Hi IH. rewrite range_le_step.
    destruct (Z_le_dec i d); [|lia]. cbn [flat_map].
    rewrite length_app, Nat2Z.inj_add.
    replace (d - 2 * (i + Z.pos 2)) with (d - 2 * i - 4) in IH by lia.
    set (m := d - 2 * i) in *.
    set (rest := Z.of_nat (length (flat_map _ (range_le 2 d (i + Z.pos 2)))))
      in *.
    destruct (m <? 0) eqn:E.
    + apply Z.ltb_lt in E.
      rewrite (range_le_step 1 (d - i) i).
      destruct (Z_le_dec i (d - i)); [lia|]. cbn [flat_map length].
      destruct (m - 4 <? 0) eqn:E'; [lia|]. apply Z.ltb_ge in E'. lia.
    + apply Z.ltb_ge in E.
      assert (Hi' := rows_of_i_length d i i ltac:(lia)).
      replace (d - i - i) with m in Hi' by lia.
      set (here := Z.of_nat (length (flat_map _ (range_le 1 (d - i) i))))
        in *.
      destruct (m - 4 <? 0) eqn:E'.
      * apply Z.ltb_lt in E'.
        assert (Hm : m = 0 \/ m = 1 \/ m = 2 \/ m = 3) by lia.
        destruct Hm as [-> | [-> | [-> | ->]]]; lia.
      * apply Z.ltb_ge in E'. nia.
Qed.

(** Up to degree 4684 the count of basis functions fits a 32-bit [int]
    (it is 2146453540 at degree 4684 and passes [2^31] at 4685). *)
Lemma count_in_int (d : Z) :
  d <= 4684 -> 0 <= nbfn_for_qdeg d < 2 ^ 31.
Proof.
  intros Hd. rewrite nbfn_for_qdeg_count. split; [lia|].
  assert (H := rows_from_i_length d 0). fold (degree_triples d) in H.
  replace (d - 2 * 0) with d in H by lia.
  destruct (d <? 0) eqn:E; [lia|]. apply Z.ltb_ge in E.
  assert (H2 : d * d <= 4684 * 4684) by nia.
  assert (H3 : d * d * d <= 4684 * 4684 * 4684) by nia.
  lia.
Qed.

(** Up to degree 1933 the product under the square root of the
    coefficient fits a 32-bit [int] for every index triple of the nest (at
    degree 1934 the triple (638, 638, 658) gives 2147670093). *)
Lemma coefficient_in_int (d i j k : Z) :
  d <= 1933 ->
  In (i, j, k) (degree_triples d) ->
  0 <= (2 * i + 1) * (2 * k + 1) * (i + j + 1) < 2 ^ 31.
Proof.
  intros Hd Hin. apply degree_triples_In in Hin.
  destruct Hin as ((Hi & _) & Hj & (Hk & _)).
  set (u := 2 * i + 1). set (v := 2 * k + 1). set (w := i + j + 1).
  set (c := 2 * d + 3).
  assert (Hu : 0 <= u <= w) by lia.
  assert (Hv : 0 <= v <= c - 2 * w) by lia.
  assert (Hw : 1 <= w) by lia.
  assert (Hc : 0 <= c <= 3869) by lia.
  change ((2 * i + 1) * (2 * k + 1) * (i + j + 1)) with (u * v * w).
  clearbody u v w c. clear Hd Hi Hj Hk i j k d.
  assert (H1 : 0 <= u * v <= w * (c - 2 * w)) by nia.
  assert (H2 : 0 <= u * v * w <= w * (c - 2 * w) * w) by nia.
  assert (H3 : 0 <= (c - 3 * w) * (c - 3 * w) * (c + 6 * w)).
  { apply Z.mul_nonneg_nonneg; [apply Z.square_nonneg | lia]. }
  assert (H4 : 27 * (w * (c - 2 * w) * w) <= c * c * c).
  { replace (c * c * c)
      with (27 * (w * (c - 2 * w) * w)
            + (c - 3 * w) * (c - 3 * w) * (c + 6 * w)) by ring.
    lia. }
  assert (H5 : c * c <= 3869 * 3869) by nia.
  assert (H6 : c * c * c <= 3869 * 3869 * 3869) by nia.
  lia.
Qed.

Lemma trace_rows_In_iff (tr : list eval_event) (off i j k : Z) :
  In (EvRow off i j k) tr <-> In (off, (i, j, k)) (trace_rows tr).
Proof.
  split; [apply trace_rows_In|].
  induction tr as [|[i' x y | off' i' j' k'] tr IH]; cbn [In trace_rows].
  - tauto.
  - intros H. right. now apply IH.
  - intros [E | Hin]; [injection E as -> -> -> ->; now left|].
    right. now apply IH.
Qed.

(** C2.  For a degree [qdeg] up to 1933, the range in which the product
    [(2i+1)(2k+1)(i+j+1)] that the source forms in [int] stays below
    [2^31], and an output block with room for the rows of that degree,
    [eval_orthob_block] returns, and every row it assigns for an index
    triple [(i, j, k)] holds, at every point [(p, q, r)] of the batch, the
    value [C_ijk * (1-q)^i * EvenLegendre_i(a) * Jacobi_j^(2i+1,0)(q)
    * EvenLegendre_k(r)] with [C_ijk = 2^(-i-1) * sqrt((2i+1)(2k+1)(i+j+1))]
    and [a = 2(1+p)/(1-q) - 1] for [q <> 1], [a = 0] otherwise.  At the
    start of every outer iteration, [i = 0, 2, ..] up to [qdeg],
    [pow2ip1 = 2^(-i-1)] and [pow1mqi = (1-q)^i].  The rows are those of
    the index triples of the nest in order, and the product of every one of
    them, its row index and the number of rows are values of a 32-bit
    [int]. *)
Theorem eval_orthob_block_values (EvenLegendre : Z -> T -> T)
    (Jacobi : Z -> Z -> Z -> T -> T) (qdeg : Z) (pqr : list Vector3T)
    (out : list ArrayT) :
  qdeg <= 1933 ->
  nbfn_for_qdeg qdeg <= Z.of_nat (length out) ->
  exists m',
    eval_orthob_block EvenLegendre Jacobi qdeg pqr out = Ok (tt, m')
    /\ (forall off i j k,
          In (EvRow off i j k) (ev_trace m') ->
          load (ev_out m') off
          = Some (map (basis_value EvenLegendre Jacobi i j k) pqr))
    /\ (forall i j k pt,
          basis_value EvenLegendre Jacobi i j k pt
          = (powerRZ 2 (- i - 1)
             * sqrt (IZR ((2 * i + 1) * (2 * k + 1) * (i + j + 1)))
             * powerRZ (1 - v3_y pt) i
             * EvenLegendre i
                 (if Req_dec_T (v3_y pt) 1 then 0
                  else 2 * (1 + v3_x pt) / (1 - v3_y pt) - 1)
             * Jacobi (2 * i + 1)%Z 0%Z j (v3_y pt)
             * EvenLegendre k (v3_z pt))%R)
    /\ map snd (trace_rows (ev_trace m')) = degree_triples qdeg
    /\ trace_outers (ev_trace m') = range_le 2 qdeg 0
    /\ (forall i x y,
          In (EvOuter i x y) (ev_trace m') ->
          x = powerRZ 2 (- i - 1)
          /\ y = map (fun pt => powerRZ (1 - v3_y pt) i) pqr)
    /\ trace_rows (ev_trace m') = number_from 0 (degree_triples qdeg)
    /\ (forall off i j k,
          In (EvRow off i j k) (ev_trace m') ->
          0 <= (2 * i + 1) * (2 * k + 1) * (i + j + 1) < 2 ^ 31
          /\ 0 <= off < nbfn_for_qdeg qdeg)
    /\ nbfn_for_qdeg qdeg < 2 ^ 31.
Proof.
  intros Hdeg Hlen.
  destruct (eval_orthob_block_run EvenLegendre Jacobi qdeg pqr out Hlen)
    as (m' & i' & E & Hoff & Hout & Hp2 & Hp1 & Htr & Hev).
  exists m'. split; [exact E|].
  assert (Hint := count_in_int qdeg ltac:(lia)).
  rewrite nbfn_for_qdeg_count in Hlen.
  split; [|split; [|split; [|split; [|split; [|split; [|split]]]]]].
  - intros off i j k Hin.
    apply trace_rows_In in Hin. rewrite Htr in Hin.
    apply number_from_In in Hin. destruct Hin as [H0 Hnth].
    rewrite Hout.
    apply (load_overwrite_inside _ _ _ _ (Z.to_nat (off - 0))).
    + lia.
    + rewrite length_map. lia.
    + rewrite nth_error_map, Hnth. reflexivity.
    + lia.
  - intros i j k pt. reflexivity.
  - now rewrite Htr, number_from_snd.
  - now apply eval_orthob_block_outers in E.
  - intros i x y Hin. rewrite Forall_forall in Hev.
    exact (Hev _ Hin).
  - exact Htr.
  - intros off i j k Hin.
    apply trace_rows_In in Hin. rewrite Htr in Hin.
    apply number_from_In in Hin. destruct Hin as [H0 Hnth].
    split.
    + apply (coefficient_in_int qdeg i j k Hdeg).
      now apply nth_error_In in Hnth.
    + rewrite nbfn_for_qdeg_count.
      assert (Hlt : (Z.to_nat (off - 0) < length (degree_triples qdeg))%nat).
      { apply nth_error_Some. rewrite Hnth. discriminate. }
      lia.
  - lia.
Qed.

Lemma eval_orthob_block_values_witness :
  exists m',
    eval_orthob_block (fun n x => (x + 2)%R) (fun a b n x => (x + 1)%R) 4
      [mkVector3T 0 0 0; mkVector3T 0.5 1 0.25]
      (repeat [] 10)
    = Ok (tt, m')
    /\ In (EvRow 9 2 2 0) (ev_trace m')
    /\ load (ev_out m') 9 = Some [(15 / 4)%R; 0%R]
    /\ In (EvRow 0 0 0 0) (ev_trace m')
    /\ load (ev_out m') 0 = Some [3%R; (9 / 2)%R]
    /\ trace_outers (ev_trace m') = [0; 2; 4]
    /\ 0 <= (2 * 2 + 1) * (2 * 0 + 1) * (2 + 2 + 1) < 2 ^ 31.
Proof.
  destruct (eval_orthob_block_values
              (fun n x => (x + 2)%R) (fun a b n x => (x + 1)%R) 4
              [mkVector3T 0 0 0; mkVector3T 0.5 1 0.25] (repeat [] 10))
    as (m' & E & Hrow & _ & _ & Hout & _ & Htr & Hint & _).
  - lia.
  - vm_compute. discriminate.
  - exists m'. split; [exact E|].
    assert (H9 : In (EvRow 9 2 2 0) (ev_trace m')).
    { apply trace_rows_In_iff. rewrite Htr. vm_compute. tauto. }
    assert (H0 : In (EvRow 0 0 0 0) (ev_trace m')).
    { apply trace_rows_In_iff. rewrite Htr. vm_compute. tauto. }
    split; [exact H9|]. split; [|split; [exact H0|split; [|split]]].
    + rewrite (Hrow _ _ _ _ H9). f_equal. cbn [map].
      unfold basis_value, C_ijk, remap_a. cbn [v3_x v3_y v3_z].
      destruct (Req_dec_T 0 1) as [N|_]; [exfalso; lra|].
      destruct (Req_dec_T 1 1) as [_|N]; [|contradiction].
      change ((2 * 2 + 1) * (2 * 0 + 1) * (2 + 2 + 1)) with 25.
      replace (IZR 25) with (5 * 5)%R by lra.
      rewrite sqrt_square by lra.
      change (powerRZ 2 (Z.opp 2 - 1)) with (/ (2 * (2 * (2 * 1))))%R.
      change (powerRZ (1 - 0) 2) with ((1 - 0) * ((1 - 0) * 1))%R.
      change (powerRZ (1 - 1) 2) with ((1 - 1) * ((1 - 1) * 1))%R.
      f_equal; [unfold T; field | f_equal; unfold T; ring].
    + rewrite (Hrow _ _ _ _ H0). f_equal. cbn [map].
      unfold basis_value, C_ijk, remap_a. cbn [v3_x v3_y v3_z].
      destruct (Req_dec_T 0 1) as [N|_]; [exfalso; lra|].
      destruct (Req_dec_T 1 1) as [_|N]; [|contradiction].
      change ((2 * 0 + 1) * (2 * 0 + 1) * (0 + 0 + 1)) with 1.
      rewrite sqrt_1.
      change (powerRZ 2 (- 0 - 1)) with (/ (2 * 1))%R.
      change (powerRZ (1 - 0) 0) with 1%R.
      change (powerRZ (1 - 1) 0) with 1%R.
      f_equal; [unfold T; lra | f_equal; unfold T; lra].
    + exact Hout.
    + exact (proj1 (Hint _ _ _ _ H9)).
Defined.

(** C3.  For every degree [d], [nbfn_for_qdeg d] is the final value of the
    counter [off] of [eval_orthob_block] run at degree [d], the rows
    assigned being rows [0 .. nbfn_for_qdeg d - 1], one per index triple of
    the loop nest ([i] even from 0 to [d], [j] from [i] to [d - i], [k] even
    from 0 to [d - i - j]) that the two functions share;
    [nbfn_for_qdeg 0 = 1]. *)
Theorem nbfn_for_qdeg_rows (EvenLegendre : Z -> T -> T)
    (Jacobi : Z -> Z -> Z -> T -> T) (d : Z) (pqr : list Vector3T)
    (out : list ArrayT) :
  (nbfn_for_qdeg d <= Z.of_nat (length out) ->
   exists m',
     eval_orthob_block EvenLegendre Jacobi d pqr out = Ok (tt, m')
     /\ ev_off m' = nbfn_for_qdeg d
     /\ map fst (trace_rows (ev_trace m')) = indices 0 (nbfn_for_qdeg d)
     /\ map snd (trace_rows (ev_trace m')) = degree_triples d)
  /\ nbfn_for_qdeg d = Z.of_nat (length (degree_triples d))
  /\ (forall i j k,
        In (i, j, k) (degree_triples d)
        <-> (0 <= i <= d /\ Z.even i = true)
            /\ i <= j <= d - i
            /\ (0 <= k <= d - i - j /\ Z.even k = true))
  /\ nbfn_for_qdeg 0 = 1
  /\ map nbfn_for_qdeg [0; 1; 2; 3; 4; 5; 6; 7; 8]
     = [1; 2; 4; 6; 10; 14; 20; 26; 35].
Proof.
  split; [|split; [|split; [|split]]].
  - intros Hlen.
    destruct (eval_orthob_block_run EvenLegendre Jacobi d pqr out Hlen)
      as (m' & i' & E & Hoff & Hout & Hp2 & Hp1 & Htr & Hev).
    exists m'. rewrite nbfn_for_qdeg_count.
    split; [exact E|]. split; [exact Hoff|].
    rewrite Htr. split; [apply number_from_fst | apply number_from_snd].
  - apply nbfn_for_qdeg_count.
  - apply degree_triples_In.
  - reflexivity.
  - reflexivity.
Qed.

Lemma nbfn_for_qdeg_rows_witness :
  exists m',
    eval_orthob_block (fun n x => x) (fun a b n x => x) 3
      [mkVector3T 0 0 0] (repeat [] 6)
    = Ok (tt, m')
    /\ ev_off m' = nbfn_for_qdeg 3
    /\ map fst (trace_rows (ev_trace m')) = indices 0 (nbfn_for_qdeg 3)
    /\ map snd (trace_rows (ev_trace m')) = degree_triples 3.
Proof.
  apply (nbfn_for_qdeg_rows (fun n x => x) (fun a b n x => x) 3
           [mkVector3T 0 0 0] (repeat [] 6)).
  vm_compute. discriminate.
Defined.

(** * Further properties of the orbit model *)

(** ** The conversion *)

Lemma bary_to_cart_plane (p1 p2 p3 z : T) :
  (p1 + p2 + p3 = 1)%R ->
  bary_to_cart p1 p2 p3 z = mkVector3T (2 * p2 - 1)%R (2 * p3 - 1)%R z.
Proof.
  intros H. unfold bary_to_cart. f_equal; lra.
Qed.

(** X1.  On barycentric triples that sum to 1, [bary_to_cart] is injective
    (the triple and the axial coordinate are recovered from the point) and
    the image lies in the prism exactly when the three coordinates are
    non-negative and the axial one is in [[-1, 1]]; without the sum
    condition it is not injective. *)
Theorem bary_to_cart_faithful (p1 p2 p3 z q1 q2 q3 w : T) :
  (p1 + p2 + p3 = 1)%R ->
  (q1 + q2 + q3 = 1)%R ->
  (bary_to_cart p1 p2 p3 z = bary_to_cart q1 q2 q3 w ->
   p1 = q1 /\ p2 = q2 /\ p3 = q3 /\ z = w)
  /\ (in_prism (bary_to_cart p1 p2 p3 z)
      <-> (0 <= p1)%R /\ (0 <= p2)%R /\ (0 <= p3)%R /\ (-1 <= z <= 1)%R)
  /\ bary_to_cart 1 1 1 z = bary_to_cart 1 0 0 z.
Proof.
  intros Hp Hq. split; [|split].
  - rewrite !bary_to_cart_plane by assumption.
    intros E. injection E as E1 E2 E3. repeat split; lra.
  - rewrite bary_to_cart_plane by assumption.
    unfold in_prism. cbn [v3_x v3_y v3_z]. split; intros H; repeat split; lra.
  - unfold bary_to_cart. f_equal; lra.
Qed.

Lemma bary_to_cart_faithful_witness :
  (bary_to_cart 0.2 0.3 0.5 0 = bary_to_cart 0.2 0.3 0.5 0 ->
   0.2 = 0.2 /\ 0.3 = 0.3 /\ 0.5 = 0.5 /\ 0 = 0)%R
  /\ (in_prism (bary_to_cart 0.2 0.3 0.5 0)
      <-> (0 <= 0.2)%R /\ (0 <= 0.3)%R /\ (0 <= 0.5)%R /\ (-1 <= 0 <= 1)%R)
  /\ bary_to_cart 1 1 1 0 = bary_to_cart 1 0 0 0.
Proof.
  apply (bary_to_cart_faithful 0.2 0.3 0.5 0 0.2 0.3 0.5 0)%R; lra.
Defined.

(** ** The rows of an expansion *)

Lemma orbit_points_length (i : Z) (s : list T) :
  0 <= i <= 5 ->
  length s = Z.to_nat (table_at narg_for_orbit i) ->
  Z.of_nat (length (orbit_points i s)) = table_at npts_for_orbit i.
Proof.
  intros Hi Hlen. set (n := Z.to_nat (table_at narg_for_orbit i)) in Hlen.
  orbit_cases i Hi; vm_compute in n; subst n; explode_slice Hlen;
    reflexivity.
Qed.

Lemma expand_orbit_rows (i aoff poff : Z) (m : expand_mem) :
  0 <= i <= 5 ->
  window_ok aoff (table_at narg_for_orbit i) (em_args m) ->
  window_ok poff (table_at npts_for_orbit i) (em_pts m) ->
  exists m',
    expand_orbit i aoff poff m = Ok (tt, m')
    /\ slice poff (table_at npts_for_orbit i) (em_pts m')
       = orbit_points i (slice aoff (table_at narg_for_orbit i) (em_args m))
    /\ em_pts m'
       = overwrite poff
           (orbit_points i
              (slice aoff (table_at narg_for_orbit i) (em_args m)))
           (em_pts m)
    /\ em_args m' = em_args m.
Proof.
  intros Hi Ha Hp.
  eexists. split; [apply expand_orbit_run; assumption|].
  cbn [em_args em_pts]. split; [|split; reflexivity].
  assert (Hn := narg_nonneg i Hi).
  assert (Hlen := slice_length (em_args m) aoff _ Hn Ha).
  assert (Hrows := orbit_points_length i _ Hi Hlen).
  destruct Hp as [P0 P1]. apply slice_overwrite; lia.
Qed.

Lemma orbit_points_in_prism (i : Z) (s : list T) :
  orbit_domain i s -> Forall in_prism (orbit_points i s).
Proof.
  unfold orbit_domain, orbit_points, arrangements.
  destruct i as [|p|p]; try tauto.
  all: do 3 (try match goal with q : positive |- _ => destruct q end;
             try tauto).
  all: destruct s as [|a [|b [|c [|d s]]]]; try tauto.
  all: intros H; cbn [map app]; unfold in_prism, bary_to_cart;
    repeat (apply Forall_cons || apply Forall_nil);
    cbn [v3_x v3_y v3_z]; repeat split; lra.
Qed.

Section Admissible.

Variable clamp : T -> T -> T -> T.
Hypothesis clamp_range :
  forall l v h : T, (l <= h)%R -> (l <= clamp l v h <= h)%R.

(** X2.  Whatever the parameters were, the points [expand_orbit] writes
    from a vector that went through [clamp_arg] lie in the prism:
    [x >= -1], [y >= -1], [x + y <= 0] and [-1 <= z <= 1]. *)
Theorem clamped_points_in_prism (i aoff poff : Z) (args : VectorXT)
    (pts : MatrixPtsT) (rs ws : list Z) :
  0 <= i <= 5 ->
  window_ok aoff (table_at narg_for_orbit i) args ->
  window_ok poff (table_at npts_for_orbit i) pts ->
  exists args' m',
    clamp_arg clamp i aoff args = Ok (tt, args')
    /\ expand_orbit i aoff poff (mkExpandMem args' pts rs ws) = Ok (tt, m')
    /\ Forall in_prism (slice poff (table_at npts_for_orbit i) (em_pts m')).
Proof.
  intros Hi Ha Hp.
  assert (Hn := narg_nonneg i Hi).
  assert (Hlen := slice_length args aoff _ Hn Ha).
  assert (Hcl := clamp_slice_length clamp i
                   (slice aoff (table_at narg_for_orbit i) args)).
  destruct Ha as [A0 A1].
  set (args' := overwrite aoff
                  (clamp_slice clamp i
                     (slice aoff (table_at narg_for_orbit i) args)) args).
  assert (Ha' : window_ok aoff (table_at narg_for_orbit i) args').
  { split; [exact A0 | unfold args'; rewrite overwrite_length; lia]. }
  destruct (expand_orbit_rows i aoff poff (mkExpandMem args' pts rs ws)
              Hi Ha' Hp) as (m' & E & Hrows & _).
  exists args', m'. split; [apply clamp_arg_run; [assumption | now split]|].
  split; [exact E|].
  rewrite Hrows. cbn [em_args]. unfold args'.
  rewrite slice_overwrite by lia.
  apply orbit_points_in_prism. now apply clamp_slice_domain.
Qed.

End Admissible.

Lemma clamped_points_in_prism_witness :
  exists args' m',
    clamp_arg clamp_ref 5 0 [3; -2; 7]%R = Ok (tt, args')
    /\ expand_orbit 5 0 0
         (mkExpandMem args' (repeat (mkVector3T 0 0 0) 12) [] [])
       = Ok (tt, m')
    /\ Forall in_prism (slice 0 (table_at npts_for_orbit 5) (em_pts m')).
Proof.
  apply (clamped_points_in_prism clamp_ref clamp_ref_range 5 0 0
           [3; -2; 7]%R (repeat (mkVector3T 0 0 0) 12) [] []).
  - lia.
  - split; vm_compute; discriminate.
  - split; vm_compute; discriminate.
Defined.

(** ** Symmetry of an orbit *)

Lemma reflect_z_cart (p1 p2 p3 z : T) :
  reflect_z (bary_to_cart p1 p2 p3 z) = bary_to_cart p1 p2 p3 (- z).
Proof. reflexivity. Qed.

Lemma swap_xy_cart (p1 p2 p3 z : T) :
  swap_xy (bary_to_cart p1 p2 p3 z) = bary_to_cart p1 p3 p2 z.
Proof.
  unfold swap_xy, bary_to_cart. cbn [v3_x v3_y v3_z]. f_equal; lra.
Qed.

Lemma rotate_cart (p1 p2 p3 z : T) :
  (p1 + p2 + p3 = 1)%R ->
  rotate (bary_to_cart p1 p2 p3 z) = bary_to_cart p2 p3 p1 z.
Proof.
  intros H. unfold rotate, bary_to_cart. cbn [v3_x v3_y v3_z]. f_equal; lra.
Qed.

Lemma orbit_points_symmetric (i : Z) (s : list T) :
  0 <= i <= 5 ->
  length s = Z.to_nat (table_at narg_for_orbit i) ->
  Permutation (map reflect_z (orbit_points i s)) (orbit_points i s)
  /\ Permutation (map swap_xy (orbit_points i s)) (orbit_points i s)
  /\ Permutation (map rotate (orbit_points i s)) (orbit_points i s).
Proof.
  intros Hi Hlen. set (n := Z.to_nat (table_at narg_for_orbit i)) in Hlen.
  orbit_cases i Hi; vm_compute in n; subst n; explode_slice Hlen.
  all: unfold orbit_points, arrangements; cbn [map app].
  all: split; [|split].
  all: rewrite ?reflect_z_cart, ?swap_xy_cart, ?Ropp_involutive, ?Ropp_0.
  all: rewrite ?rotate_cart by lra.
  all: try exact (Permutation_app_comm [_; _; _; _; _; _] [_; _; _; _; _; _]).
  all: repeat perm_pick.
Qed.

(** X3.  The points [expand_orbit] writes for an orbit are closed under the
    symmetries of the prism: reflecting [z], exchanging [x] and [y], or
    shifting the three barycentric coordinates cyclically gives the same
    points in another order. *)
Theorem expand_orbit_symmetric (i aoff poff : Z) (m : expand_mem) :
  0 <= i <= 5 ->
  window_ok aoff (table_at narg_for_orbit i) (em_args m) ->
  window_ok poff (table_at npts_for_orbit i) (em_pts m) ->
  exists m',
    expand_orbit i aoff poff m = Ok (tt, m')
    /\ (forall g,
          g = reflect_z \/ g = swap_xy \/ g = rotate ->
          Permutation
            (map g (slice poff (table_at npts_for_orbit i) (em_pts m')))
            (slice poff (table_at npts_for_orbit i) (em_pts m'))).
Proof.
  intros Hi Ha Hp.
  destruct (expand_orbit_rows i aoff poff m Hi Ha Hp) as (m' & E & Hrows & _).
  exists m'. split; [exact E|]. rewrite Hrows.
  assert (Hn := narg_nonneg i Hi).
  assert (Hlen := slice_length (em_args m) aoff _ Hn Ha).
  destruct (orbit_points_symmetric i _ Hi Hlen) as (H1 & H2 & H3).
  intros g [-> | [-> | ->]]; assumption.
Qed.

Lemma expand_orbit_symmetric_witness :
  exists m',
    expand_orbit 5 0 0
      (mkExpandMem [0.1; 0.2; 0.7]%R (repeat (mkVector3T 0 0 0) 12) [] [])
    = Ok (tt, m')
    /\ (forall g,
          g = reflect_z \/ g = swap_xy \/ g = rotate ->
          Permutation
            (map g (slice 0 (table_at npts_for_orbit 5) (em_pts m')))
            (slice 0 (table_at npts_for_orbit 5) (em_pts m'))).
Proof.
  apply (expand_orbit_symmetric 5 0 0
           (mkExpandMem [0.1; 0.2; 0.7]%R
              (repeat (mkVector3T 0 0 0) 12) [] [])).
  - lia.
  - split; vm_compute; discriminate.
  - split; vm_compute; discriminate.
Defined.

(** X4.  Whatever the parameters, the points of an orbit average to the
    centroid [(-1/3, -1/3, 0)]: the [x] and the [y] coordinates each sum to
    minus a third of the number of points, the [z] coordinates to 0. *)
Theorem expand_orbit_centroid (i aoff poff : Z) (m : expand_mem) :
  0 <= i <= 5 ->
  window_ok aoff (table_at narg_for_orbit i) (em_args m) ->
  window_ok poff (table_at npts_for_orbit i) (em_pts m) ->
  exists m',
    expand_orbit i aoff poff m = Ok (tt, m')
    /\ sum_of v3_x (slice poff (table_at npts_for_orbit i) (em_pts m'))
       = (- IZR (table_at npts_for_orbit i) / 3)%R
    /\ sum_of v3_y (slice poff (table_at npts_for_orbit i) (em_pts m'))
       = (- IZR (table_at npts_for_orbit i) / 3)%R
    /\ sum_of v3_z (slice poff (table_at npts_for_orbit i) (em_pts m'))
       = 0%R.
Proof.
  intros Hi Ha Hp.
  destruct (expand_orbit_rows i aoff poff m Hi Ha Hp) as (m' & E & Hrows & _).
  exists m'. split; [exact E|]. rewrite Hrows.
  assert (Hn := narg_nonneg i Hi).
  assert (Hlen := slice_length (em_args m) aoff _ Hn Ha).
  remember (slice aoff (table_at narg_for_orbit i) (em_args m)) as s eqn:Hs.
  clear Hs Hrows E Ha Hp.
  set (n := Z.to_nat (table_at narg_for_orbit i)) in Hlen.
  set (np := table_at npts_for_orbit i).
  orbit_cases i Hi; vm_compute in n, np; subst n np; explode_slice Hlen.
  all: unfold orbit_points, arrangements, sum_of, bary_to_cart;
    cbn [map app fold_right v3_x v3_y v3_z].
  all: repeat split; lra.
Qed.

Lemma expand_orbit_centroid_witness :
  exists m',
    expand_orbit 4 0 0
      (mkExpandMem [0.1; 0.2]%R (repeat (mkVector3T 0 0 0) 6) [] [])
    = Ok (tt, m')
    /\ sum_of v3_x (slice 0 (table_at npts_for_orbit 4) (em_pts m'))
       = (- IZR (table_at npts_for_orbit 4) / 3)%R
    /\ sum_of v3_y (slice 0 (table_at npts_for_orbit 4) (em_pts m'))
       = (- IZR (table_at npts_for_orbit 4) / 3)%R
    /\ sum_of v3_z (slice 0 (table_at npts_for_orbit 4) (em_pts m')) = 0%R.
Proof.
  apply (expand_orbit_centroid 4 0 0
           (mkExpandMem [0.1; 0.2]%R (repeat (mkVector3T 0 0 0) 6) [] [])).
  - lia.
  - split; vm_compute; discriminate.
  - split; vm_compute; discriminate.
Defined.

(** ** Coincident points *)

Lemma nodup_clash {A : Type} (l : list A) (i j : nat) :
  NoDup l -> (i < j)%nat -> (j < length l)%nat ->
  nth_error l i = nth_error l j -> False.
Proof.
  intros Hnd Hij Hj E.
  assert (H := proj1 (NoDup_nth_error l) Hnd i j ltac:(lia) E). lia.
Qed.

Ltac clash Hnd i j :=
  apply (nodup_clash _ i j Hnd);
  [ lia
  | cbn [length]; lia
  | cbn [nth_error]; f_equal; unfold bary_to_cart; f_equal; lra ].

Ltac apart :=
  let H := fresh "H" in
  cbn [In]; intros H;
  repeat match type of H with
         | _ \/ _ => destruct H as [H | H]
         end;
  try contradiction;
  unfold bary_to_cart in H; injection H; intros;
  match goal with
  | D : _ <> _ |- False => apply D; lra
  end.

Lemma orbit_points_distinct (i : Z) (s : list T) :
  0 <= i <= 5 ->
  length s = Z.to_nat (table_at narg_for_orbit i) ->
  NoDup (orbit_points i s) <-> generic i s.
Proof.
  intros Hi Hlen. set (n := Z.to_nat (table_at narg_for_orbit i)) in Hlen.
  orbit_cases i Hi; vm_compute in n; subst n; explode_slice Hlen.
  all: unfold orbit_points, arrangements, generic; cbn [map app].
  all: split; [intros Hnd | intros Hg].
  - exact I.
  - repeat constructor. intros [].
  - intros E. clash Hnd 0%nat 1%nat.
  - repeat (apply NoDup_cons; [apart|]). apply NoDup_nil.
  - intros E. clash Hnd 0%nat 1%nat.
  - repeat (apply NoDup_cons; [apart|]). apply NoDup_nil.
  - split; intros E; [clash Hnd 0%nat 1%nat | clash Hnd 0%nat 3%nat].
  - destruct Hg as (G1 & G2).
    repeat (apply NoDup_cons; [apart|]). apply NoDup_nil.
  - repeat split; intros E;
      [clash Hnd 0%nat 2%nat | clash Hnd 0%nat 5%nat | clash Hnd 0%nat 1%nat].
  - destruct Hg as (G1 & G2 & G3).
    repeat (apply NoDup_cons; [apart|]). apply NoDup_nil.
  - repeat split; intros E;
      [ clash Hnd 0%nat 2%nat | clash Hnd 0%nat 5%nat
      | clash Hnd 0%nat 1%nat | clash Hnd 0%nat 6%nat ].
  - destruct Hg as (G1 & G2 & G3 & G4).
    repeat (apply NoDup_cons; [apart|]). apply NoDup_nil.
Qed.

(** X5.  The points [expand_orbit] writes for an orbit are pairwise distinct
    exactly when the parameters are generic: [b <> 0] (resp. [c <> 0]) for
    the orbits with two layers, [a <> 1 - 2a] for orbits 2 and 3, and [a],
    [b], [1 - a - b] pairwise different for orbits 4 and 5.  Otherwise the
    orbit degenerates and some point is written more than once. *)
Theorem expand_orbit_distinct (i aoff poff : Z) (m : expand_mem) :
  0 <= i <= 5 ->
  window_ok aoff (table_at narg_for_orbit i) (em_args m) ->
  window_ok poff (table_at npts_for_orbit i) (em_pts m) ->
  exists m',
    expand_orbit i aoff poff m = Ok (tt, m')
    /\ (NoDup (slice poff (table_at npts_for_orbit i) (em_pts m'))
        <-> generic i (slice aoff (table_at narg_for_orbit i) (em_args m))).
Proof.
  intros Hi Ha Hp.
  destruct (expand_orbit_rows i aoff poff m Hi Ha Hp) as (m' & E & Hrows & _).
  exists m'. split; [exact E|]. rewrite Hrows.
  apply orbit_points_distinct; [exact Hi|].
  apply slice_length; [now apply narg_nonneg | exact Ha].
Qed.

Lemma expand_orbit_distinct_witness :
  exists m',
    expand_orbit 2 0 0
      (mkExpandMem [1 / 3]%R (repeat (mkVector3T 0 0 0) 3) [] [])
    = Ok (tt, m')
    /\ ~ NoDup (slice 0 (table_at npts_for_orbit 2) (em_pts m')).
Proof.
  destruct (expand_orbit_distinct 2 0 0
              (mkExpandMem [1 / 3]%R (repeat (mkVector3T 0 0 0) 3) [] []))
    as (m' & E & H).
  - lia.
  - split; vm_compute; discriminate.
  - split; vm_compute; discriminate.
  - exists m'. split; [exact E|]. intros Hnd. apply H in Hnd.
    change (1 / 3 <> 1 - 2 * (1 / 3))%R in Hnd. apply Hnd. lra.
Defined.

(** ** Expansions at disjoint rows *)

Lemma load_nat {A : Type} (l : list A) (n : nat) :
  load l (Z.of_nat n) = nth_error l n.
Proof.
  unfold load. destruct (Nat.lt_ge_cases n (length l)) as [Hlt|Hge].
  - rewrite in_bounds_true by lia. now rewrite Nat2Z.id.
  - rewrite in_bounds_false by lia. symmetry. now apply nth_error_None.
Qed.

Lemma load_ext {A : Type} (l1 l2 : list A) :
  (forall k, load l1 k = load l2 k) -> l1 = l2.
Proof.
  intros H. apply nth_error_ext. intros n. rewrite <- !load_nat. apply H.
Qed.

Lemma load_overwrite {A : Type} (l : list A) (off : Z) (vs : list A)
    (k : Z) :
  0 <= off ->
  off + Z.of_nat (length vs) <= Z.of_nat (length l) ->
  load (overwrite off vs l) k
  = if (off <=? k) && (k <? off + Z.of_nat (length vs))
    then nth_error vs (Z.to_nat (k - off))
    else load l k.
Proof.
  intros H0 H1.
  destruct ((off <=? k) && (k <? off + Z.of_nat (length vs))) eqn:E.
  - apply andb_prop in E. destruct E as [E1 E2].
    apply Z.leb_le in E1. apply Z.ltb_lt in E2.
    destruct (nth_error vs (Z.to_nat (k - off))) as [v|] eqn:Ev.
    + apply (load_overwrite_inside l off vs k _ v H0 H1 Ev). lia.
    + apply nth_error_None in Ev. lia.
  - apply load_overwrite_other; try assumption.
    apply andb_false_iff in E. destruct E as [E|E];
      [apply Z.leb_gt in E | apply Z.ltb_ge in E]; lia.
Qed.

Lemma overwrite_comm {A : Type} (l : list A) (o1 o2 : Z) (v1 v2 : list A) :
  0 <= o1 -> o1 + Z.of_nat (length v1) <= o2 ->
  o2 + Z.of_nat (length v2) <= Z.of_nat (length l) ->
  overwrite o1 v1 (overwrite o2 v2 l) = overwrite o2 v2 (overwrite o1 v1 l).
Proof.
  intros H0 H1 H2. apply load_ext. intros k.
  rewrite !load_overwrite by (rewrite ?overwrite_length; lia).
  destruct ((o1 <=? k) && (k <? o1 + Z.of_nat (length v1))) eqn:E1;
    destruct ((o2 <=? k) && (k <? o2 + Z.of_nat (length v2))) eqn:E2;
    try reflexivity.
  apply andb_prop in E1, E2. destruct E1 as [A1 A2], E2 as [B1 B2].
  apply Z.leb_le in A1, B1. apply Z.ltb_lt in A2, B2. lia.
Qed.

Lemma expand_orbit_then (i1 a1 p1 i2 a2 p2 : Z) (m : expand_mem) :
  0 <= i1 <= 5 -> 0 <= i2 <= 5 ->
  window_ok a1 (table_at narg_for_orbit i1) (em_args m) ->
  window_ok a2 (table_at narg_for_orbit i2) (em_args m) ->
  window_ok p1 (table_at npts_for_orbit i1) (em_pts m) ->
  window_ok p2 (table_at npts_for_orbit i2) (em_pts m) ->
  exists m',
    (expand_orbit i1 a1 p1 ;; expand_orbit i2 a2 p2) m = Ok (tt, m')
    /\ em_args m' = em_args m
    /\ em_pts m'
       = overwrite p2
           (orbit_points i2
              (slice a2 (table_at narg_for_orbit i2) (em_args m)))
           (overwrite p1
              (orbit_points i1
                 (slice a1 (table_at narg_for_orbit i1) (em_args m)))
              (em_pts m)).
Proof.
  intros Hi1 Hi2 Ha1 Ha2 Hp1 Hp2.
  destruct (expand_orbit_rows i1 a1 p1 m Hi1 Ha1 Hp1)
    as (m1 & E1 & _ & Hpts1 & Hargs1).
  assert (Hl1 := orbit_points_length i1 _ Hi1
                   (slice_length _ a1 _ (narg_nonneg i1 Hi1) Ha1)).
  assert (Hp2' : window_ok p2 (table_at npts_for_orbit i2) (em_pts m1)).
  { destruct Hp1 as [P0 P1], Hp2 as [Q0 Q1]. split; [exact Q0|].
    rewrite Hpts1, overwrite_length; lia. }
  rewrite <- Hargs1 in Ha2.
  destruct (expand_orbit_rows i2 a2 p2 m1 Hi2 Ha2 Hp2')
    as (m2 & E2 & _ & Hpts2 & Hargs2).
  exists m2. split; [unfold bind; now rewrite E1|].
  split; [congruence|]. now rewrite Hpts2, Hargs1, Hpts1.
Qed.

(** X6.  Two expansions whose row ranges do not meet can be run in either
    order: the point matrix they leave is the same, and the parameter
    vector is untouched. *)
Theorem expand_orbit_commute (i1 a1 p1 i2 a2 p2 : Z) (m : expand_mem) :
  0 <= i1 <= 5 -> 0 <= i2 <= 5 ->
  window_ok a1 (table_at narg_for_orbit i1) (em_args m) ->
  window_ok a2 (table_at narg_for_orbit i2) (em_args m) ->
  window_ok p1 (table_at npts_for_orbit i1) (em_pts m) ->
  window_ok p2 (table_at npts_for_orbit i2) (em_pts m) ->
  p1 + table_at npts_for_orbit i1 <= p2
  \/ p2 + table_at npts_for_orbit i2 <= p1 ->
  exists m12 m21,
    (expand_orbit i1 a1 p1 ;; expand_orbit i2 a2 p2) m = Ok (tt, m12)
    /\ (expand_orbit i2 a2 p2 ;; expand_orbit i1 a1 p1) m = Ok (tt, m21)
    /\ em_pts m12 = em_pts m21
    /\ em_args m12 = em_args m /\ em_args m21 = em_args m.
Proof.
  intros Hi1 Hi2 Ha1 Ha2 Hp1 Hp2 Hdis.
  destruct (expand_orbit_then i1 a1 p1 i2 a2 p2 m)
    as (m12 & E12 & Hargs12 & Hpts12); try assumption.
  destruct (expand_orbit_then i2 a2 p2 i1 a1 p1 m)
    as (m21 & E21 & Hargs21 & Hpts21); try assumption.
  exists m12, m21. repeat split; try assumption.
  rewrite Hpts12, Hpts21.
  assert (Hl1 := orbit_points_length i1 _ Hi1
                   (slice_length _ a1 _ (narg_nonneg i1 Hi1) Ha1)).
  assert (Hl2 := orbit_points_length i2 _ Hi2
                   (slice_length _ a2 _ (narg_nonneg i2 Hi2) Ha2)).
  destruct Hp1 as [P0 P1], Hp2 as [Q0 Q1].
  destruct Hdis as [Hd|Hd].
  - symmetry. apply overwrite_comm; lia.
  - apply overwrite_comm; lia.
Qed.

Lemma expand_orbit_commute_witness :
  exists m12 m21,
    (expand_orbit 1 0 0 ;; expand_orbit 2 1 2)
      (mkExpandMem [0.5; 0.25]%R (repeat (mkVector3T 0 0 0) 5) [] [])
    = Ok (tt, m12)
    /\ (expand_orbit 2 1 2 ;; expand_orbit 1 0 0)
         (mkExpandMem [0.5; 0.25]%R (repeat (mkVector3T 0 0 0) 5) [] [])
       = Ok (tt, m21)
    /\ em_pts m12 = em_pts m21
    /\ em_args m12 = [0.5; 0.25]%R /\ em_args m21 = [0.5; 0.25]%R.
Proof.
  apply (expand_orbit_commute 1 0 0 2 1 2
           (mkExpandMem [0.5; 0.25]%R (repeat (mkVector3T 0 0 0) 5) [] [])).
  - lia.
  - lia.
  - split; vm_compute; discriminate.
  - split; vm_compute; discriminate.
  - split; vm_compute; discriminate.
  - split; vm_compute; discriminate.
  - left. vm_compute. discriminate.
Defined.

(** ** What seeding overwrites *)

(** X7.  For an orbit id in [0,5], [seed_orbit] overwrites the slice of the
    orbit and nothing else, and neither the values it writes nor the state
    it leaves the random source in depend on what the vector held before;
    for orbit 0 it draws nothing and writes nothing. *)
Theorem seed_orbit_frame {Rng : Type}
    (rand_between : T -> T -> Rng -> T * Rng) (rand_unit : Rng -> T * Rng)
    (i aoff : Z) (args : VectorXT) (g : Rng) :
  0 <= i <= 5 ->
  window_ok aoff (table_at narg_for_orbit i) args ->
  exists args' g',
    seed_orbit rand_between rand_unit i aoff (mkSeedMem args g)
    = Ok (tt, mkSeedMem args' g')
    /\ length args' = length args
    /\ (forall k,
          k < aoff \/ aoff + table_at narg_for_orbit i <= k ->
          load args' k = load args k)
    /\ (forall args2 : VectorXT,
          window_ok aoff (table_at narg_for_orbit i) args2 ->
          exists args2',
            seed_orbit rand_between rand_unit i aoff (mkSeedMem args2 g)
            = Ok (tt, mkSeedMem args2' g')
            /\ slice aoff (table_at narg_for_orbit i) args2'
               = slice aoff (table_at narg_for_orbit i) args')
    /\ (i = 0 -> args' = args /\ g' = g).
Proof.
  intros Hi Hw.
  assert (Hn := narg_nonneg i Hi).
  assert (Hlen : Z.of_nat (length (fst (seed_slice rand_between rand_unit i g)))
                 = table_at narg_for_orbit i).
  { clear Hw. orbit_cases i Hi; unfold seed_slice;
      repeat match goal with
        | |- context [match ?e with pair _ _ => _ end] => destruct e
        end; reflexivity. }
  do 2 eexists. split; [apply seed_orbit_run; assumption|].
  destruct Hw as [H0 H1].
  split; [apply overwrite_length; lia|].
  split; [intros k Hk; apply load_overwrite_other; lia|].
  split.
  - intros args2 Hw2. eexists.
    split; [apply seed_orbit_run; assumption|].
    destruct Hw2 as [G0 G1]. rewrite !slice_overwrite by lia. reflexivity.
  - intros ->. split; [apply overwrite_nil | reflexivity].
Qed.

Lemma seed_orbit_frame_witness :
  exists args' g',
    seed_orbit (fun lo hi (g : nat) => (hi, S g)) (fun g => (0%R, S g)) 3 1
      (mkSeedMem [9; 9; 9; 9]%R 0%nat)
    = Ok (tt, mkSeedMem args' g')
    /\ length args' = length [9; 9; 9; 9]%R
    /\ (forall k,
          k < 1 \/ 1 + table_at narg_for_orbit 3 <= k ->
          load args' k = load [9; 9; 9; 9]%R k).
Proof.
  destruct (seed_orbit_frame
              (fun lo hi (g : nat) => (hi, S g)) (fun g => (0%R, S g)) 3 1
              [9; 9; 9; 9]%R 0%nat)
    as (args' & g' & E & H1 & H2 & _).
  - lia.
  - split; vm_compute; discriminate.
  - exists args', g'. repeat split; assumption.
Defined.

(** ** The canonical form *)

Lemma std_sort_sorted3 (a b c : T) :
  (a <= b <= c)%R -> std_sort [a; b; c] = [a; b; c].
Proof.
  intros H. apply sorted_perm_unique.
  - apply std_sort_sorted.
  - repeat (apply SSorted_cons || apply SSorted_nil);
      repeat (apply Forall_cons || apply Forall_nil); lra.
  - apply std_sort_perm.
Qed.

Lemma sort_slice_fix (i : Z) (a b : T) (rest : list T) :
  (a <= b <= 1 - a - b)%R -> sort_slice i (a :: b :: rest) = a :: b :: rest.
Proof.
  intros H. unfold sort_slice.
  destruct ((i =? 4) || (i =? 5)); [|reflexivity].
  now rewrite std_sort_sorted3.
Qed.

Lemma sort_slice_ordered (i : Z) (a b : T) (rest : list T) :
  i = 4 \/ i = 5 ->
  exists s0 s1,
    sort_slice i (a :: b :: rest) = s0 :: s1 :: rest
    /\ (s0 <= s1 <= 1 - s0 - s1)%R
    /\ Permutation [s0; s1; (1 - s0 - s1)%R] [a; b; (1 - a - b)%R].
Proof.
  intros Hi.
  destruct (sort_slice_sorted i a b rest Hi) as (s0 & s1 & s2 & Hsrt & Hss & Hs2).
  assert (Hsorted := std_sort_sorted [a; b; (1 - a - b)%R]).
  assert (Hperm := std_sort_perm [a; b; (1 - a - b)%R]).
  rewrite Hsrt in Hsorted, Hperm. rewrite Hs2 in Hsorted, Hperm.
  exists s0, s1. split; [exact Hss|]. split; [|exact Hperm].
  inversion Hsorted as [|x l Hs' Hall]; subst.
  inversion Hs' as [|x l Hs'' Hall']; subst.
  inversion Hall as [|x l H01 _]; subst.
  inversion Hall' as [|x l H12 _]; subst. lra.
Qed.

(** X8.  For orbits 4 and 5 the pair [sort_arg] leaves satisfies
    [a <= b <= 1 - a - b]; running [sort_arg] again changes nothing; and
    [sort_arg] leaves a vector as it is exactly when its pair is already
    in that order. *)
Theorem sort_arg_idempotent (i aoff : Z) (args : VectorXT) (a b : T)
    (rest : list T) :
  i = 4 \/ i = 5 ->
  window_ok aoff (table_at narg_for_orbit i) args ->
  slice aoff (table_at narg_for_orbit i) args = a :: b :: rest ->
  exists a' b' args',
    sort_arg i aoff args = Ok (tt, args')
    /\ slice aoff (table_at narg_for_orbit i) args' = a' :: b' :: rest
    /\ (a' <= b' <= 1 - a' - b')%R
    /\ sort_arg i aoff args' = Ok (tt, args')
    /\ (args' = args <-> (a <= b <= 1 - a - b)%R).
Proof.
  intros Hi Hw Hs.
  assert (Hi' : 0 <= i <= 5) by lia.
  assert (Hn := narg_nonneg i Hi').
  assert (Hlen := slice_length args aoff _ Hn Hw).
  destruct (sort_slice_ordered i a b rest Hi) as (s0 & s1 & Hss & Hord & _).
  assert (Hrun := sort_arg_run i aoff args Hi Hw).
  rewrite Hs, Hss in Hrun.
  assert (Hlen' : Z.of_nat (length (s0 :: s1 :: rest))
                  = table_at narg_for_orbit i).
  { rewrite Hs in Hlen. cbn [length] in *. lia. }
  destruct Hw as [H0 H1].
  assert (Hslice' : slice aoff (table_at narg_for_orbit i)
                      (overwrite aoff (s0 :: s1 :: rest) args)
                    = s0 :: s1 :: rest)
    by (apply slice_overwrite; [lia | lia | symmetry; exact Hlen']).
  exists s0, s1, (overwrite aoff (s0 :: s1 :: rest) args).
  split; [exact Hrun|]. split; [exact Hslice'|]. split; [exact Hord|].
  split.
  - rewrite sort_arg_run; [|exact Hi|].
    2:{ split; [exact H0 | rewrite overwrite_length; lia]. }
    rewrite Hslice', (sort_slice_fix i s0 s1 rest Hord).
    rewrite overwrite_overwrite; [reflexivity | split; lia | reflexivity].
  - split.
    + intros E. rewrite E, Hs in Hslice'.
      injection Hslice' as -> ->. exact Hord.
    + intros Hab. rewrite (sort_slice_fix i a b rest Hab) in Hss.
      injection Hss as <- <-. rewrite <- Hs.
      apply overwrite_slice; [exact Hn | now split].
Qed.

Lemma sort_arg_idempotent_witness :
  exists a' b' args',
    sort_arg 5 1 [9; 0.6; 0.3; 0.7]%R = Ok (tt, args')
    /\ slice 1 (table_at narg_for_orbit 5) args' = [a'; b'; 0.7%R]
    /\ (a' <= b' <= 1 - a' - b')%R
    /\ sort_arg 5 1 args' = Ok (tt, args')
    /\ (args' = [9; 0.6; 0.3; 0.7]%R <-> (0.6 <= 0.3 <= 1 - 0.6 - 0.3)%R).
Proof.
  apply (sort_arg_idempotent 5 1 [9; 0.6; 0.3; 0.7]%R 0.6%R 0.3%R [0.7%R]).
  - right. reflexivity.
  - split; vm_compute; discriminate.
  - reflexivity.
Defined.

Lemma sort_slice_domain (i : Z) (s : list T) :
  orbit_domain i s -> orbit_domain i (sort_slice i s).
Proof.
  intros Hd.
  destruct (Z.eq_dec i 4) as [-> | H4]; [|destruct (Z.eq_dec i 5) as [-> | H5]].
  - destruct s as [|a [|b [|c s]]]; try contradiction.
    destruct (sort_slice_ordered 4 a b [] (or_introl eq_refl))
      as (s0 & s1 & -> & Hord & Hperm).
    apply perm3_arrangement in Hperm. unfold arrangements in Hperm.
    cbn [orbit_domain In] in *.
    destruct Hperm as [E | [E | [E | [E | [E | [E | []]]]]]];
      injection E as E0 E1 E2; lra.
  - destruct s as [|a [|b [|c [|d s]]]]; try contradiction.
    destruct (sort_slice_ordered 5 a b [c] (or_intror eq_refl))
      as (s0 & s1 & -> & Hord & Hperm).
    apply perm3_arrangement in Hperm. unfold arrangements in Hperm.
    cbn [orbit_domain In] in *.
    destruct Hperm as [E | [E | [E | [E | [E | [E | []]]]]]];
      injection E as E0 E1 E2; repeat split; lra.
  - unfold sort_slice. destruct s as [|a [|b rest]]; try exact Hd.
    apply Z.eqb_neq in H4, H5. now rewrite H4, H5.
Qed.

Section ClampSort.

Variable clamp : T -> T -> T -> T.
Hypothesis clamp_range :
  forall l v h : T, (l <= h)%R -> (l <= clamp l v h <= h)%R.
Hypothesis clamp_fix :
  forall l v h : T, (l <= v <= h)%R -> clamp l v h = v.

(** X9.  [sort_arg] keeps a clamped vector admissible: after [clamp_arg]
    and then [sort_arg], for any orbit id in [0,5], the slice still lies in
    the domain of the orbit and a further [clamp_arg] changes nothing. *)
Theorem sort_arg_keeps_domain (i aoff : Z) (args : VectorXT) :
  0 <= i <= 5 ->
  window_ok aoff (table_at narg_for_orbit i) args ->
  exists args1 args2,
    clamp_arg clamp i aoff args = Ok (tt, args1)
    /\ sort_arg i aoff args1 = Ok (tt, args2)
    /\ orbit_domain i (slice aoff (table_at narg_for_orbit i) args2)
    /\ clamp_arg clamp i aoff args2 = Ok (tt, args2).
Proof.
  intros Hi Hw.
  assert (Hn := narg_nonneg i Hi).
  assert (Hlen := slice_length args aoff _ Hn Hw).
  assert (Hcl := clamp_slice_length clamp i
                   (slice aoff (table_at narg_for_orbit i) args)).
  assert (Hdom := clamp_slice_domain clamp clamp_range i _ Hi Hlen).
  remember (clamp_slice clamp i
              (slice aoff (table_at narg_for_orbit i) args)) as s1 eqn:Hs1.
  destruct Hw as [H0 H1].
  assert (Hw1 : window_ok aoff (table_at narg_for_orbit i)
                  (overwrite aoff s1 args)).
  { split; [exact H0 | rewrite overwrite_length; lia]. }
  assert (Hsl1 : slice aoff (table_at narg_for_orbit i)
                   (overwrite aoff s1 args) = s1)
    by (apply slice_overwrite; lia).
  assert (Hsort : sort_arg i aoff (overwrite aoff s1 args)
                  = Ok (tt, overwrite aoff (sort_slice i s1) args)).
  { destruct (Z.eq_dec i 4) as [E4|N4]; [|destruct (Z.eq_dec i 5) as [E5|N5]].
    - rewrite sort_arg_run by (auto; lia). rewrite Hsl1.
      rewrite overwrite_overwrite;
        [reflexivity | split; lia | apply sort_slice_length].
    - rewrite sort_arg_run by (auto; lia). rewrite Hsl1.
      rewrite overwrite_overwrite;
        [reflexivity | split; lia | apply sort_slice_length].
    - rewrite sort_arg_other by assumption.
      unfold sort_slice. destruct s1 as [|a [|b rest]]; try reflexivity.
      apply Z.eqb_neq in N4, N5. now rewrite N4, N5. }
  assert (Hl2 := sort_slice_length i s1).
  assert (Hsl2 : slice aoff (table_at narg_for_orbit i)
                   (overwrite aoff (sort_slice i s1) args) = sort_slice i s1)
    by (apply slice_overwrite; lia).
  exists (overwrite aoff s1 args), (overwrite aoff (sort_slice i s1) args).
  split; [rewrite Hs1; apply clamp_arg_run; [assumption | now split]|].
  split; [exact Hsort|].
  rewrite Hsl2. split; [now apply sort_slice_domain|].
  rewrite clamp_arg_run; [|assumption|].
  2:{ split; [exact H0 | rewrite overwrite_length; lia]. }
  rewrite Hsl2, (clamp_slice_fix clamp clamp_fix)
    by now apply sort_slice_domain.
  rewrite overwrite_overwrite; [reflexivity | split; lia | reflexivity].
Qed.

End ClampSort.

Lemma sort_arg_keeps_domain_witness :
  exists args1 args2,
    clamp_arg clamp_ref 4 0 [0.9; 0.05]%R = Ok (tt, args1)
    /\ sort_arg 4 0 args1 = Ok (tt, args2)
    /\ orbit_domain 4 (slice 0 (table_at narg_for_orbit 4) args2)
    /\ clamp_arg clamp_ref 4 0 args2 = Ok (tt, args2).
Proof.
  apply (sort_arg_keeps_domain clamp_ref clamp_ref_range clamp_ref_fix
           4 0 [0.9; 0.05]%R).
  - lia.
  - split; vm_compute; discriminate.
Defined.

Lemma std_sort_largest_last (a b c : T) :
  (a <= c)%R -> (b <= c)%R ->
  std_sort [a; b; c] = [Rmin a b; Rmax a b; c].
Proof.
  intros Ha Hb. apply sorted_perm_unique.
  - apply std_sort_sorted.
  - unfold Rmin, Rmax. destruct (Rle_dec a b);
      repeat (apply SSorted_cons || apply SSorted_nil);
      repeat (apply Forall_cons || apply Forall_nil); lra.
  - rewrite std_sort_perm. unfold Rmin, Rmax.
    destruct (Rle_dec a b); [apply Permutation_refl | apply perm_swap].
Qed.

Section SeedSort.

Variable Rng : Type.
Variable rand_between : T -> T -> Rng -> T * Rng.
Variable rand_unit : Rng -> T * Rng.
Hypothesis rand_between_range :
  forall (lo hi : T) (g : Rng),
    (lo <= hi)%R -> (lo <= fst (rand_between lo hi g) <= hi)%R.

(** X10.  For orbits 4 and 5 the seeded [a] and [b] are both at most
    [1 - a - b], so [sort_arg] run on a fresh seed keeps the two seeded
    values and only puts them in ascending order. *)
Theorem seed_then_sort (i aoff : Z) (args : VectorXT) (g : Rng) :
  i = 4 \/ i = 5 ->
  window_ok aoff (table_at narg_for_orbit i) args ->
  exists a b rest args1 g' args2,
    seed_orbit rand_between rand_unit i aoff (mkSeedMem args g)
    = Ok (tt, mkSeedMem args1 g')
    /\ slice aoff (table_at narg_for_orbit i) args1 = a :: b :: rest
    /\ (a <= 1 - a - b)%R /\ (b <= 1 - a - b)%R
    /\ sort_arg i aoff args1 = Ok (tt, args2)
    /\ slice aoff (table_at narg_for_orbit i) args2
       = Rmin a b :: Rmax a b :: rest.
Proof.
  intros Hi Hw.
  assert (Hi' : 0 <= i <= 5) by lia.
  assert (Hn := narg_nonneg i Hi').
  assert (Hlen : Z.of_nat (length (fst (seed_slice rand_between rand_unit i g)))
                 = table_at narg_for_orbit i).
  { clear Hw. destruct Hi as [-> | ->]; unfold seed_slice;
      repeat match goal with
        | |- context [match ?e with pair _ _ => _ end] => destruct e
        end; reflexivity. }
  destruct (seed_slice_third Rng rand_between rand_unit rand_between_range
              i g Hi) as (a & b & rest & Es & Ha & Hb).
  rewrite Es in Hlen.
  destruct Hw as [H0 H1].
  assert (Hsl1 : slice aoff (table_at narg_for_orbit i)
                   (overwrite aoff (a :: b :: rest) args) = a :: b :: rest)
    by (apply slice_overwrite; lia).
  assert (Hw1 : window_ok aoff (table_at narg_for_orbit i)
                  (overwrite aoff (a :: b :: rest) args)).
  { split; [exact H0 | rewrite overwrite_length; lia]. }
  assert (Hss : sort_slice i (a :: b :: rest)
                = Rmin a b :: Rmax a b :: rest).
  { unfold sort_slice.
    replace ((i =? 4) || (i =? 5)) with true
      by (destruct Hi as [-> | ->]; reflexivity).
    rewrite std_sort_largest_last by lra. reflexivity. }
  exists a, b, rest, (overwrite aoff (a :: b :: rest) args),
    (snd (seed_slice rand_between rand_unit i g)),
    (overwrite aoff (Rmin a b :: Rmax a b :: rest) args).
  split.
  { rewrite <- Es. apply seed_orbit_run; [exact Hi' | now split]. }
  split; [exact Hsl1|]. split; [lra|]. split; [lra|].
  split.
  - rewrite sort_arg_run by assumption. rewrite Hsl1, Hss.
    rewrite overwrite_overwrite; [reflexivity | split; lia | reflexivity].
  - apply slice_overwrite; [lia | lia |]. cbn [length] in *. lia.
Qed.

End SeedSort.

Lemma seed_then_sort_witness :
  exists a b rest args1 g' args2,
    seed_orbit (fun lo hi (g : nat) => (if Nat.even g then hi else lo, S g))
      (fun g => (0%R, S g)) 4 0 (mkSeedMem [9; 9]%R 0%nat)
    = Ok (tt, mkSeedMem args1 g')
    /\ slice 0 (table_at narg_for_orbit 4) args1 = a :: b :: rest
    /\ (a <= 1 - a - b)%R /\ (b <= 1 - a - b)%R
    /\ sort_arg 4 0 args1 = Ok (tt, args2)
    /\ slice 0 (table_at narg_for_orbit 4) args2
       = Rmin a b :: Rmax a b :: rest.
Proof.
  apply (seed_then_sort nat
           (fun lo hi (g : nat) => (if Nat.even g then hi else lo, S g))
           (fun g => (0%R, S g))).
  - intros lo hi g H. cbn [fst]. destruct (Nat.even g); lra.
  - left. reflexivity.
  - split; vm_compute; discriminate.
Defined.

(** * Further properties of the basis evaluation *)

(** ** The room the output needs *)

Lemma update_length {A : Type} (l : list A) (n : nat) (v : A) :
  length (update l n v) = length l.
Proof.
  revert n. induction l as [|x l IH]; intros [|n]; cbn; auto.
Qed.

Lemma advances_refl (m : eval_mem) : advances 0 m m.
Proof. unfold advances. repeat split; auto. lia. Qed.

Lemma advances_trans (n1 n2 : nat) (m m1 m2 : eval_mem) :
  advances n1 m m1 -> advances n2 m1 m2 -> advances (n1 + n2) m m2.
Proof.
  intros (A1 & A2 & A3) (B1 & B2 & B3). unfold advances.
  repeat split; [lia | congruence | auto].
Qed.

Lemma each_advances {X : Type} (body : Z -> M eval_mem unit)
    (g : Z -> list X) :
  (forall i m m', body i m = Ok (tt, m') -> advances (length (g i)) m m') ->
  forall l m m',
    each body l m = Ok (tt, m') -> advances (length (flat_map g l)) m m'.
Proof.
  intros Hbody. induction l as [|i l IH]; intros m m' E; cbn [each] in E.
  - injection E as <-. apply advances_refl.
  - unfold bind in E. destruct (body i m) as [[[] m1]| |] eqn:E1;
      try discriminate E.
    cbn [flat_map]. rewrite length_app.
    eapply advances_trans; [apply Hbody, E1 | apply IH, E].
Qed.

Lemma emit_row_advances (jpa jpb jpc : Z -> ArrayT) (i j k : Z)
    (m m' : eval_mem) :
  emit_row jpa jpb jpc i j k m = Ok (tt, m') -> advances 1 m m'.
Proof.
  unfold emit_row, store. intros E.
  destruct (in_bounds (ev_out m) (ev_off m)) eqn:Hb; [|discriminate E].
  injection E as <-. unfold advances. cbn [ev_off ev_out].
  rewrite update_length. unfold in_bounds in Hb.
  apply andb_prop in Hb. destruct Hb as [_ Hlt]. apply Z.ltb_lt in Hlt.
  repeat split; lia.
Qed.

Lemma flat_map_unit {A B : Type} (f : A -> B) (l : list A) :
  flat_map (fun x => [f x]) l = map f l.
Proof. induction l as [|x l IH]; cbn; [reflexivity | now rewrite IH]. Qed.

Lemma eval_orthob_block_advances (EvenLegendre : Z -> T -> T)
    (Jacobi : Z -> Z -> Z -> T -> T) (qdeg : Z) (pqr : list Vector3T)
    (out : list ArrayT) (m' : eval_mem) :
  eval_orthob_block EvenLegendre Jacobi qdeg pqr out = Ok (tt, m') ->
  ev_off m' = nbfn_for_qdeg qdeg
  /\ length (ev_out m') = length out
  /\ nbfn_for_qdeg qdeg <= Z.of_nat (length out).
Proof.
  unfold eval_orthob_block. rewrite for_leM_each. intros E.
  apply (each_advances _
           (fun i =>
              flat_map (fun j =>
                map (fun k => (i, j, k)) (range_le 2 (qdeg - i - j) 0))
                (range_le 1 (qdeg - i) i))) in E.
  - destruct E as (E1 & E2 & E3). cbn [ev_off ev_out] in *.
    rewrite nbfn_for_qdeg_count. unfold degree_triples.
    repeat split; lia.
  - clear. intros i m m' E. unfold bind in E. cbn [note_outer] in E.
    match type of E with
    | match ?c ?s with _ => _ end = _ =>
        destruct (c s) as [[[] m1]| |] eqn:E1; try discriminate E
    end.
    unfold step_powers in E. injection E as <-.
    rewrite for_leM_each in E1.
    apply (each_advances _
             (fun j => map (fun k => (i, j, k))
                         (range_le 2 (qdeg - i - j) 0))) in E1.
    + destruct E1 as (A1 & A2 & A3). unfold advances in *.
      cbn [ev_off ev_out] in *. repeat split; assumption.
    + clear. intros j m m' E. rewrite for_leM_each in E.
      rewrite <- flat_map_unit.
      revert E. apply each_advances. clear. intros k m m' E.
      now apply emit_row_advances in E.
Qed.

Lemma no_abort_each {St : Type} (body : Z -> M St unit) (l : list Z) :
  (forall i, no_abort (body i)) -> no_abort (each body l).
Proof.
  intros H. induction l as [|i l IH]; cbn [each].
  - apply no_abort_ret.
  - apply no_abort_bind; [apply H | intros _; exact IH].
Qed.

Lemma no_abort_for_leM {St : Type} (step : positive) (hi : Z)
    (body : Z -> M St unit) (i : Z) :
  (forall i, no_abort (body i)) -> no_abort (for_leM step hi body i).
Proof.
  intros H s. rewrite for_leM_each. now apply no_abort_each.
Qed.

Lemma eval_orthob_block_no_abort (EvenLegendre : Z -> T -> T)
    (Jacobi : Z -> Z -> Z -> T -> T) (qdeg : Z) (pqr : list Vector3T)
    (out : list ArrayT) :
  eval_orthob_block EvenLegendre Jacobi qdeg pqr out <> Abort.
Proof.
  unfold eval_orthob_block. apply no_abort_for_leM. intros i.
  apply no_abort_bind; [intros m; discriminate | intros _].
  apply no_abort_bind; [|intros _ m; discriminate].
  apply no_abort_for_leM. intros j. apply no_abort_for_leM. intros k m.
  unfold emit_row. destruct (store _ _ _); discriminate.
Qed.

(** X11.  [eval_orthob_block] returns exactly when the output has at least
    [nbfn_for_qdeg qdeg] rows, and otherwise indexes a row outside it.  When
    it returns, the output has as many rows as before and the rows from
    index [nbfn_for_qdeg qdeg] on are untouched; in particular nothing is
    written for a negative degree. *)
Theorem eval_orthob_block_room (EvenLegendre : Z -> T -> T)
    (Jacobi : Z -> Z -> Z -> T -> T) (qdeg : Z) (pqr : list Vector3T)
    (out : list ArrayT) :
  (nbfn_for_qdeg qdeg <= Z.of_nat (length out) ->
   exists m',
     eval_orthob_block EvenLegendre Jacobi qdeg pqr out = Ok (tt, m')
     /\ length (ev_out m') = length out
     /\ (forall k,
           nbfn_for_qdeg qdeg <= k -> load (ev_out m') k = load out k)
     /\ (qdeg < 0 -> ev_out m' = out))
  /\ (Z.of_nat (length out) < nbfn_for_qdeg qdeg ->
      eval_orthob_block EvenLegendre Jacobi qdeg pqr out = OutOfRange).
Proof.
  split.
  - intros Hlen.
    destruct (eval_orthob_block_run EvenLegendre Jacobi qdeg pqr out Hlen)
      as (m' & i' & E & Hoff & Hout & _).
    exists m'. split; [exact E|].
    rewrite nbfn_for_qdeg_count in *.
    split; [|split].
    + rewrite Hout. apply overwrite_length; rewrite ?length_map; lia.
    + intros k Hk. rewrite Hout.
      apply load_overwrite_other; rewrite ?length_map; lia.
    + intros Hneg. rewrite Hout. unfold degree_triples.
      rewrite range_le_step. destruct (Z_le_dec 0 qdeg); [lia|].
      apply overwrite_nil.
  - intros Hlt.
    destruct (eval_orthob_block EvenLegendre Jacobi qdeg pqr out)
      as [[[] m']| |] eqn:E.
    + apply eval_orthob_block_advances in E. lia.
    + now apply eval_orthob_block_no_abort in E.
    + reflexivity.
Qed.

Lemma eval_orthob_block_room_witness :
  (exists m',
     eval_orthob_block (fun n x => x) (fun a b n x => x) 1
       [mkVector3T 0 0 0] [[7%R]; [8%R]; [9%R]]
     = Ok (tt, m')
     /\ length (ev_out m') = length [[7%R]; [8%R]; [9%R]]
     /\ (forall k,
           nbfn_for_qdeg 1 <= k ->
           load (ev_out m') k = load [[7%R]; [8%R]; [9%R]] k))
  /\ eval_orthob_block (fun n x => x) (fun a b n x => x) 1
       [mkVector3T 0 0 0] [[7%R]]
     = OutOfRange.
Proof.
  split.
  - destruct (proj1 (eval_orthob_block_room (fun n x => x)
                       (fun a b n x => x) 1 [mkVector3T 0 0 0]
                       [[7%R]; [8%R]; [9%R]]))
      as (m' & E & H1 & H2 & _).
    + vm_compute. discriminate.
    + exists m'. repeat split; assumption.
  - apply (eval_orthob_block_room (fun n x => x) (fun a b n x => x) 1
             [mkVector3T 0 0 0] [[7%R]]).
    vm_compute. reflexivity.
Defined.

(** ** One row per basis function *)

Lemma range_le_NoDup (step : positive) (hi i : Z) :
  NoDup (range_le step hi i).
Proof.
  pattern i. apply (loop_ind step hi); clear i.
  - intros i Hi. rewrite range_le_step.
    destruct (Z_le_dec i hi); [lia | constructor].
  - intros i Hi IH. rewrite range_le_step.
    destruct (Z_le_dec i hi); [|lia]. constructor; [|exact IH].
    intros Hin. apply range_le_In in Hin. lia.
Qed.

Lemma flat_map_NoDup {A B : Type} (f : A -> list B) (l : list A) :
  NoDup l ->
  (forall x, In x l -> NoDup (f x)) ->
  (forall x y b, In x l -> In y l -> In b (f x) -> In b (f y) -> x = y) ->
  NoDup (flat_map f l).
Proof.
  induction 1 as [|x l Hx Hl IH]; intros Hf Hdis; cbn [flat_map].
  - constructor.
  - apply NoDup_app.
    + apply Hf. now left.
    + apply IH.
      * intros y Hy. apply Hf. now right.
      * intros y z b Hy Hz. apply Hdis; now right.
    + intros b Hb Hb'. apply in_flat_map in Hb'.
      destruct Hb' as (y & Hy & Hby).
      assert (x = y) by (apply (Hdis x y b); auto; [now left | now right]).
      subst y. contradiction.
Qed.

Lemma map_NoDup {A B : Type} (f : A -> B) (l : list A) :
  (forall x y, f x = f y -> x = y) -> NoDup l -> NoDup (map f l).
Proof.
  intros Hf. induction 1 as [|x l Hx Hl IH]; cbn [map]; constructor.
  - intros Hin. apply in_map_iff in Hin. destruct Hin as (y & E & Hy).
    apply Hf in E. now subst y.
  - exact IH.
Qed.

Lemma degree_triples_NoDup (qdeg : Z) : NoDup (degree_triples qdeg).
Proof.
  unfold degree_triples. apply flat_map_NoDup.
  - apply range_le_NoDup.
  - intros i _. apply flat_map_NoDup.
    + apply range_le_NoDup.
    + intros j _. apply map_NoDup; [|apply range_le_NoDup].
      intros k k' E. now injection E.
    + intros j j' t _ _ H1 H2. apply in_map_iff in H1, H2.
      destruct H1 as (k & <- & _), H2 as (k' & E & _). now injection E.
  - intros i i' t _ _ H1 H2. apply in_flat_map in H1, H2.
    destruct H1 as (j & _ & H1), H2 as (j' & _ & H2).
    apply in_map_iff in H1, H2.
    destruct H1 as (k & <- & _), H2 as (k' & E & _). now injection E.
Qed.

Lemma number_from_nth {A : Type} (n0 : Z) (l : list A) (j : nat) (x : A) :
  nth_error l j = Some x -> In (n0 + Z.of_nat j, x) (number_from n0 l).
Proof.
  revert n0 j. induction l as [|y l IH]; intros n0 j H.
  - destruct j; discriminate H.
  - destruct j as [|j]; cbn [nth_error number_from In] in *.
    + injection H as ->. left. f_equal. lia.
    + right. replace (n0 + Z.of_nat (S j)) with (n0 + 1 + Z.of_nat j) by lia.
      now apply IH.
Qed.

(** X12.  When [eval_orthob_block] returns, the rows it has assigned and
    the index triples [(i, j, k)] with [i], [k] even, [0 <= i <= qdeg],
    [i <= j <= qdeg - i] and [0 <= k <= qdeg - i - j] correspond one to
    one: each such triple has a row, no triple has two rows and no row is
    assigned twice. *)
Theorem eval_orthob_block_one_row (EvenLegendre : Z -> T -> T)
    (Jacobi : Z -> Z -> Z -> T -> T) (qdeg : Z) (pqr : list Vector3T)
    (out : list ArrayT) :
  nbfn_for_qdeg qdeg <= Z.of_nat (length out) ->
  exists m',
    eval_orthob_block EvenLegendre Jacobi qdeg pqr out = Ok (tt, m')
    /\ (forall i j k,
          (exists off, In (EvRow off i j k) (ev_trace m'))
          <-> (0 <= i <= qdeg /\ Z.even i = true)
              /\ i <= j <= qdeg - i
              /\ (0 <= k <= qdeg - i - j /\ Z.even k = true))
    /\ (forall off off' i j k,
          In (EvRow off i j k) (ev_trace m') ->
          In (EvRow off' i j k) (ev_trace m') -> off = off')
    /\ (forall off i j k i' j' k',
          In (EvRow off i j k) (ev_trace m') ->
          In (EvRow off i' j' k') (ev_trace m') ->
          (i, j, k) = (i', j', k'))
    /\ NoDup (trace_rows (ev_trace m')).
Proof.
  intros Hlen.
  destruct (eval_orthob_block_run EvenLegendre Jacobi qdeg pqr out Hlen)
    as (m' & i' & E & _ & _ & _ & _ & Htr & _).
  exists m'. split; [exact E|].
  assert (Hnd := degree_triples_NoDup qdeg).
  split; [|split; [|split]].
  - intros i j k. rewrite <- degree_triples_In. split.
    + intros (off & Hin). apply trace_rows_In_iff in Hin.
      rewrite Htr in Hin. apply number_from_In in Hin.
      destruct Hin as [_ Hnth]. now apply nth_error_In in Hnth.
    + intros Hin. apply In_nth_error in Hin. destruct Hin as (n & Hn).
      exists (0 + Z.of_nat n). apply trace_rows_In_iff. rewrite Htr.
      now apply number_from_nth.
  - intros off off' i j k H1 H2.
    apply trace_rows_In_iff in H1, H2. rewrite Htr in H1, H2.
    apply number_from_In in H1, H2.
    destruct H1 as [P1 N1], H2 as [P2 N2].
    assert (Hlt : (Z.to_nat (off - 0) < length (degree_triples qdeg))%nat).
    { apply nth_error_Some. rewrite N1. discriminate. }
    assert (Heq := proj1 (NoDup_nth_error _) Hnd _ (Z.to_nat (off' - 0)) Hlt
                     ltac:(congruence)).
    lia.
  - intros off i j k i2 j2 k2 H1 H2.
    apply trace_rows_In_iff in H1, H2. rewrite Htr in H1, H2.
    apply number_from_In in H1, H2.
    destruct H1 as [_ N1], H2 as [_ N2]. congruence.
  - rewrite Htr. apply (NoDup_map_inv snd).
    rewrite number_from_snd. exact Hnd.
Qed.

Lemma eval_orthob_block_one_row_witness :
  exists m',
    eval_orthob_block (fun n x => x) (fun a b n x => x) 4
      [mkVector3T 0 0 0] (repeat [] 10)
    = Ok (tt, m')
    /\ NoDup (trace_rows (ev_trace m')).
Proof.
  destruct (eval_orthob_block_one_row (fun n x => x) (fun a b n x => x) 4
              [mkVector3T 0 0 0] (repeat [] 10))
    as (m' & E & _ & _ & _ & H).
  - vm_compute. discriminate.
  - exists m'. split; assumption.
Defined.

(** ** The count of basis functions *)

(** X13.  For the degrees up to 4684, the range in which the count that
    the source keeps in an [int] stays below [2^31], [nbfn_for_qdeg] is a
    value of a 32-bit [int]; it is 0 for a negative degree, at least 1 from
    degree 0 on, never decreases with the degree, and is bounded by
    [(d + 1)^3] and by [(2 d^3 + 27 d^2 + 100 d + 111) / 96]. *)
Theorem nbfn_for_qdeg_monotone (d d' : Z) :
  d <= 4684 ->
  d' <= 4684 ->
  0 <= nbfn_for_qdeg d < 2 ^ 31
  /\ (d < 0 -> nbfn_for_qdeg d = 0)
  /\ (0 <= d ->
      1 <= nbfn_for_qdeg d <= (d + 1) * (d + 1) * (d + 1)
      /\ 96 * nbfn_for_qdeg d
         <= 2 * d * d * d + 27 * d * d + 100 * d + 111)
  /\ (d <= d' -> nbfn_for_qdeg d <= nbfn_for_qdeg d' < 2 ^ 31).
Proof.
  intros Hb Hb'.
  assert (Hint := count_in_int d Hb).
  assert (Hint' := count_in_int d' Hb').
  split; [exact Hint|].
  rewrite !nbfn_for_qdeg_count in *. split; [|split].
  - intros Hd. unfold degree_triples. rewrite range_le_step.
    destruct (Z_le_dec 0 d); [lia | reflexivity].
  - intros Hd. split; [split|].
    + assert (Hin : In (0, 0, 0) (degree_triples d)).
      { apply degree_triples_In. repeat split; lia. }
      destruct (degree_triples d); [contradiction | cbn [length]; lia].
    + unfold degree_triples.
      etransitivity.
      * apply (flat_map_length_le _ _ ((d + 1) * (d + 1))); [lia|].
        intros i Hi. apply range_le_In in Hi.
        etransitivity.
        -- apply (flat_map_length_le _ _ (d + 1)); [lia|].
           intros j Hj. apply range_le_In in Hj. rewrite length_map.
           assert (H := range_le_length 2 (d - i - j) 0). lia.
        -- assert (H := range_le_length 1 (d - i) i). nia.
      * assert (H := range_le_length 2 d 0). nia.
    + assert (H := rows_from_i_length d 0). fold (degree_triples d) in H.
      replace (d - 2 * 0) with d in H by lia.
      destruct (d <? 0) eqn:E; [apply Z.ltb_lt in E; lia | exact H].
  - intros Hd. split; [|lia]. apply inj_le. apply NoDup_incl_length.
    + apply degree_triples_NoDup.
    + intros [[i j] k] Hin. apply degree_triples_In in Hin.
      destruct Hin as ((Hi & Ei) & Hj & (Hk & Ek)).
      apply degree_triples_In. repeat split; try assumption; lia.
Qed.

Lemma nbfn_for_qdeg_monotone_witness :
  nbfn_for_qdeg (-3) = 0
  /\ (1 <= nbfn_for_qdeg 6 <= (6 + 1) * (6 + 1) * (6 + 1)
      /\ 96 * nbfn_for_qdeg 6 <= 2 * 6 * 6 * 6 + 27 * 6 * 6 + 100 * 6 + 111)
  /\ nbfn_for_qdeg 6 <= nbfn_for_qdeg 7 < 2 ^ 31.
Proof.
  destruct (nbfn_for_qdeg_monotone (-3) 0) as (_ & H1 & _); [lia | lia |].
  destruct (nbfn_for_qdeg_monotone 6 7) as (_ & _ & H2 & H3); [lia | lia |].
  split; [apply H1; lia|]. split; [apply H2; lia | apply H3; lia].
Defined.

(** ** Values at the collapsed edge, and batches *)

Lemma eval_orthob_block_loaded (EvenLegendre : Z -> T -> T)
    (Jacobi : Z -> Z -> Z -> T -> T) (qdeg : Z) (pqr : list Vector3T)
    (out : list ArrayT) :
  nbfn_for_qdeg qdeg <= Z.of_nat (length out) ->
  exists m',
    eval_orthob_block EvenLegendre Jacobi qdeg pqr out = Ok (tt, m')
    /\ trace_rows (ev_trace m') = number_from 0 (degree_triples qdeg)
    /\ (forall (n : nat) (t : Z * Z * Z),
          nth_error (degree_triples qdeg) n = Some t ->
          load (ev_out m') (Z.of_nat n)
          = Some (basis_row EvenLegendre Jacobi pqr t)).
Proof.
  intros Hlen.
  destruct (eval_orthob_block_run EvenLegendre Jacobi qdeg pqr out Hlen)
    as (m' & i' & E & _ & Hout & _ & _ & Htr & _).
  exists m'. split; [exact E|]. split; [exact Htr|].
  rewrite nbfn_for_qdeg_count in Hlen.
  intros n t Hn. rewrite Hout.
  apply (load_overwrite_inside _ _ _ _ n).
  - lia.
  - rewrite length_map. lia.
  - rewrite nth_error_map, Hn. reflexivity.
  - lia.
Qed.

Lemma basis_value_collapsed (EvenLegendre : Z -> T -> T)
    (Jacobi : Z -> Z -> Z -> T -> T) (i j k : Z) (p p' r : T) :
  basis_value EvenLegendre Jacobi i j k (mkVector3T p 1 r)
  = basis_value EvenLegendre Jacobi i j k (mkVector3T p' 1 r)
  /\ (0 < i ->
      basis_value EvenLegendre Jacobi i j k (mkVector3T p 1 r) = 0%R).
Proof.
  unfold basis_value, remap_a. cbn [v3_x v3_y v3_z].
  destruct (Req_dec_T 1 1) as [_|N]; [|contradiction].
  split; [reflexivity|]. intros Hi.
  replace (1 - 1)%R with 0%R by lra.
  rewrite powerRZ_nonneg by lia.
  rewrite pow_i by lia. unfold T. ring.
Qed.

(** X14.  For a degree up to 1933, the range in which the [int] product
    under the square root stays below [2^31], every row
    [eval_orthob_block] assigns holds, at a point of the batch with
    [q = 1], a value that does not depend on [p], and the value of every
    basis function with [i > 0] is 0 there. *)
Theorem eval_orthob_block_collapsed (EvenLegendre : Z -> T -> T)
    (Jacobi : Z -> Z -> Z -> T -> T) (qdeg : Z) (pqr : list Vector3T)
    (out : list ArrayT) :
  qdeg <= 1933 ->
  nbfn_for_qdeg qdeg <= Z.of_nat (length out) ->
  exists m',
    eval_orthob_block EvenLegendre Jacobi qdeg pqr out = Ok (tt, m')
    /\ trace_rows (ev_trace m') = number_from 0 (degree_triples qdeg)
    /\ (forall off i j k n pt,
          In (EvRow off i j k) (ev_trace m') ->
          nth_error pqr n = Some pt ->
          v3_y pt = 1%R ->
          0 <= (2 * i + 1) * (2 * k + 1) * (i + j + 1) < 2 ^ 31
          /\ exists row,
               load (ev_out m') off = Some row
               /\ (forall p' : T,
                      nth_error row n
                      = Some (basis_value EvenLegendre Jacobi i j k
                                (mkVector3T p' 1 (v3_z pt))))
               /\ (0 < i -> nth_error row n = Some 0%R)).
Proof.
  intros Hdeg Hlen.
  destruct (eval_orthob_block_loaded EvenLegendre Jacobi qdeg pqr out Hlen)
    as (m' & E & Htr & Hload).
  exists m'. split; [exact E|]. split; [exact Htr|].
  intros off i j k n pt Hin Hpt Hq.
  apply trace_rows_In_iff in Hin. rewrite Htr in Hin.
  apply number_from_In in Hin. destruct Hin as [H0 Hnth].
  split.
  { apply (coefficient_in_int qdeg i j k Hdeg).
    now apply nth_error_In in Hnth. }
  apply Hload in Hnth.
  replace (Z.of_nat (Z.to_nat (off - 0))) with off in Hnth by lia.
  exists (basis_row EvenLegendre Jacobi pqr (i, j, k)).
  split; [exact Hnth|].
  unfold basis_row. rewrite nth_error_map, Hpt. cbn [option_map].
  destruct pt as [p q r]. cbn [v3_y v3_z] in *. subst q.
  destruct (basis_value_collapsed EvenLegendre Jacobi i j k p p r)
    as [_ Hz].
  split.
  - intros p'. f_equal.
    apply (basis_value_collapsed EvenLegendre Jacobi i j k p p' r).
  - intros Hi. f_equal. now apply Hz.
Qed.

Lemma eval_orthob_block_collapsed_witness :
  exists m' row9 row0,
    eval_orthob_block (fun n x => (x + 2)%R) (fun a b n x => (x + 1)%R) 4
      [mkVector3T 0 0 0; mkVector3T 0.5 1 0.25] (repeat [] 10)
    = Ok (tt, m')
    /\ In (EvRow 9 2 2 0) (ev_trace m')
    /\ load (ev_out m') 9 = Some row9
    /\ nth_error row9 1 = Some 0%R
    /\ In (EvRow 0 0 0 0) (ev_trace m')
    /\ load (ev_out m') 0 = Some row0
    /\ (forall p' : T,
          nth_error row0 1
          = Some (basis_value (fun n x => (x + 2)%R)
                    (fun a b n x => (x + 1)%R) 0 0 0
                    (mkVector3T p' 1 0.25)))
    /\ nth_error row0 1 = Some (9 / 2)%R.
Proof.
  destruct (eval_orthob_block_collapsed
              (fun n x => (x + 2)%R) (fun a b n x => (x + 1)%R) 4
              [mkVector3T 0 0 0; mkVector3T 0.5 1 0.25] (repeat [] 10))
    as (m' & E & Htr & Hrow).
  - lia.
  - vm_compute. discriminate.
  - assert (H9 : In (EvRow 9 2 2 0) (ev_trace m')).
    { apply trace_rows_In_iff. rewrite Htr. vm_compute. tauto. }
    assert (H0 : In (EvRow 0 0 0 0) (ev_trace m')).
    { apply trace_rows_In_iff. rewrite Htr. vm_compute. tauto. }
    destruct (Hrow 9 2 2 0 1%nat (mkVector3T 0.5 1 0.25) H9 eq_refl eq_refl)
      as (_ & row9 & L9 & _ & Z9).
    destruct (Hrow 0 0 0 0 1%nat (mkVector3T 0.5 1 0.25) H0 eq_refl eq_refl)
      as (_ & row0 & L0 & P0 & _).
    exists m', row9, row0.
    split; [exact E|]. split; [exact H9|]. split; [exact L9|].
    split; [apply Z9; lia|]. split; [exact H0|]. split; [exact L0|].
    split; [exact P0|].
    rewrite (P0 0%R). f_equal.
    unfold basis_value, C_ijk, remap_a. cbn [v3_x v3_y v3_z].
    destruct (Req_dec_T 1 1) as [_|N]; [|contradiction].
    change ((2 * 0 + 1) * (2 * 0 + 1) * (0 + 0 + 1)) with 1.
    rewrite sqrt_1.
    change (powerRZ 2 (- 0 - 1)) with (/ (2 * 1))%R.
    change (powerRZ (1 - 1) 0) with 1%R.
    unfold T. lra.
Defined.

(** X15.  Evaluating a batch made of two blocks of points gives, row by
    row, the values of the first block followed by those of the second:
    the points of a batch are evaluated independently of one another. *)
Theorem eval_orthob_block_blocks (EvenLegendre : Z -> T -> T)
    (Jacobi : Z -> Z -> Z -> T -> T) (qdeg : Z)
    (pqr1 pqr2 : list Vector3T) (out : list ArrayT) :
  nbfn_for_qdeg qdeg <= Z.of_nat (length out) ->
  exists m1 m2 m12,
    eval_orthob_block EvenLegendre Jacobi qdeg pqr1 out = Ok (tt, m1)
    /\ eval_orthob_block EvenLegendre Jacobi qdeg pqr2 out = Ok (tt, m2)
    /\ eval_orthob_block EvenLegendre Jacobi qdeg (pqr1 ++ pqr2) out
       = Ok (tt, m12)
    /\ (forall k,
          0 <= k < nbfn_for_qdeg qdeg ->
          exists r1 r2,
            load (ev_out m1) k = Some r1
            /\ load (ev_out m2) k = Some r2
            /\ length r1 = length pqr1
            /\ load (ev_out m12) k = Some (r1 ++ r2)).
Proof.
  intros Hlen.
  destruct (eval_orthob_block_loaded EvenLegendre Jacobi qdeg pqr1 out Hlen)
    as (m1 & E1 & _ & L1).
  destruct (eval_orthob_block_loaded EvenLegendre Jacobi qdeg pqr2 out Hlen)
    as (m2 & E2 & _ & L2).
  destruct (eval_orthob_block_loaded EvenLegendre Jacobi qdeg
              (pqr1 ++ pqr2) out Hlen) as (m12 & E12 & _ & L12).
  exists m1, m2, m12. repeat split; try assumption.
  intros k Hk. rewrite nbfn_for_qdeg_count in Hk.
  destruct (nth_error (degree_triples qdeg) (Z.to_nat k)) as [t|] eqn:Et.
  2:{ apply nth_error_None in Et. lia. }
  exists (basis_row EvenLegendre Jacobi pqr1 t),
    (basis_row EvenLegendre Jacobi pqr2 t).
  replace k with (Z.of_nat (Z.to_nat k)) by lia.
  rewrite (L1 _ _ Et), (L2 _ _ Et), (L12 _ _ Et).
  destruct t as [[i j] kk]. unfold basis_row.
  rewrite map_app, length_map. repeat split.
Qed.

Lemma eval_orthob_block_blocks_witness :
  exists m1 m2 m12,
    eval_orthob_block (fun n x => x) (fun a b n x => x) 1
      [mkVector3T 0 0 0] (repeat [] 2) = Ok (tt, m1)
    /\ eval_orthob_block (fun n x => x) (fun a b n x => x) 1
         [mkVector3T 0.5 0.25 0] (repeat [] 2) = Ok (tt, m2)
    /\ eval_orthob_block (fun n x => x) (fun a b n x => x) 1
         ([mkVector3T 0 0 0] ++ [mkVector3T 0.5 0.25 0]) (repeat [] 2)
       = Ok (tt, m12).
Proof.
  destruct (eval_orthob_block_blocks (fun n x => x) (fun a b n x => x) 1
              [mkVector3T 0 0 0] [mkVector3T 0.5 0.25 0] (repeat [] 2))
    as (m1 & m2 & m12 & E1 & E2 & E12 & _).
  - vm_compute. discriminate.
  - exists m1, m2, m12. repeat split; assumption.
Defined.

(** ** Layered orbits, and the order of the rows *)

Lemma orbit_points_layers (i : Z) (s : list T) (c : T) :
  i = 0 \/ i = 2 \/ i = 4 ->
  length s = Z.to_nat (table_at narg_for_orbit i) ->
  orbit_points (i + 1) (s ++ [c])
  = map (at_level (- c)) (orbit_points i s)
    ++ map (at_level c) (orbit_points i s).
Proof.
  intros Hi Hlen. set (n := Z.to_nat (table_at narg_for_orbit i)) in Hlen.
  destruct Hi as [-> | [-> | ->]]; vm_compute in n; subst n;
    explode_slice Hlen; reflexivity.
Qed.

(** X16.  Orbits 1, 3 and 5 are orbits 0, 2 and 4 in two layers: with the
    same leading parameters and a last parameter [c], [expand_orbit]
    writes for orbit [i + 1] the points it writes for orbit [i], first
    moved to [z = -c], then to [z = c]. *)
Theorem expand_orbit_layers (i aoff poff aoff' poff' : Z)
    (m m2 : expand_mem) (c : T) :
  i = 0 \/ i = 2 \/ i = 4 ->
  window_ok aoff (table_at narg_for_orbit i) (em_args m) ->
  window_ok poff (table_at npts_for_orbit i) (em_pts m) ->
  window_ok aoff' (table_at narg_for_orbit (i + 1)) (em_args m2) ->
  window_ok poff' (table_at npts_for_orbit (i + 1)) (em_pts m2) ->
  slice aoff' (table_at narg_for_orbit (i + 1)) (em_args m2)
  = slice aoff (table_at narg_for_orbit i) (em_args m) ++ [c] ->
  exists m' m2',
    expand_orbit i aoff poff m = Ok (tt, m')
    /\ expand_orbit (i + 1) aoff' poff' m2 = Ok (tt, m2')
    /\ slice poff' (table_at npts_for_orbit (i + 1)) (em_pts m2')
       = map (at_level (- c))
           (slice poff (table_at npts_for_orbit i) (em_pts m'))
         ++ map (at_level c)
              (slice poff (table_at npts_for_orbit i) (em_pts m')).
Proof.
  intros Hi Ha Hp Ha2 Hp2 Hs.
  assert (Hi0 : 0 <= i <= 5) by lia.
  assert (Hi1 : 0 <= i + 1 <= 5) by lia.
  destruct (expand_orbit_rows i aoff poff m Hi0 Ha Hp) as (m' & E & Hrows & _).
  destruct (expand_orbit_rows (i + 1) aoff' poff' m2 Hi1 Ha2 Hp2)
    as (m2' & E2 & Hrows2 & _).
  exists m', m2'. split; [exact E|]. split; [exact E2|].
  rewrite Hrows, Hrows2, Hs. apply orbit_points_layers; [exact Hi|].
  apply slice_length; [now apply narg_nonneg | exact Ha].
Qed.

Lemma expand_orbit_layers_witness :
  exists m' m2',
    expand_orbit 2 0 0
      (mkExpandMem [0.25%R] (repeat (mkVector3T 0 0 0) 3) [] [])
    = Ok (tt, m')
    /\ expand_orbit (2 + 1) 0 0
         (mkExpandMem [0.25; 1 / 2]%R (repeat (mkVector3T 0 0 0) 6) [] [])
       = Ok (tt, m2')
    /\ slice 0 (table_at npts_for_orbit (2 + 1)) (em_pts m2')
       = map (at_level (- (1 / 2)))
           (slice 0 (table_at npts_for_orbit 2) (em_pts m'))
         ++ map (at_level (1 / 2))
              (slice 0 (table_at npts_for_orbit 2) (em_pts m')).
Proof.
  apply (expand_orbit_layers 2 0 0 0 0
           (mkExpandMem [0.25%R] (repeat (mkVector3T 0 0 0) 3) [] [])
           (mkExpandMem [0.25; 1 / 2]%R (repeat (mkVector3T 0 0 0) 6) [] [])
           (1 / 2)%R).
  - right. left. reflexivity.
  - split; vm_compute; discriminate.
  - split; vm_compute; discriminate.
  - split; vm_compute; discriminate.
  - split; vm_compute; discriminate.
  - reflexivity.
Defined.

Lemma range_le_sorted (step : positive) (hi i : Z) :
  StronglySorted Z.lt (range_le step hi i).
Proof.
  pattern i. apply (loop_ind step hi); clear i.
  - intros i Hi. rewrite range_le_step.
    destruct (Z_le_dec i hi); [lia | constructor].
  - intros i Hi IH. rewrite range_le_step.
    destruct (Z_le_dec i hi); [|lia]. constructor; [exact IH|].
    apply Forall_forall. intros x Hx. apply range_le_In in Hx. lia.
Qed.

Lemma flat_map_sorted {A B : Type} (RA : A -> A -> Prop)
    (RB : B -> B -> Prop) (f : A -> list B) (l : list A) :
  StronglySorted RA l ->
  (forall x, In x l -> StronglySorted RB (f x)) ->
  (forall x y b b', RA x y -> In b (f x) -> In b' (f y) -> RB b b') ->
  StronglySorted RB (flat_map f l).
Proof.
  intros Hl Hf Hcross.
  induction Hl as [|x l Hs IH Hx]; cbn [flat_map]; [constructor|].
  assert (Hrest : StronglySorted RB (flat_map f l)).
  { apply IH. intros y Hy. apply Hf. now right. }
  assert (Hhead := Hf x (or_introl eq_refl)).
  rewrite Forall_forall in Hx.
  assert (Hall : forall b b', In b (f x) -> In b' (flat_map f l) -> RB b b').
  { intros b b' Hb Hb'. apply in_flat_map in Hb'.
    destruct Hb' as (y & Hy & Hby). apply (Hcross x y); auto. }
  clear Hf IH Hcross Hx.
  induction Hhead as [|b bs Hbs IHb Hb]; cbn [app]; [exact Hrest|].
  constructor.
  - apply IHb. intros b1 b2 H1 H2. apply Hall; [now right | exact H2].
  - apply Forall_app. split; [exact Hb|].
    apply Forall_forall. intros b' Hb'. apply Hall; [now left | exact Hb'].
Qed.

Lemma degree_triples_sorted (qdeg : Z) :
  StronglySorted visits_before (degree_triples qdeg).
Proof.
  unfold degree_triples.
  apply (flat_map_sorted Z.lt); [apply range_le_sorted | |].
  - intros i _. apply (flat_map_sorted Z.lt); [apply range_le_sorted | |].
    + intros j _.
      assert (Hk := range_le_sorted 2 (qdeg - i - j) 0).
      induction Hk as [|k ks Hs IH Hall]; cbn [map]; constructor.
      * exact IH.
      * rewrite Forall_forall in Hall. apply Forall_forall.
        intros t Ht. apply in_map_iff in Ht. destruct Ht as (k' & <- & Hk').
        cbn. right. split; [reflexivity|]. right. split; [reflexivity|].
        now apply Hall.
    + intros j j' t t' Hjj Ht Ht'. apply in_map_iff in Ht, Ht'.
      destruct Ht as (k & <- & _), Ht' as (k' & <- & _).
      cbn. right. split; [reflexivity|]. now left.
  - intros i i' t t' Hii Ht Ht'. apply in_flat_map in Ht, Ht'.
    destruct Ht as (j & _ & Ht), Ht' as (j' & _ & Ht').
    apply in_map_iff in Ht, Ht'.
    destruct Ht as (k & <- & _), Ht' as (k' & <- & _).
    cbn. now left.
Qed.

Lemma sorted_nth {A : Type} (R : A -> A -> Prop) (l : list A) :
  StronglySorted R l ->
  forall n n' x y,
    (n < n')%nat -> nth_error l n = Some x -> nth_error l n' = Some y ->
    R x y.
Proof.
  induction 1 as [|a l Hs IH Ha]; intros n n' x y Hlt Hx Hy.
  - destruct n; discriminate Hx.
  - destruct n' as [|n']; [lia|]. cbn [nth_error] in Hy.
    destruct n as [|n]; cbn [nth_error] in Hx.
    + injection Hx as <-. rewrite Forall_forall in Ha.
      apply Ha. now apply nth_error_In in Hy.
    + apply (IH n n'); [lia | assumption..].
Qed.

(** X17.  The rows of the output follow the loop nest: of two rows
    [eval_orthob_block] assigns, the one with the smaller index belongs to
    the triple that comes first by [i], then by [j], then by [k]; row 0 is
    the basis function [(0, 0, 0)]. *)
Theorem eval_orthob_block_row_order (EvenLegendre : Z -> T -> T)
    (Jacobi : Z -> Z -> Z -> T -> T) (qdeg : Z) (pqr : list Vector3T)
    (out : list ArrayT) :
  nbfn_for_qdeg qdeg <= Z.of_nat (length out) ->
  exists m',
    eval_orthob_block EvenLegendre Jacobi qdeg pqr out = Ok (tt, m')
    /\ (forall off off' i j k i' j' k',
          In (EvRow off i j k) (ev_trace m') ->
          In (EvRow off' i' j' k') (ev_trace m') ->
          off < off' -> visits_before (i, j, k) (i', j', k'))
    /\ (0 <= qdeg -> In (EvRow 0 0 0 0) (ev_trace m')).
Proof.
  intros Hlen.
  destruct (eval_orthob_block_loaded EvenLegendre Jacobi qdeg pqr out Hlen)
    as (m' & E & Htr & _).
  exists m'. split; [exact E|]. split.
  - intros off off' i j k i2 j2 k2 H1 H2 Hlt.
    apply trace_rows_In_iff in H1, H2. rewrite Htr in H1, H2.
    apply number_from_In in H1, H2.
    destruct H1 as [P1 N1], H2 as [P2 N2].
    apply (sorted_nth _ _ (degree_triples_sorted qdeg)
             (Z.to_nat (off - 0)) (Z.to_nat (off' - 0))); [lia | assumption..].
  - intros Hq. apply trace_rows_In_iff. rewrite Htr.
    assert (Hin : In (0, 0, 0) (degree_triples qdeg)).
    { apply degree_triples_In. repeat split; lia. }
    apply In_nth_error in Hin. destruct Hin as (n & Hn).
    destruct n as [|n].
    + apply (number_from_nth 0 _ 0%nat). exact Hn.
    + exfalso.
      destruct (nth_error (degree_triples qdeg) 0) as [[[i j] k]|] eqn:E0.
      * assert (Hv := sorted_nth _ _ (degree_triples_sorted qdeg)
                        0%nat (S n) _ _ ltac:(lia) E0 Hn).
        apply nth_error_In, degree_triples_In in E0.
        cbn in Hv. lia.
      * apply nth_error_None in E0.
        assert (S n < length (degree_triples qdeg))%nat
          by (apply nth_error_Some; rewrite Hn; discriminate).
        lia.
Qed.

Lemma eval_orthob_block_row_order_witness :
  exists m',
    eval_orthob_block (fun n x => x) (fun a b n x => x) 2
      [mkVector3T 0 0 0] (repeat [] 4)
    = Ok (tt, m')
    /\ (0 <= 2 -> In (EvRow 0 0 0 0) (ev_trace m')).
Proof.
  destruct (eval_orthob_block_row_order (fun n x => x) (fun a b n x => x) 2
              [mkVector3T 0 0 0] (repeat [] 4))
    as (m' & E & _ & H).
  - vm_compute. discriminate.
  - exists m'. split; assumption.
Defined.
